(** * device_mapping: the batch reconciliation pipeline

    A shallow embedding of [device_mapping.py]: the tolerant JSON-array
    extractor, the label filter, the two provider clients with their
    exception-absorbing wrappers, and the batch loop of [main] that merges the
    two providers' answers and appends rows to the output file.

    Python strings are sequences of Unicode code points, so [len], [strip],
    [isdigit] and the CJK range test are stated on code points. *)

From Stdlib Require Import Ascii String.
From Stdlib Require Import List NArith ZArith Lia Bool Permutation.
From Stdlib Require Import DecimalN DecimalZ DecimalFacts.
Import ListNotations.

Set Warnings "-register-all".
Local Open Scope N_scope.

(* ================================================================= *)
(** ** Python strings *)

(** A character is its code point; a [str] is a list of them. *)
Definition char := N.
Definition pystr := list char.

(** An ASCII literal as a Python string. *)
Definition str (x : string) : pystr := map N_of_ascii (list_ascii_of_string x).

(** The same, with each apostrophe of the literal standing for a double
    quote, so that JSON texts can be written as literals. *)
Definition dq (x : string) : pystr :=
  map (fun c => if c =? 39 then 34 else c) (str x).

Definition QUOTE : char := 34.
Definition BACKSLASH : char := 92.
Definition LBRACKET : char := 91.
Definition RBRACKET : char := 93.
Definition LBRACE : char := 123.
Definition RBRACE : char := 125.
Definition COMMA : char := 44.
Definition COLON : char := 58.
Definition BACKTICK : char := 96.
Definition NEWLINE : char := 10.

Fixpoint pystr_eqb (a b : pystr) : bool :=
  match a, b with
  | [], [] => true
  | x :: a', y :: b' => (x =? y) && pystr_eqb a' b'
  | _, _ => false
  end.

(** [s.startswith(p)] *)
Fixpoint startswith (p s : pystr) : bool :=
  match p, s with
  | [], _ => true
  | x :: p', y :: s' => (x =? y) && startswith p' s'
  | _ :: _, [] => false
  end.

(** Inclusive code point ranges, used for the character classes below. *)
Definition in_range (c : char) (r : N * N) : bool := (fst r <=? c) && (c <=? snd r).
Definition in_ranges (c : char) (rs : list (N * N)) : bool := existsb (in_range c) rs.

(** The characters [str.strip()] removes: those for which [str.isspace] holds. *)
Definition WHITESPACE_RANGES : list (N * N) :=
  [ (9, 13); (28, 32); (133, 133); (160, 160); (5760, 5760); (8192, 8202);
    (8232, 8233); (8239, 8239); (8287, 8287); (12288, 12288) ].

Definition py_isspace (c : char) : bool := in_ranges c WHITESPACE_RANGES.

Fixpoint lstrip (s : pystr) : pystr :=
  match s with
  | [] => []
  | c :: r => if py_isspace c then lstrip r else s
  end.

Definition rstrip (s : pystr) : pystr := rev (lstrip (rev s)).

(** [s.strip()] *)
Definition strip (s : pystr) : pystr := rstrip (lstrip s).

(** [s.strip(x)] for a one-character [x]: strip it from both ends. *)
Fixpoint lstrip_char (x : char) (s : pystr) : pystr :=
  match s with
  | [] => []
  | c :: r => if c =? x then lstrip_char x r else s
  end.

Definition strip_char (x : char) (s : pystr) : pystr :=
  rev (lstrip_char x (rev (lstrip_char x s))).

(** [s.find(c)] for a one-character needle; [None] stands for Python's -1. *)
Fixpoint find_from (c : char) (s : pystr) (i : nat) : option nat :=
  match s with
  | [] => None
  | x :: r => if x =? c then Some i else find_from c r (S i)
  end.

Definition find (c : char) (s : pystr) : option nat := find_from c s 0.

(** [l[i:j]] for 0 <= i <= j, on strings and lists. *)
Definition slice {A} (l : list A) (i j : nat) : list A := firstn (j - i) (skipn i l).

(** [re.sub("^" + p, "", s)]: the pattern is anchored at position 0, so at
    most one occurrence, the prefix, is removed. *)
Fixpoint drop_prefix (p s : pystr) : option pystr :=
  match p, s with
  | [], _ => Some s
  | x :: p', y :: s' => if x =? y then drop_prefix p' s' else None
  | _ :: _, [] => None
  end.

Definition re_sub_prefix (p s : pystr) : pystr :=
  match drop_prefix p s with
  | Some r => r
  | None => s
  end.

(** [re.sub(r"```$", "", s)]: without MULTILINE, [$] matches at the end of
    the string and just before a newline that ends the string.  So the
    fence is removed when the string ends with it, or with it and a
    newline, which is kept. *)
Definition re_sub_fence_end (s : pystr) : pystr :=
  match drop_prefix [96; 96; 96] (rev s) with
  | Some r => rev r
  | None =>
    match drop_prefix [10; 96; 96; 96] (rev s) with
    | Some r => rev r ++ [NEWLINE]
    | None => s
    end
  end.

(* ================================================================= *)
(** ** Exceptions and results *)

(** The exceptions the program can raise, by Python class.  The two
    [ValueError]s raised by [extract_json] itself are kept apart. *)
Inductive exn : Type :=
| ValueError_no_array_start      (* raise ValueError: no '[' found *)
| ValueError_incomplete_array    (* raise ValueError: array never closed *)
| ValueError_extra_fields        (* csv.DictWriter: dict contains fields not in fieldnames *)
| JSONDecodeError                (* json.loads / resp.json() *)
| RecursionError
| AttributeError
| TypeError
| KeyError
| IndexError
| HTTPError (status : Z)         (* resp.raise_for_status() *)
| ConnectionError                (* requests.post *)
| Timeout                        (* requests.post, timeout=120 *)
| OSError.                       (* open(INPUT_CSV) *)

Inductive result (A : Type) : Type :=
| Ok (a : A)
| Raise (e : exn).
Arguments Ok {A} a.
Arguments Raise {A} e.

Definition rbind {A B} (r : result A) (k : A -> result B) : result B :=
  match r with
  | Ok a => k a
  | Raise e => Raise e
  end.

Notation "x <- r ;; k" := (rbind r (fun x => k))
  (at level 61, r at next level, right associativity).
Notation "' p <- r ;; k" := (rbind r (fun p => k))
  (at level 61, p pattern, r at next level, right associativity).

(* ================================================================= *)
(** ** JSON values and Python dicts *)

(** What [json.loads] produces.  A number literal with a fraction or an
    exponent (and NaN, Infinity) becomes a Python float; binary floating
    point is not modelled, the value carries its literal text instead.
    An object is a Python dict: an insertion-ordered list of members with
    pairwise distinct keys. *)
Inductive json : Type :=
| JNull
| JBool (b : bool)
| JInt (z : Z)
| JFloat (lit : pystr)
| JStr (s : pystr)
| JArr (items : list json)
| JObj (members : list (pystr * json)).

Module Dict.
Section Dict.
Context {K V : Type}.
Variable eqb : K -> K -> bool.

(** [d.get(k)] *)
Fixpoint get (k : K) (d : list (K * V)) : option V :=
  match d with
  | [] => None
  | (k', v) :: r => if eqb k k' then Some v else get k r
  end.

(** [k in d] *)
Definition mem (k : K) (d : list (K * V)) : bool :=
  match get k d with
  | Some _ => true
  | None => false
  end.

(** [d[k] = v]: an existing key keeps its position, a new one goes last. *)
Fixpoint set (k : K) (v : V) (d : list (K * V)) : list (K * V) :=
  match d with
  | [] => [(k, v)]
  | (k', v') :: r => if eqb k k' then (k', v) :: r else (k', v') :: set k v r
  end.

(** [d.keys()] *)
Definition keys (d : list (K * V)) : list K := map fst d.

(** [dict(pairs)] *)
Definition of_pairs (ps : list (K * V)) : list (K * V) :=
  fold_left (fun d kv => set (fst kv) (snd kv) d) ps [].
End Dict.
End Dict.

(** A record as the program handles it: a dict with string keys. *)
Definition record := list (pystr * json).

Definition rget (k : pystr) (d : record) : option json := Dict.get pystr_eqb k d.
Definition rset (k : pystr) (v : json) (d : record) : record := Dict.set pystr_eqb k v d.

(** [d.get(k)] as a Python value: [None] when the key is missing. *)
Definition rget_or_none (k : pystr) (d : record) : json :=
  match rget k d with
  | Some v => v
  | None => JNull
  end.

(* ================================================================= *)
(** ** [json.loads] *)

Module Json.

(** The decoder's WHITESPACE: space, tab, line feed, carriage return. *)
Definition is_ws (c : char) : bool :=
  (c =? 32) || (c =? 9) || (c =? 10) || (c =? 13).

Fixpoint skip_ws (s : pystr) : pystr :=
  match s with
  | [] => []
  | c :: r => if is_ws c then skip_ws r else s
  end.

Definition is_digit (c : char) : bool := (48 <=? c) && (c <=? 57).

Definition hex_value (c : char) : option N :=
  if (48 <=? c) && (c <=? 57) then Some (c - 48)
  else if (97 <=? c) && (c <=? 102) then Some (c - 87)
  else if (65 <=? c) && (c <=? 70) then Some (c - 55)
  else None.

(** The four hex digits after a backslash-u. *)
Definition decode_uXXXX (a b c d : char) : option N :=
  match hex_value a, hex_value b, hex_value c, hex_value d with
  | Some x, Some y, Some z, Some w => Some (((x * 16 + y) * 16 + z) * 16 + w)
  | _, _, _, _ => None
  end.

(** The one-letter escapes of the decoder's BACKSLASH table. *)
Definition backslash_escape (e : char) : option char :=
  if e =? 34 then Some 34          (* quote *)
  else if e =? 92 then Some 92     (* backslash *)
  else if e =? 47 then Some 47     (* slash *)
  else if e =? 98 then Some 8      (* b *)
  else if e =? 102 then Some 12    (* f *)
  else if e =? 110 then Some 10    (* n *)
  else if e =? 114 then Some 13    (* r *)
  else if e =? 116 then Some 9     (* t *)
  else None.

Definition is_high_surrogate (u : N) : bool := (55296 <=? u) && (u <=? 56319).
Definition is_low_surrogate (u : N) : bool := (56320 <=? u) && (u <=? 57343).

(** [scanstring] in strict mode, started right after the opening quote;
    [acc] holds the decoded characters so far, most recent first.  Returns
    the string and the text after the closing quote. *)
Fixpoint scanstring (s : pystr) (acc : pystr) : result (pystr * pystr) :=
  match s with
  | [] => Raise JSONDecodeError                     (* unterminated string *)
  | c :: rest =>
    if c =? QUOTE then Ok (rev acc, rest)
    else if c =? BACKSLASH then
      match rest with
      | [] => Raise JSONDecodeError
      | e :: rest1 =>
        if e =? 117 then                            (* backslash-u *)
          match rest1 with
          | h1 :: h2 :: h3 :: h4 :: rest5 =>
            match decode_uXXXX h1 h2 h3 h4 with
            | None => Raise JSONDecodeError
            | Some uni =>
              if is_high_surrogate uni then
                match rest5 with
                | b :: u :: g1 :: g2 :: g3 :: g4 :: rest11 =>
                  if (b =? BACKSLASH) && (u =? 117) then
                    match decode_uXXXX g1 g2 g3 g4 with
                    | None => Raise JSONDecodeError
                    | Some uni2 =>
                      if is_low_surrogate uni2 then
                        scanstring rest11
                          (65536 + N.lor (N.shiftl (uni - 55296) 10) (uni2 - 56320)
                           :: acc)
                      else scanstring rest5 (uni :: acc)
                    end
                  else scanstring rest5 (uni :: acc)
                | _ => scanstring rest5 (uni :: acc)
                end
              else scanstring rest5 (uni :: acc)
            end
          | _ => Raise JSONDecodeError
          end
        else
          match backslash_escape e with
          | Some ch => scanstring rest1 (ch :: acc)
          | None => Raise JSONDecodeError
          end
      end
    else if c <? 32 then Raise JSONDecodeError      (* control character *)
    else scanstring rest (c :: acc)
  end.

(** The longest run of ASCII digits and the text after it. *)
Fixpoint span_digits (s : pystr) : pystr * pystr :=
  match s with
  | [] => ([], [])
  | c :: r =>
    if is_digit c then let (ds, t) := span_digits r in (c :: ds, t)
    else ([], s)
  end.

(** [int(digits)] for a run of ASCII digits. *)
Fixpoint uint_of_digits (ds : pystr) : Decimal.uint :=
  match ds with
  | [] => Decimal.Nil
  | c :: r =>
    let u := uint_of_digits r in
    match c - 48 with
    | 0 => Decimal.D0 u | 1 => Decimal.D1 u | 2 => Decimal.D2 u
    | 3 => Decimal.D3 u | 4 => Decimal.D4 u | 5 => Decimal.D5 u
    | 6 => Decimal.D6 u | 7 => Decimal.D7 u | 8 => Decimal.D8 u
    | _ => Decimal.D9 u
    end
  end.

Definition int_of_digits (ds : pystr) : Z := Z.of_N (N.of_uint (uint_of_digits ds)).

(** The integer group of NUMBER_RE without its optional sign: a single
    zero, or a non-zero digit followed by digits. *)
Definition match_int_part (s : pystr) : option (pystr * pystr) :=
  match s with
  | c :: r =>
    if c =? 48 then Some ([c], r)
    else if is_digit c then let (ds, t) := span_digits r in Some (c :: ds, t)
    else None
  | [] => None
  end.

(** The optional fraction group, a dot and at least one digit: empty when
    it does not match. *)
Definition match_frac (s : pystr) : pystr * pystr :=
  match s with
  | c :: r =>
    if c =? 46 then
      match span_digits r with
      | ([], _) => ([], s)
      | (ds, t) => (c :: ds, t)
      end
    else ([], s)
  | [] => ([], s)
  end.

(** The optional exponent group: e or E, an optional sign, at least one
    digit. *)
Definition match_exp (s : pystr) : pystr * pystr :=
  match s with
  | e :: r =>
    if (e =? 101) || (e =? 69) then
      match r with
      | sg :: r' =>
        if (sg =? 45) || (sg =? 43) then
          match span_digits r' with
          | ([], _) => ([], s)
          | (ds, t) => (e :: sg :: ds, t)
          end
        else
          match span_digits r with
          | ([], _) => ([], s)
          | (ds, t) => (e :: ds, t)
          end
      | [] => ([], s)
      end
    else ([], s)
  | [] => ([], s)
  end.

(** [match_number]: an int when neither fraction nor exponent is present,
    a float otherwise. *)
Definition match_number (s : pystr) : option (json * pystr) :=
  let (neg, body) :=
    match s with
    | c :: r => if c =? 45 then (true, r) else (false, s)
    | [] => (false, s)
    end in
  match match_int_part body with
  | None => None
  | Some (ip, t) =>
    let (fr, t1) := match_frac t in
    let (ex, t2) := match_exp t1 in
    match fr, ex with
    | [], [] =>
      Some (JInt (if neg then - int_of_digits ip else int_of_digits ip), t2)
    | _, _ =>
      Some (JFloat ((if neg then [45] else []) ++ ip ++ fr ++ ex), t2)
    end
  end.

(** The literals the scanner recognises by their first letter, after
    strings, objects, arrays and numbers. *)
Definition match_literal (s : pystr) : option (json * pystr) :=
  match drop_prefix (str "null") s with
  | Some t => Some (JNull, t)
  | None =>
  match drop_prefix (str "true") s with
  | Some t => Some (JBool true, t)
  | None =>
  match drop_prefix (str "false") s with
  | Some t => Some (JBool false, t)
  | None =>
  match match_number s with
  | Some r => Some r
  | None =>
  match drop_prefix (str "NaN") s with
  | Some t => Some (JFloat (str "NaN"), t)
  | None =>
  match drop_prefix (str "Infinity") s with
  | Some t => Some (JFloat (str "Infinity"), t)
  | None =>
  match drop_prefix (str "-Infinity") s with
  | Some t => Some (JFloat (str "-Infinity"), t)
  | None => None
  end end end end end end end.

(** The text after [c], when the text starts with [c]. *)
Definition expect (c : char) (s : pystr) : option pystr := drop_prefix [c] s.

(** [scan_once], [JSONArray] and [JSONObject].  Python recurses through
    nested values and loops over the elements; here both consume [fuel],
    which only serves to make the recursion structural: [loads] gives
    enough of it for every text, and Python's recursion limit is not
    modelled.  [array_loop] and [object_loop] collect the elements most
    recent first. *)
Fixpoint scan_once (fuel : nat) (s : pystr) : result (json * pystr) :=
  match fuel with
  | O => Raise RecursionError
  | S fuel' =>
    match s with
    | [] => Raise JSONDecodeError                 (* expecting value *)
    | c :: rest =>
      if c =? QUOTE then
        ' (x, t) <- scanstring rest [] ;; Ok (JStr x, t)
      else if c =? LBRACE then
        match expect RBRACE (skip_ws rest) with
        | Some t => Ok (JObj [], t)
        | None =>
          match expect QUOTE (skip_ws rest) with
          | Some t =>
            ' (ps, t') <- object_loop fuel' t [] ;;
            Ok (JObj (Dict.of_pairs pystr_eqb (rev ps)), t')
          | None => Raise JSONDecodeError         (* expecting property name *)
          end
        end
      else if c =? LBRACKET then
        match expect RBRACKET (skip_ws rest) with
        | Some t => Ok (JArr [], t)
        | None =>
          ' (vs, t') <- array_loop fuel' (skip_ws rest) [] ;;
          Ok (JArr (rev vs), t')
        end
      else
        match match_literal s with
        | Some r => Ok r
        | None => Raise JSONDecodeError           (* expecting value *)
        end
    end
  end

with array_loop (fuel : nat) (s : pystr) (acc : list json) : result (list json * pystr) :=
  match fuel with
  | O => Raise RecursionError
  | S fuel' =>
    ' (v, t) <- scan_once fuel' s ;;
    match expect RBRACKET (skip_ws t) with
    | Some t' => Ok (v :: acc, t')
    | None =>
      match expect COMMA (skip_ws t) with
      | Some t' => array_loop fuel' (skip_ws t') (v :: acc)
      | None => Raise JSONDecodeError             (* expecting ',' delimiter *)
      end
    end
  end

with object_loop (fuel : nat) (s : pystr) (acc : list (pystr * json))
    : result (list (pystr * json) * pystr) :=
  match fuel with
  | O => Raise RecursionError
  | S fuel' =>
    ' (key, t) <- scanstring s [] ;;
    match expect COLON (skip_ws t) with
    | None => Raise JSONDecodeError               (* expecting ':' delimiter *)
    | Some t1 =>
      ' (v, t2) <- scan_once fuel' (skip_ws t1) ;;
      match expect RBRACE (skip_ws t2) with
      | Some t3 => Ok ((key, v) :: acc, t3)
      | None =>
        match expect COMMA (skip_ws t2) with
        | None => Raise JSONDecodeError           (* expecting ',' delimiter *)
        | Some t3 =>
          match expect QUOTE (skip_ws t3) with
          | Some t4 => object_loop fuel' t4 ((key, v) :: acc)
          | None => Raise JSONDecodeError         (* expecting property name *)
          end
        end
      end
    end
  end.

(** [json.loads(s)]: one value, surrounded by optional whitespace, and
    nothing else. *)
Definition loads (s : pystr) : result json :=
  ' (v, t) <- scan_once (2 * length s + 2) (skip_ws s) ;;
  match skip_ws t with
  | [] => Ok v
  | _ => Raise JSONDecodeError                    (* extra data *)
  end.

(** A scan of [s] that ends either with a strictly shorter remaining text
    or with a JSONDecodeError. *)
Definition consumes {A : Type} (s : pystr) (r : result (A * pystr)) : Prop :=
  match r with
  | Ok (_, t) => (length t < length s)%nat
  | Raise e => e = JSONDecodeError
  end.


(** ** [json.dumps]

    The encoder, with [ensure_ascii=False] and the default separators:
    only the quote, the backslash and the control characters are escaped. *)

Definition hex_digit (n : N) : char := if n <? 10 then 48 + n else 87 + n.

(** The replacement table ESCAPE_DCT of the encoder. *)
Definition escape_char (c : char) : pystr :=
  if c =? 34 then [92; 34]
  else if c =? 92 then [92; 92]
  else if c =? 10 then [92; 110]
  else if c =? 13 then [92; 114]
  else if c =? 9 then [92; 116]
  else if c =? 8 then [92; 98]
  else if c =? 12 then [92; 102]
  else if c <? 32 then [92; 117; 48; 48; hex_digit (c / 16); hex_digit (c mod 16)]
  else [c].

Definition dumps_str (s : pystr) : pystr :=
  QUOTE :: flat_map escape_char s ++ [QUOTE].

Fixpoint digits_of_uint (u : Decimal.uint) : pystr :=
  match u with
  | Decimal.Nil => []
  | Decimal.D0 u => 48 :: digits_of_uint u
  | Decimal.D1 u => 49 :: digits_of_uint u
  | Decimal.D2 u => 50 :: digits_of_uint u
  | Decimal.D3 u => 51 :: digits_of_uint u
  | Decimal.D4 u => 52 :: digits_of_uint u
  | Decimal.D5 u => 53 :: digits_of_uint u
  | Decimal.D6 u => 54 :: digits_of_uint u
  | Decimal.D7 u => 55 :: digits_of_uint u
  | Decimal.D8 u => 56 :: digits_of_uint u
  | Decimal.D9 u => 57 :: digits_of_uint u
  end.

(** [str(z)] *)
Definition dumps_int (z : Z) : pystr :=
  match z with
  | Z0 => [48]
  | Zpos p => digits_of_uint (Pos.to_uint p)
  | Zneg p => 45 :: digits_of_uint (Pos.to_uint p)
  end.

(** [sep.join(parts)] *)
Fixpoint join (sep : pystr) (parts : list pystr) : pystr :=
  match parts with
  | [] => []
  | [p] => p
  | p :: ps => p ++ sep ++ join sep ps
  end.

Definition ITEM_SEPARATOR : pystr := [44; 32].
Definition KEY_SEPARATOR : pystr := [58; 32].

Fixpoint dumps (v : json) : pystr :=
  match v with
  | JNull => str "null"
  | JBool true => str "true"
  | JBool false => str "false"
  | JInt z => dumps_int z
  | JFloat lit => lit
  | JStr s => dumps_str s
  | JArr items => LBRACKET :: join ITEM_SEPARATOR (map dumps items) ++ [RBRACKET]
  | JObj members =>
    LBRACE :: join ITEM_SEPARATOR
                (map (fun kv => dumps_str (fst kv) ++ KEY_SEPARATOR ++ dumps (snd kv))
                     members)
    ++ [RBRACE]
  end.

End Json.

(* ================================================================= *)
(** ** [extract_json] *)

Definition FENCE : pystr := str "```".
Definition FENCE_JSON : pystr := str "```json".

(** Lines 66-71: trim, and when the text starts with a fence remove the
    opening fence (tagged or not) and the closing fence, then trim again. *)
Definition strip_fences (text : pystr) : pystr :=
  let text := strip text in
  if startswith FENCE text then
    let text := re_sub_prefix FENCE_JSON text in
    let text := re_sub_prefix FENCE text in
    let text := re_sub_fence_end text in
    strip text
  else text.

(** The loop of lines 77-84 over [rest = text[i:]]: the index at which the
    depth returns to zero, if it does. *)
Fixpoint scan_brackets (rest : pystr) (i : nat) (depth : Z) : option nat :=
  match rest with
  | [] => None
  | c :: r =>
    if c =? LBRACKET then scan_brackets r (S i) (depth + 1)
    else if c =? RBRACKET then
      if (depth - 1 =? 0)%Z then Some i
      else scan_brackets r (S i) (depth - 1)
    else scan_brackets r (S i) depth
  end.

Definition extract_json (text : pystr) : result json :=
  let text := strip_fences text in
  match find LBRACKET text with
  | None => Raise ValueError_no_array_start
  | Some first_bracket =>
    match scan_brackets (skipn first_bracket text) first_bracket 0 with
    | Some i => Json.loads (slice text first_bracket (i + 1))
    | None => Raise ValueError_incomplete_array
    end
  end.

(* ================================================================= *)
(** ** The label filter *)

(** The code points [str.isdigit] accepts: Unicode Numeric_Type Decimal
    ([true], also accepted by [str.isdecimal]) and Numeric_Type Digit
    ([false]: superscripts, circled digits and the like).  Unicode 14.0. *)
Definition DIGIT_RANGES : list (N * N * bool) :=
  [ (48, 57, true); (178, 179, false); (185, 185, false); (1632, 1641, true);
    (1776, 1785, true); (1984, 1993, true); (2406, 2415, true);
    (2534, 2543, true); (2662, 2671, true); (2790, 2799, true);
    (2918, 2927, true); (3046, 3055, true); (3174, 3183, true);
    (3302, 3311, true); (3430, 3439, true); (3558, 3567, true);
    (3664, 3673, true); (3792, 3801, true); (3872, 3881, true);
    (4160, 4169, true); (4240, 4249, true); (4969, 4977, false);
    (6112, 6121, true); (6160, 6169, true); (6470, 6479, true);
    (6608, 6617, true); (6618, 6618, false); (6784, 6793, true);
    (6800, 6809, true); (6992, 7001, true); (7088, 7097, true);
    (7232, 7241, true); (7248, 7257, true); (8304, 8304, false);
    (8308, 8313, false); (8320, 8329, false); (9312, 9320, false);
    (9332, 9340, false); (9352, 9360, false); (9450, 9450, false);
    (9461, 9469, false); (9471, 9471, false); (10102, 10110, false);
    (10112, 10120, false); (10122, 10130, false); (42528, 42537, true);
    (43216, 43225, true); (43264, 43273, true); (43472, 43481, true);
    (43504, 43513, true); (43600, 43609, true); (44016, 44025, true);
    (65296, 65305, true); (66720, 66729, true); (68160, 68163, false);
    (68912, 68921, true); (69216, 69224, false); (69714, 69722, false);
    (69734, 69743, true); (69872, 69881, true); (69942, 69951, true);
    (70096, 70105, true); (70384, 70393, true); (70736, 70745, true);
    (70864, 70873, true); (71248, 71257, true); (71360, 71369, true);
    (71472, 71481, true); (71904, 71913, true); (72016, 72025, true);
    (72784, 72793, true); (73040, 73049, true); (73120, 73129, true);
    (92768, 92777, true); (92864, 92873, true); (93008, 93017, true);
    (120782, 120831, true); (123200, 123209, true); (123632, 123641, true);
    (125264, 125273, true); (127232, 127242, false); (130032, 130041, true) ].

Definition char_isdigit (c : char) : bool :=
  existsb (fun r => in_range c (fst r)) DIGIT_RANGES.

Definition char_isdecimal (c : char) : bool :=
  existsb (fun r => in_range c (fst r) && snd r) DIGIT_RANGES.

(** [s.isdigit()]: every character is a digit and there is at least one. *)
Definition isdigit (s : pystr) : bool :=
  match s with
  | [] => false
  | _ => forallb char_isdigit s
  end.

Definition is_pure_digit (s : pystr) : bool := isdigit s.

(** The character class of line 95, U+4E00 to U+9FFF. *)
Definition char_is_cjk (c : char) : bool := (0x4e00 <=? c) && (c <=? 0x9fff).

(** [bool(re.fullmatch(r"[\u4e00-\u9fff]+", s))] *)
Definition is_pure_chinese (s : pystr) : bool :=
  match s with
  | [] => false
  | _ => forallb char_is_cjk s
  end.

(** [should_skip(device)]; [None] is an absent label. *)
Definition should_skip (device : option pystr) : bool :=
  match device with
  | None => true
  | Some [] => true
  | Some d =>
    if (length d <=? 4)%nat then true
    else if is_pure_digit d then true
    else if is_pure_chinese d then true
    else false
  end.

(* ================================================================= *)
(** ** Python operations on parsed values *)

Definition ODM : pystr := str "origin_device_model".

(** [v[k]] for a string key. *)
Definition getitem_str (v : json) (k : pystr) : result json :=
  match v with
  | JObj d =>
    match rget k d with
    | Some x => Ok x
    | None => Raise KeyError
    end
  | _ => Raise TypeError
  end.

(** [v[0]] *)
Definition getitem_0 (v : json) : result json :=
  match v with
  | JArr (x :: _) => Ok x
  | JArr [] => Raise IndexError
  | JStr (c :: _) => Ok (JStr [c])
  | JStr [] => Raise IndexError
  | JObj _ => Raise KeyError
  | _ => Raise TypeError
  end.

(** [v.get(k)]: only dicts have the method. *)
Definition py_get (v : json) (k : pystr) : result json :=
  match v with
  | JObj d => Ok (rget_or_none k d)
  | _ => Raise AttributeError
  end.

(** Iterating a value, as [list.extend] does: a list yields its items,
    a string its characters, a dict its keys. *)
Definition py_iter (v : json) : result (list json) :=
  match v with
  | JArr l => Ok l
  | JStr s => Ok (map (fun c => JStr [c]) s)
  | JObj d => Ok (map (fun kv => JStr (fst kv)) d)
  | _ => Raise TypeError
  end.

(** Lists and dicts cannot be dict keys. *)
Definition hashable (v : json) : bool :=
  match v with
  | JArr _ | JObj _ => false
  | _ => true
  end.

(** Equality of dict keys.  [True == 1] and [False == 0] in Python.  The
    numeric value of a float literal is not modelled: a float key is
    compared by its literal. *)
Definition key_eqb (a b : json) : bool :=
  match a, b with
  | JNull, JNull => true
  | JBool x, JBool y => Bool.eqb x y
  | JBool x, JInt z | JInt z, JBool x => (z =? (if x then 1 else 0))%Z
  | JInt x, JInt y => (x =? y)%Z
  | JFloat x, JFloat y => pystr_eqb x y
  | JStr x, JStr y => pystr_eqb x y
  | _, _ => false
  end.

(** [p in s] for strings. *)
Fixpoint is_substring (p s : pystr) : bool :=
  startswith p s ||
  match s with
  | [] => false
  | _ :: r => is_substring p r
  end.

(** ["origin_device_model" in r] *)
Definition contains_odm (r : json) : result bool :=
  match r with
  | JObj d => Ok (Dict.mem pystr_eqb ODM d)
  | JArr l => Ok (existsb (key_eqb (JStr ODM)) l)
  | JStr s => Ok (is_substring ODM s)
  | _ => Raise TypeError
  end.

(* ================================================================= *)
(** ** Provider clients *)

Inductive provider : Type := DeepSeek | Gemini.

(** What [requests.post] hands back: status code and body text. *)
Record response : Type := { status_code : Z; text : pystr }.

(** [resp.raise_for_status()]: HTTPError on a 4xx or 5xx status. *)
Definition raise_for_status (resp : response) : result unit :=
  if ((400 <=? status_code resp) && (status_code resp <? 600))%Z
  then Raise (HTTPError (status_code resp))
  else Ok tt.

Section Clients.
(** The network: what the [k]-th call to a provider's endpoint answers,
    or the exception [requests.post] raises (connection error, timeout).
    The request body is determined by the provider's constants and by
    [device_models]. *)
Variable post : provider -> nat -> list pystr -> result response.

(** Lines 133-134 (and 157-158): the status check, then the text at
    [resp.json()["choices"][0]["message"]["content"]] goes to the
    extractor. *)
Definition read_response (resp : response) : result json :=
  _ <- raise_for_status resp ;;
  body <- Json.loads (text resp) ;;
  choices <- getitem_str body (str "choices") ;;
  first <- getitem_0 choices ;;
  message <- getitem_str first (str "message") ;;
  content <- getitem_str message (str "content") ;;
  match content with
  | JStr s => extract_json s
  | _ => Raise AttributeError                 (* no [strip] method *)
  end.

(** Lines 112-134 and 139-158: the two clients differ in their
    constants only. *)
Definition call_provider (p : provider) (k : nat) (device_models : list pystr)
  : result json :=
  resp <- post p k device_models ;;
  read_response resp.

Definition call_deepseek := call_provider DeepSeek.
Definition call_gemini := call_provider Gemini.

(** Lines 163-176: every exception becomes the empty list. *)
Definition call_deepseek_safe (k : nat) (dev : pystr) : json :=
  match call_deepseek k [dev] with
  | Ok v => v
  | Raise _ => JArr []
  end.

Definition call_gemini_safe (k : nat) (dev : pystr) : json :=
  match call_gemini k [dev] with
  | Ok v => v
  | Raise _ => JArr []
  end.

Definition call_safe (p : provider) : nat -> pystr -> json :=
  match p with
  | DeepSeek => call_deepseek_safe
  | Gemini => call_gemini_safe
  end.
End Clients.

(* ================================================================= *)
(** ** The batch loop *)

Definition BATCH_SIZE : nat := 5.

(** [range(start, stop, step)] for a positive step. *)
Fixpoint range_fuel (fuel start stop step : nat) : list nat :=
  match fuel with
  | O => []
  | S fuel' =>
    if (start <? stop)%nat then start :: range_fuel fuel' (start + step) stop step
    else []
  end.

Definition range (start stop step : nat) : list nat :=
  range_fuel stop start stop step.

(** A line of the output file. *)
Inductive line : Type :=
| Header (fieldnames : list pystr)
| Row (cells : list json).

(** One provider call as dispatched: the provider and the labels sent. *)
Definition dispatch : Type := (provider * list pystr)%type.

(** The state [main] works on: the output file ([None]: it does not
    exist), the calls dispatched so far, and the two loop variables
    [writer] (its field names) and [file_exists]. *)
Record state : Type := {
  output : option (list line);
  calls : list dispatch;
  writer : option (list pystr);
  file_exists : bool
}.

Definition log_calls (cs : list dispatch) (st : state) : state :=
  {| output := output st; calls := calls st ++ cs;
     writer := writer st; file_exists := file_exists st |}.

Definition append_line (l : line) (st : state) : state :=
  {| output := Some (match output st with Some ls => ls | None => [] end ++ [l]);
     calls := calls st; writer := writer st; file_exists := file_exists st |}.

Definition set_writer (fs : list pystr) (st : state) : state :=
  {| output := output st; calls := calls st;
     writer := Some fs; file_exists := file_exists st |}.

Definition set_file_exists (st : state) : state :=
  {| output := output st; calls := calls st;
     writer := writer st; file_exists := true |}.

(** [open(OUTPUT_CSV, "a")]: the file is created when missing, and its
    content is kept. *)
Definition open_append (st : state) : state :=
  {| output := Some (match output st with Some ls => ls | None => [] end);
     calls := calls st; writer := writer st; file_exists := file_exists st |}.

(** [results.extend(future.result())] for each future in turn. *)
Fixpoint extend_all (acc : list json) (rs : list json) : result (list json) :=
  match rs with
  | [] => Ok acc
  | r :: rs' => items <- py_iter r ;; extend_all (acc ++ items) rs'
  end.

(** Lines 217-221: the dict comprehension building [gm_map]. *)
Fixpoint build_gm_map (rs : list json) (m : list (json * json))
    : result (list (json * json)) :=
  match rs with
  | [] => Ok m
  | r :: rs' =>
    has <- contains_odm r ;;
    if has : bool then
      k <- getitem_str r ODM ;;
      if hashable k then build_gm_map rs' (Dict.set key_eqb k r m)
      else Raise TypeError
    else build_gm_map rs' m
  end.

(** Lines 224-232: the six assignments on one DeepSeek row. *)
Definition merge_row (gm_map : list (json * json)) (row : json) : result record :=
  match row with
  | JObj d =>
    let odm := rget_or_none ODM d in
    if hashable odm then
      let gm := match Dict.get key_eqb odm gm_map with
                | Some g => g
                | None => JObj []
                end in
      v1 <- py_get gm (str "mapped_brand") ;;
      let d := rset (str "gemini_mapped_brand") v1 d in
      v2 <- py_get gm (str "mapped_device_model") ;;
      let d := rset (str "gemini_mapped_device_model") v2 d in
      v3 <- py_get gm (str "cpu_name") ;;
      let d := rset (str "gemini_cpu_name") v3 d in
      v4 <- py_get gm (str "cpu_core") ;;
      let d := rset (str "gemini_cpu_core") v4 d in
      v5 <- py_get gm (str "ram") ;;
      let d := rset (str "gemini_ram") v5 d in
      v6 <- py_get gm (str "refresh_rate") ;;
      Ok (rset (str "gemini_refresh_rate") v6 d)
    else Raise TypeError
  | _ => Raise AttributeError                   (* no [get] method *)
  end.

(** [csv.DictWriter.writerow]: a key outside the field names is an
    error; a missing one is written as the empty string. *)
Definition writerow (fieldnames : list pystr) (row : record) : result (list json) :=
  if forallb (fun k => existsb (pystr_eqb k) fieldnames) (Dict.keys row)
  then Ok (map (fun k => match rget k row with
                         | Some v => v
                         | None => JStr []
                         end) fieldnames)
  else Raise ValueError_extra_fields.

(** Lines 223-242: the loop over [ds_results].  An exception leaves the
    file as written so far. *)
Fixpoint write_rows (gm_map : list (json * json)) (rows : list json) (st : state)
    : state * result unit :=
  match rows with
  | [] => (st, Ok tt)
  | row :: rest =>
    match merge_row gm_map row with
    | Raise e => (st, Raise e)
    | Ok merged =>
      let st1 :=
        match writer st with
        | Some _ => st
        | None =>
          let st' := set_writer (Dict.keys merged) st in
          if file_exists st' then st'
          else set_file_exists (append_line (Header (Dict.keys merged)) st')
        end in
      match writerow (match writer st1 with Some fs => fs | None => [] end) merged with
      | Raise e => (st1, Raise e)
      | Ok cells => write_rows gm_map rest (append_line (Row cells) st1)
      end
    end
  end.

(** A row as [csv.DictReader] yields it: header names to cells.  A cell
    is [None] when the line is shorter than the header; the key is [None]
    for the entry that collects the surplus cells of a longer line. *)
Definition csv_row : Type := list (option pystr * option pystr).

(** What a run of [main] meets. *)
Record world : Type := {
  (** the rows of INPUT_CSV, or the exception [open] raises *)
  input_csv : result (list csv_row);
  (** OUTPUT_CSV at startup; [None] when it does not exist *)
  output_csv : option (list line);
  (** the answers of the two endpoints *)
  post : provider -> nat -> list pystr -> result response;
  (** the order in which the futures of one provider and one batch
      complete, as [as_completed] yields them *)
  arrival : provider -> nat -> list json -> list json
}.

(** Line 89: [k.strip().strip(quote)] for every key. *)
Definition clean_key (k : pystr) : pystr := strip_char QUOTE (strip k).

Fixpoint clean_row_keys (row : csv_row) (acc : list (pystr * option pystr))
    : result (list (pystr * option pystr)) :=
  match row with
  | [] => Ok acc
  | (None, _) :: _ => Raise AttributeError      (* None has no [strip] *)
  | (Some k, v) :: r => clean_row_keys r (Dict.set pystr_eqb (clean_key k) v acc)
  end.

(** Lines 187-192: the labels that pass the filter, in input order. *)
Fixpoint read_devices (rows : list csv_row) (devices : list pystr)
    : result (list pystr) :=
  match rows with
  | [] => Ok devices
  | row :: rest =>
    r <- clean_row_keys row [] ;;
    match Dict.get pystr_eqb ODM r with
    | Some (Some d) =>
      match d with
      | [] => read_devices rest devices
      | _ =>
        if should_skip (Some d) then read_devices rest devices
        else read_devices rest (devices ++ [d])
      end
    | _ => read_devices rest devices
    end
  end.

(** Lines 206-209 (and 212-215): one call per label of the batch, the
    [j]-th label of the batch being label [i + j] of the run; then the
    results are collected in completion order. *)
Definition submit_all (w : world) (p : provider) (i : nat) (batch : list pystr)
    : list json :=
  map (fun kd => call_safe (post w) p (fst kd) (snd kd))
      (combine (seq i (length batch)) batch).

Definition collect (w : world) (p : provider) (i : nat) (batch : list pystr)
    : result (list json) :=
  extend_all [] (arrival w p i (submit_all w p i batch)).

Definition dispatches (p : provider) (batch : list pystr) : list dispatch :=
  map (fun dev => (p, [dev])) batch.

(** Lines 200-242: one iteration of the batch loop.  (The pause of line
    244 has no effect on the state.) *)
Definition process_batch (w : world) (devices : list pystr) (i : nat) (st : state)
    : state * result unit :=
  let batch := slice devices i (i + BATCH_SIZE) in
  let st := log_calls (dispatches DeepSeek batch) st in
  match collect w DeepSeek i batch with
  | Raise e => (st, Raise e)
  | Ok ds_results =>
    let st := log_calls (dispatches Gemini batch) st in
    match collect w Gemini i batch with
    | Raise e => (st, Raise e)
    | Ok gm_results =>
      match build_gm_map gm_results [] with
      | Raise e => (st, Raise e)
      | Ok gm_map => write_rows gm_map ds_results st
      end
    end
  end.

Fixpoint batch_loop (w : world) (devices : list pystr) (starts : list nat) (st : state)
    : state * result unit :=
  match starts with
  | [] => (st, Ok tt)
  | i :: rest =>
    match process_batch w devices i st with
    | (st', Ok _) => batch_loop w devices rest st'
    | (st', Raise e) => (st', Raise e)
    end
  end.

(** Lines 181-244. *)
Definition main (w : world) : state * result unit :=
  let st := {| output := output_csv w; calls := []; writer := None;
               file_exists := match output_csv w with
                              | Some _ => true
                              | None => false
                              end |} in
  match input_csv w with
  | Raise e => (st, Raise e)
  | Ok rows =>
    match read_devices rows [] with
    | Raise e => (st, Raise e)
    | Ok devices =>
      batch_loop w devices (range 0 (length devices) BATCH_SIZE) (open_append st)
    end
  end.

(** The batches of a run, as the loop header and line 200 cut them. *)
Definition batches (devices : list pystr) : list (list pystr) :=
  map (fun i => slice devices i (i + BATCH_SIZE))
      (range 0 (length devices) BATCH_SIZE).

(** The rows a run appended to the output file. *)
Definition is_row (l : line) : bool :=
  match l with
  | Row _ => true
  | Header _ => false
  end.

Definition lines_of (o : option (list line)) : list line :=
  match o with
  | Some ls => ls
  | None => []
  end.

Definition written (w : world) : list line :=
  skipn (length (lines_of (output_csv w))) (lines_of (output (fst (main w)))).

(* ================================================================= *)
(** ** The claims in the specification's words *)

(** The four drop conditions of the label filter as the specification
    lists them: absent or empty, at most four characters, only decimal
    digits, only CJK Unified Ideographs.  Decimal digits are read in the
    widest sense, the Unicode decimal digits of every script. *)
Definition drop_conditions (device : option pystr) : Prop :=
  match device with
  | None => True
  | Some d =>
    d = [] \/ (length d <= 4)%nat
    \/ Forall (fun c => char_isdecimal c = true) d
    \/ Forall (fun c => char_is_cjk c = true) d
  end.

(** The same with the digit condition as the code tests it: every
    character has the Unicode digit property, Numeric_Type Decimal or
    Digit. *)
Definition drop_conditions_isdigit (device : option pystr) : Prop :=
  match device with
  | None => True
  | Some d =>
    d = [] \/ (length d <= 4)%nat
    \/ Forall (fun c => char_isdigit c = true) d
    \/ Forall (fun c => char_is_cjk c = true) d
  end.

(** The label of the specification's CJK example, and a label of five
    superscript twos. *)
Definition CJK_LABEL : pystr := [0x4e2d; 0x6587; 0x8bbe; 0x5907; 0x540d].
Definition SUPERSCRIPT_TWOS : pystr := [0xb2; 0xb2; 0xb2; 0xb2; 0xb2].

(** Nesting depth of a piece of text: opening minus closing brackets. *)
Fixpoint bracket_depth (s : pystr) : Z :=
  match s with
  | [] => 0
  | c :: r =>
    let step := if c =? LBRACKET then 1%Z
                else if c =? RBRACKET then (-1)%Z else 0%Z in
    (step + bracket_depth r)%Z
  end.

(** The depth, counted from the first opening bracket, never returns to
    zero before the end of the text. *)
Definition never_closes (text : pystr) : Prop :=
  exists pre post,
    text = pre ++ LBRACKET :: post /\ ~ In LBRACKET pre /\
    forall k, (k <= length post)%nat ->
      bracket_depth (LBRACKET :: firstn k post) <> 0%Z.

(** The bracket characters of a text, in order. *)
Definition is_bracket (c : char) : bool := (c =? LBRACKET) || (c =? RBRACKET).
Definition brackets (s : pystr) : pystr := filter is_bracket s.

(** The labels a run works on: those read from the input file. *)
Definition labels_of (w : world) : list pystr :=
  match input_csv w with
  | Ok rows =>
    match read_devices rows [] with
    | Ok devices => devices
    | Raise _ => []
    end
  | Raise _ => []
  end.

Definition provider_eqb (p q : provider) : bool :=
  match p, q with
  | DeepSeek, DeepSeek | Gemini, Gemini => true
  | _, _ => false
  end.

(** The labels sent to one provider, call after call. *)
Definition labels_in (p : provider) (cs : list dispatch) : list pystr :=
  concat (map snd (filter (fun c => provider_eqb (fst c) p) cs)).

Definition labels_sent (p : provider) (st : state) : list pystr :=
  labels_in p (calls st).

(** Every future is yielded once by [as_completed]: the completion order
    is a permutation of the submission order. *)
Definition fair_arrival (w : world) : Prop :=
  forall p i l, Permutation (arrival w p i l) l.

(** The record lists of the calls of one provider for one batch that
    returned, in submission order. *)
Definition successes (w : world) (p : provider) (i : nat) (batch : list pystr)
    : list (list json) :=
  flat_map (fun kd => match call_provider (post w) p (fst kd) [snd kd] with
                      | Ok (JArr l) => [l]
                      | _ => []
                      end)
           (combine (seq i (length batch)) batch).

(** A response whose content is the empty array. *)
Definition EMPTY_ANSWER : response :=
  {| status_code := 200;
     text := dq "{'choices': [{'message': {'content': '[]'}}]}" |}.

(** The world in which every call that fails in [w] is answered with the
    empty array instead. *)
Definition absorb_failures (w : world) : world :=
  {| input_csv := input_csv w;
     output_csv := output_csv w;
     post := fun p k device_models =>
               match call_provider (post w) p k device_models with
               | Ok _ => post w p k device_models
               | Raise _ => Ok EMPTY_ANSWER
               end;
     arrival := arrival w |}.

Definition is_nil {A} (l : list A) : bool :=
  match l with
  | [] => true
  | _ => false
  end.


(** ** A sample run

    Seven labels; DeepSeek times out on the third and answers the others,
    Gemini answers the labels at even positions and returns status 500 for
    the others; the futures of a batch complete in reverse order. *)

Definition answer (content : pystr) : response :=
  {| status_code := 200;
     text := dq "{'choices': [{'message': {'content': "
             ++ Json.dumps_str content ++ str "}}]}" |}.

Definition one_record (label brand : pystr) : json :=
  JArr [JObj [(ODM, JStr label); (str "mapped_brand", JStr brand);
              (str "cpu_core", JInt 8)]].

Definition SAMPLE_LABELS : list pystr :=
  [str "TAS-AN00"; str "SM-G9350"; str "M2012K11AC"; str "iPhone12,1";
   str "PCT-AL10"; str "V2055A"; str "LIO-AN00"].

Definition sample_post (p : provider) (k : nat) (device_models : list pystr)
    : result response :=
  match p with
  | DeepSeek =>
    if Nat.eqb k 2 then Raise Timeout
    else Ok (answer (Json.dumps (one_record (concat device_models) (str "Huawei"))))
  | Gemini =>
    if Nat.even k
    then Ok (answer (Json.dumps (one_record (concat device_models) (str "HUAWEI"))))
    else Ok {| status_code := 500; text := [] |}
  end.

Definition sample_world : world :=
  {| input_csv := Ok (map (fun l => [(Some ODM, Some l)]) SAMPLE_LABELS);
     output_csv := None;
     post := sample_post;
     arrival := fun _ _ l => rev l |}.

(** ** What a run writes *)

(** The six columns added to a DeepSeek row. *)
Definition GEMINI_FIELDS : list pystr :=
  [str "gemini_mapped_brand"; str "gemini_mapped_device_model";
   str "gemini_cpu_name"; str "gemini_cpu_core"; str "gemini_ram";
   str "gemini_refresh_rate"].

(** [l] is the line written for the DeepSeek row [d] under the field
    names [fs]. *)
Definition row_of (fs : list pystr) (d : record) (l : line) : Prop :=
  exists gm_map merged cells,
    merge_row gm_map (JObj d) = Ok merged
    /\ writerow fs merged = Ok cells
    /\ l = Row cells.

(** The DeepSeek results of the batch starting at label [i], as
    collected. *)
Definition ds_results_of (w : world) (devices : list pystr) (i : nat) : list json :=
  match collect w DeepSeek i (slice devices i (i + BATCH_SIZE)) with
  | Ok l => l
  | Raise _ => []
  end.

(** All records DeepSeek, the primary provider, returns in a run, batch
    after batch. *)
Definition primary_records (w : world) : list json :=
  concat (map (ds_results_of w (labels_of w))
              (range 0 (length (labels_of w)) BATCH_SIZE)).

(** Between [st] and [st'] the rows [ds] were written, after a header
    when they are the first rows of the run and the file did not exist;
    the field names are then the keys of the first row as merged. *)
Definition appended (st st' : state) (ds : list record) : Prop :=
  exists new,
    lines_of (output st') = lines_of (output st) ++ new /\
    match writer st with
    | Some fs =>
      writer st' = Some fs /\ file_exists st' = file_exists st
      /\ Forall2 (row_of fs) ds new
    | None =>
      match ds with
      | [] => new = [] /\ writer st' = None /\ file_exists st' = file_exists st
      | d1st :: ds' =>
        exists gm_map merged cells rows,
          merge_row gm_map (JObj d1st) = Ok merged
          /\ writerow (Dict.keys merged) merged = Ok cells
          /\ writer st' = Some (Dict.keys merged)
          /\ file_exists st' = true
          /\ Forall2 (row_of (Dict.keys merged)) ds' rows
          /\ new = (if file_exists st then [] else [Header (Dict.keys merged)])
                   ++ Row cells :: rows
      end
    end.

Definition one_label (c : dispatch) : Prop := length (snd c) = 1%nat.

(** The calls of one batch when both collections complete. *)
Definition batch_dispatches (batch : list pystr) : list dispatch :=
  dispatches DeepSeek batch ++ dispatches Gemini batch.

(** ** The reconciler *)

(** Lines 217-232 for one DeepSeek row: build the map from the Gemini
    results, then merge. *)
Definition reconcile (gm_results : list json) (row : json) : result record :=
  gm_map <- build_gm_map gm_results [] ;;
  merge_row gm_map row.

Definition SECONDARY_FIELDS : list pystr :=
  [str "mapped_brand"; str "mapped_device_model"; str "cpu_name";
   str "cpu_core"; str "ram"; str "refresh_rate"].

(** [r] is a record whose origin_device_model is the string [label]. *)
Definition has_label (label : pystr) (r : json) : bool :=
  match r with
  | JObj d =>
    match rget ODM d with
    | Some (JStr l) => pystr_eqb l label
    | _ => false
    end
  | _ => false
  end.

(** The last record for [label] in a result list. *)
Definition last_secondary (label : pystr) (rs : list json) : option json :=
  List.find (has_label label) (rev rs).

(** The value a secondary-qualified field takes: the field of the last
    secondary record for the label, null when the record or the field is
    missing. *)
Definition secondary_value (label : pystr) (rs : list json) (field : pystr) : json :=
  match last_secondary label rs with
  | Some (JObj d) => rget_or_none field d
  | _ => JNull
  end.

(** A secondary result the map can be built from: a dict whose
    origin_device_model, when present, is not a list or a dict. *)
Definition secondary_record (r : json) : Prop :=
  exists d, r = JObj d /\ hashable (rget_or_none ODM d) = true.

Definition SAMPLE_PRIMARY : record :=
  [(ODM, JStr (str "TAS-AN00")); (str "mapped_brand", JStr (str "Huawei"));
   (str "mapped_device_model", JStr (str "Mate 30")); (str "cpu_name", JNull);
   (str "cpu_core", JInt 8); (str "ram", JStr (str "8 GB"));
   (str "refresh_rate", JStr (str "60 Hz"))].

Definition SAMPLE_SECONDARY : list json :=
  [JObj [(ODM, JStr (str "TAS-AN00")); (str "mapped_brand", JStr (str "Honor"))];
   JObj [(ODM, JStr (str "SM-G9350")); (str "mapped_brand", JStr (str "Samsung"))];
   JObj [(ODM, JStr (str "TAS-AN00")); (str "mapped_brand", JStr (str "HUAWEI"));
         (str "cpu_core", JInt 8)]].

(** ** The input file *)

(** No column of the input file is named origin_device_model, once the
    header names are cleaned. *)
Definition missing_column (rows : list csv_row) : Prop :=
  forall row k v, In row rows -> In (Some k, v) row -> clean_key k <> ODM.

(** No line of the input file has more cells than the header. *)
Definition regular_rows (rows : list csv_row) : Prop :=
  forall row v, In row rows -> ~ In (None, v) row.

(** An input file with the single column [device]. *)
Definition NO_COLUMN_WORLD : world :=
  {| input_csv := Ok [[(Some (str "device"), Some (str "TAS-AN00"))];
                      [(Some (str "device"), Some (str "SM-G9350"))]];
     output_csv := None;
     post := sample_post;
     arrival := fun _ _ l => l |}.

Definition UNREADABLE_WORLD : world :=
  {| input_csv := Raise OSError;
     output_csv := Some [Header [ODM]];
     post := sample_post;
     arrival := fun _ _ l => l |}.

(** ** The output file *)

(** A DeepSeek row that does not already hold one of the six added keys. *)
Definition no_qualified_keys (d : record) : Prop :=
  forall k, In k GEMINI_FIELDS -> rget k d = None.

(** The cell of a written row in the column named [k]. *)
Definition column (fs : list pystr) (cells : list json) (k : pystr) : option json :=
  Dict.get pystr_eqb k (combine fs cells).

Definition is_data_row (fs : list pystr) (l : line) : Prop :=
  exists cells, l = Row cells /\ length cells = length fs.

(** The output file exists and is empty; DeepSeek answers the one label. *)
Definition EMPTY_FILE_WORLD : world :=
  {| input_csv := Ok [[(Some ODM, Some (str "TAS-AN00"))]];
     output_csv := Some [];
     post := sample_post;
     arrival := fun _ _ l => l |}.

(** The output file does not exist and no call returns a record. *)
Definition NO_ANSWER_WORLD : world :=
  {| input_csv := Ok [[(Some ODM, Some (str "TAS-AN00"))]];
     output_csv := None;
     post := fun _ _ _ => Raise Timeout;
     arrival := fun _ _ l => l |}.

(** The header claim as the specification words it: a header is written
    exactly when the output file did not already exist with content. *)
Definition header_iff_no_content (w : world) : Prop :=
  (exists fs, In (Header fs) (written w))
  <-> ~ (exists ls, output_csv w = Some ls /\ ls <> []).

(** ** Rows and primary records *)

(** The records DeepSeek returned in a run: those of the calls that
    returned, call after call in submission order, batch after batch. *)
Definition primary_returned (w : world) : list json :=
  concat (map (fun i => concat (successes w DeepSeek i
                                  (slice (labels_of w) i (i + BATCH_SIZE))))
              (range 0 (length (labels_of w)) BATCH_SIZE)).

(** The rows, headers apart, a run wrote. *)
Definition data_rows (w : world) : list line := filter is_row (written w).

Definition pystr_eq_dec : forall a b : pystr, {a = b} + {a <> b} :=
  list_eq_dec N.eq_dec.

(** The distinct labels for which DeepSeek returned at least one record. *)
Definition answered_labels (w : world) : list pystr :=
  nodup pystr_eq_dec
    (flat_map (fun kd => match call_provider (post w) DeepSeek (fst kd) [snd kd] with
                         | Ok (JArr (_ :: _)) => [snd kd]
                         | _ => []
                         end)
              (combine (seq 0 (length (labels_of w))) (labels_of w))).

(** The input file lists the same label twice. *)
Definition DUPLICATE_WORLD : world :=
  {| input_csv := Ok [[(Some ODM, Some (str "TAS-AN00"))];
                      [(Some ODM, Some (str "TAS-AN00"))]];
     output_csv := None;
     post := sample_post;
     arrival := fun _ _ l => l |}.

(** ** Round trip through the extractor *)

(** A well-formed record, as the prompt asks for it. *)
Record InferenceRecord : Type := {
  origin_device_model : pystr;
  mapped_brand : option pystr;
  mapped_device_model : option pystr;
  cpu_name : option pystr;
  cpu_core : option Z;
  ram : option pystr;
  refresh_rate : option pystr
}.

Definition opt_str (o : option pystr) : json :=
  match o with
  | Some s => JStr s
  | None => JNull
  end.

Definition opt_int (o : option Z) : json :=
  match o with
  | Some z => JInt z
  | None => JNull
  end.

(** The record as a JSON object. *)
Definition to_json (r : InferenceRecord) : json :=
  JObj [(ODM, JStr (origin_device_model r));
        (str "mapped_brand", opt_str (mapped_brand r));
        (str "mapped_device_model", opt_str (mapped_device_model r));
        (str "cpu_name", opt_str (cpu_name r));
        (str "cpu_core", opt_int (cpu_core r));
        (str "ram", opt_str (ram r));
        (str "refresh_rate", opt_str (refresh_rate r))].

(** The array of records, serialized. *)
Definition encode (rs : list InferenceRecord) : pystr :=
  Json.dumps (JArr (map to_json rs)).

Definition FENCE_OPEN : pystr := str "```json" ++ [NEWLINE].
Definition FENCE_CLOSE : pystr := NEWLINE :: str "```".

(** The serialized array in a fenced block, between a prefix and a
    suffix. *)
Definition wrap (prefix suffix body : pystr) : pystr :=
  prefix ++ FENCE_OPEN ++ body ++ FENCE_CLOSE ++ suffix.

(** The brackets of a text are balanced from depth [d]: reading on, every
    closing bracket closes a bracket that is open, and none is left open
    at the end. *)
Fixpoint balanced_from (d : Z) (s : pystr) : bool :=
  match s with
  | [] => (d =? 0)%Z
  | c :: r =>
    if c =? LBRACKET then balanced_from (d + 1) r
    else if c =? RBRACKET then (1 <=? d)%Z && balanced_from (d - 1) r
    else balanced_from d r
  end.

Definition balanced (s : pystr) : Prop := balanced_from 0 s = true.

Definition opt_balanced (o : option pystr) : Prop :=
  match o with
  | Some s => balanced s
  | None => True
  end.

(** The brackets inside each string of the record are balanced: no
    string holds a bracket without its partner. *)
Definition record_balanced (r : InferenceRecord) : Prop :=
  balanced (origin_device_model r)
  /\ opt_balanced (mapped_brand r)
  /\ opt_balanced (mapped_device_model r)
  /\ opt_balanced (cpu_name r)
  /\ opt_balanced (ram r)
  /\ opt_balanced (refresh_rate r).

Definition MATE30 : InferenceRecord :=
  {| origin_device_model := str "TAS-AN00";
     mapped_brand := Some (str "Huawei");
     mapped_device_model := Some (str "Mate 30");
     cpu_name := Some (str "Kirin 990");
     cpu_core := Some 8%Z;
     ram := Some (str "8 GB");
     refresh_rate := Some (str "60 Hz") |}.

(** A record with balanced brackets in its strings. *)
Definition INDEXED_LABEL : InferenceRecord :=
  {| origin_device_model := str "iPad[7,11]";
     mapped_brand := Some (str "Apple");
     mapped_device_model := Some (str "iPad [7th generation]");
     cpu_name := None;
     cpu_core := Some 4%Z;
     ram := None;
     refresh_rate := None |}.

(** A record whose label holds an unmatched closing bracket. *)
Definition BRACKET_LABEL : InferenceRecord :=
  {| origin_device_model := str "SM-G9350]";
     mapped_brand := Some (str "Samsung");
     mapped_device_model := None;
     cpu_name := None;
     cpu_core := None;
     ram := None;
     refresh_rate := None |}.

(** A value made of one token: null, an integer or a string. *)
Definition scalar (v : json) : Prop :=
  match v with
  | JNull | JInt _ | JStr _ => True
  | _ => False
  end.

(** The text of the members of an object from the first key on, the
    opening quote of that key apart, up to the closing brace. *)
Fixpoint members_tail (kvs : list (pystr * json)) (rest : pystr) : pystr :=
  match kvs with
  | [] => rest
  | [(k, v)] =>
    flat_map Json.escape_char k ++ QUOTE :: Json.KEY_SEPARATOR
    ++ Json.dumps v ++ RBRACE :: rest
  | (k, v) :: kvs' =>
    flat_map Json.escape_char k ++ QUOTE :: Json.KEY_SEPARATOR
    ++ Json.dumps v ++ Json.ITEM_SEPARATOR ++ QUOTE :: members_tail kvs' rest
  end.

(** The text of an array around what its brackets enclose. *)
Definition array_text (inner : pystr) : pystr := LBRACKET :: inner ++ [RBRACKET].

(** The text holds [body], an array text, after a part without opening
    bracket. *)
Definition holds_array (body : pystr) (t : pystr) : Prop :=
  exists a b, t = a ++ body ++ b /\ ~ In LBRACKET a.

(** The text does not go on with a digit. *)
Definition no_digit_next (rest : pystr) : Prop :=
  match rest with
  | [] => True
  | c :: _ => Json.is_digit c = false
  end.


(** The text goes on with a comma or a closing brace, as after a member
    of an object. *)
Definition member_end (rest : pystr) : Prop :=
  exists c r, rest = c :: r /\ (c = COMMA \/ c = RBRACE).

(* ================================================================= *)
(** ** Further properties: definitions *)

(** Every character of the text is one [str.strip] removes. *)
Definition all_space (s : pystr) : Prop := Forall (fun c => py_isspace c = true) s.

(** [body] in a fenced block without a tag. *)
Definition fence_plain (body : pystr) : pystr :=
  FENCE ++ NEWLINE :: body ++ FENCE_CLOSE.

(** [body] in a fenced block tagged json. *)
Definition fence_json (body : pystr) : pystr :=
  FENCE_OPEN ++ body ++ FENCE_CLOSE.

(** A label the filter keeps. *)
Definition kept (d : pystr) : Prop :=
  should_skip (Some d) = false /\ (5 <= length d)%nat.

(** Every character of the text is a double quote. *)
Definition all_quotes (s : pystr) : Prop := Forall (fun c => c = QUOTE) s.

(** The cell found under the cleaned name [k] in a line whose columns
    are [cols]: the cell of the last column whose name cleans to [k]. *)
Definition last_column (k : pystr) (cols : list (pystr * option pystr))
    : option (option pystr) :=
  option_map snd (List.find (fun kv => pystr_eqb k (clean_key (fst kv))) (rev cols)).

(** A line of the input as [csv.DictReader] yields it when it has no more
    cells than the header. *)
Definition regular_row (cols : list (pystr * option pystr)) : csv_row :=
  map (fun kv => (Some (fst kv), snd kv)) cols.

(** Some line of the input has more cells than the header. *)
Definition overlong_row (rows : list csv_row) : Prop :=
  exists row v, In row rows /\ In (None, v) row.

(** The same input and the same answers, with another output file. *)
Definition with_output (o : option (list line)) (w : world) : world :=
  {| input_csv := input_csv w; output_csv := o; post := post w; arrival := arrival w |}.

(** A second run on the file the first run left, with the same input and
    the same answers. *)
Definition rerun (w : world) : world := with_output (output (fst (main w))) w.

(** The rows of the output file, headers apart. *)
Definition rows_of (st : state) : list line := filter is_row (lines_of (output st)).

(** Two states of runs that made the same calls and use the same field
    names. *)
Definition same_run (st1 st2 : state) : Prop :=
  calls st1 = calls st2 /\ writer st1 = writer st2.

(** Two runs started in [st1] and [st2] ended alike: with the same
    result, and having added the same rows. *)
Definition in_step (a1 a2 : state * result unit) (st1 st2 : state) : Prop :=
  snd a1 = snd a2
  /\ same_run (fst a1) (fst a2)
  /\ exists new, rows_of (fst a1) = rows_of st1 ++ new
                 /\ rows_of (fst a2) = rows_of st2 ++ new.

(** The output file exists. *)
Definition opened (st : state) : Prop := exists ls, output st = Some ls.

(** The cell of a written line in the origin_device_model column. *)
Definition odm_cell (fs : list pystr) (l : line) : option json :=
  match l with
  | Row cells => column fs cells ODM
  | Header _ => None
  end.

(** What is written in that column for a record: its label, or the
    empty string when the record has none. *)
Definition odm_written (r : json) : json :=
  match r with
  | JObj d =>
    match rget ODM d with
    | Some v => v
    | None => JStr []
    end
  | _ => JNull
  end.

(** At most one record of the list carries the label. *)
Definition one_answer (label : pystr) (rs : list json) : Prop :=
  forall x y, In x rs -> In y rs ->
    has_label label x = true -> has_label label y = true -> x = y.

(** The field names of the sample run. *)
Definition SAMPLE_FIELDS : list pystr :=
  [ODM; str "mapped_brand"; str "cpu_core"] ++ GEMINI_FIELDS.

(** A DeepSeek record that already carries one of the added keys. *)
Definition CROWDED_PRIMARY : record :=
  [(str "gemini_ram", JStr (str "4 GB")); (ODM, JStr (str "TAS-AN00"));
   (str "ram", JStr (str "8 GB"))].

(** A Gemini result the dict comprehension of lines 217-221 accepts: a
    dict whose label, if any, can be a key; a list that does not hold the
    key name; a string that does not contain it. *)
Definition usable_secondary (r : json) : bool :=
  match r with
  | JObj d => hashable (rget_or_none ODM d)
  | JArr l => negb (existsb (key_eqb (JStr ODM)) l)
  | JStr s => negb (is_substring ODM s)
  | _ => false
  end.

(** The second line of the input file has one cell more than the
    header. *)
Definition OVERLONG_WORLD : world :=
  {| input_csv := Ok [[(Some ODM, Some (str "TAS-AN00"))];
                      [(Some ODM, Some (str "SM-G9350")); (None, Some (str "extra"))]];
     output_csv := None;
     post := sample_post;
     arrival := fun _ _ l => l |}.

(* ================================================================= *)
(** * Properties *)

(** ** Checks of the decoder model *)

Example loads_nested :
  Json.loads (dq "[{'a':[1,2]}, -3, 'x\n\u00e9\ud83d\ude00', 1.5e3, null , true]")
  = Ok (JArr [JObj [(str "a", JArr [JInt 1; JInt 2])]; JInt (-3);
              JStr [120; 10; 233; 128512]; JFloat (str "1.5e3"); JNull; JBool true]).
Proof. vm_compute. reflexivity. Qed.

(** *** The decoder's fuel is enough *)

Lemma drop_prefix_length (p : pystr) :
  forall s t, drop_prefix p s = Some t -> length s = (length p + length t)%nat.
Proof.
  induction p as [|x p IH]; intros [|y s] t H; simpl in H; try discriminate.
  - now inversion H.
  - now inversion H.
  - destruct (x =? y); [|discriminate]. simpl. f_equal. now apply IH.
Qed.

Lemma expect_length (c : char) (s t : pystr) :
  Json.expect c s = Some t -> length s = S (length t).
Proof. intros H. apply drop_prefix_length in H. exact H. Qed.

Lemma skip_ws_length (s : pystr) : (length (Json.skip_ws s) <= length s)%nat.
Proof.
  induction s as [|c s IH]; simpl; [lia|].
  destruct (Json.is_ws c); simpl; lia.
Qed.

Lemma span_digits_length (s : pystr) :
  forall ds t, Json.span_digits s = (ds, t) -> (length t <= length s)%nat.
Proof.
  induction s as [|c s IH]; intros ds t H; simpl in H.
  - inversion H. simpl. lia.
  - destruct (Json.is_digit c).
    + destruct (Json.span_digits s) as [ds' t'] eqn:E. inversion H; subst.
      specialize (IH _ _ eq_refl). simpl. lia.
    + inversion H. lia.
Qed.

Lemma match_int_part_length (s ip t : pystr) :
  Json.match_int_part s = Some (ip, t) -> (length t < length s)%nat.
Proof.
  destruct s as [|c r]; simpl; [discriminate|].
  destruct (c =? 48).
  - intros H. inversion H. lia.
  - destruct (Json.is_digit c); [|discriminate].
    destruct (Json.span_digits r) as [ds t'] eqn:E. intros H. inversion H; subst.
    apply span_digits_length in E. lia.
Qed.

Lemma match_frac_length (s fr t : pystr) :
  Json.match_frac s = (fr, t) -> (length t <= length s)%nat.
Proof.
  destruct s as [|c r]; simpl.
  - intros H. inversion H. simpl. lia.
  - destruct (c =? 46).
    + destruct (Json.span_digits r) as [ds t'] eqn:E. apply span_digits_length in E.
      destruct ds; intros H; inversion H; subst; simpl; lia.
    + intros H. inversion H. simpl. lia.
Qed.

Lemma match_exp_length (s ex t : pystr) :
  Json.match_exp s = (ex, t) -> (length t <= length s)%nat.
Proof.
  destruct s as [|e r]; simpl.
  - intros H. inversion H. simpl. lia.
  - destruct ((e =? 101) || (e =? 69)); [|intros H; inversion H; simpl; lia].
    destruct r as [|sg r']; [intros H; inversion H; simpl; lia|].
    destruct ((sg =? 45) || (sg =? 43)).
    + destruct (Json.span_digits r') as [ds t'] eqn:E. apply span_digits_length in E.
      destruct ds; intros H; inversion H; subst; simpl; lia.
    + destruct (Json.span_digits (sg :: r')) as [ds t'] eqn:E.
      apply span_digits_length in E.
      destruct ds; intros H; inversion H; subst; simpl in *; lia.
Qed.

Lemma match_number_length (s : pystr) (v : json) (t : pystr) :
  Json.match_number s = Some (v, t) -> (length t < length s)%nat.
Proof.
  unfold Json.match_number.
  set (sb := match s with
             | c :: r => if c =? 45 then (true, r) else (false, s)
             | [] => (false, s)
             end).
  assert (Hb : (length (snd sb) <= length s)%nat).
  { subst sb. destruct s as [|c r]; [simpl; lia|].
    destruct (c =? 45); simpl; lia. }
  destruct sb as [neg body]. simpl in Hb.
  destruct (Json.match_int_part body) as [[ip t0]|] eqn:Ei; [|discriminate].
  apply match_int_part_length in Ei.
  destruct (Json.match_frac t0) as [fr t1] eqn:Ef. apply match_frac_length in Ef.
  destruct (Json.match_exp t1) as [ex t2] eqn:Ee. apply match_exp_length in Ee.
  destruct fr, ex; intros H; inversion H; subst; lia.
Qed.

Lemma match_literal_length (s : pystr) (v : json) (t : pystr) :
  Json.match_literal s = Some (v, t) -> (length t < length s)%nat.
Proof.
  unfold Json.match_literal.
  repeat match goal with
  | |- context [drop_prefix ?p s] =>
      let E := fresh "E" in
      destruct (drop_prefix p s) eqn:E;
      [apply drop_prefix_length in E; simpl in E; intros H; inversion H; subst; lia|]
  | |- context [Json.match_number s] =>
      let E := fresh "E" in
      destruct (Json.match_number s) as [[? ?]|] eqn:E;
      [apply match_number_length in E; intros H; inversion H; subst; exact E|]
  end.
  discriminate.
Qed.

Lemma scanstring_consumes (n : nat) :
  forall s acc, (length s <= n)%nat -> Json.consumes s (Json.scanstring s acc).
Proof.
  induction n as [|n IH]; intros s acc Hn.
  - destruct s; [reflexivity|simpl in Hn; lia].
  - destruct s as [|c rest]; [reflexivity|]. simpl in Hn.
    assert (Hstep : forall r a, (length r <= length rest)%nat ->
                      Json.consumes (c :: rest) (Json.scanstring r a)).
    { intros r a Hr. specialize (IH r a ltac:(lia)). unfold Json.consumes in *.
      destruct (Json.scanstring r a) as [[x t]|e]; simpl in *; [lia|exact IH]. }
    cbn [Json.scanstring].
    destruct (c =? QUOTE); [simpl; lia|].
    destruct (c =? BACKSLASH).
    + destruct rest as [|e rest1]; [reflexivity|].
      destruct (e =? 117).
      * destruct rest1 as [|h1 [|h2 [|h3 [|h4 rest5]]]]; try reflexivity.
        destruct (Json.decode_uXXXX h1 h2 h3 h4) as [uni|]; [|reflexivity].
        destruct (Json.is_high_surrogate uni); [|apply Hstep; simpl; lia].
        destruct rest5 as [|b [|u [|g1 [|g2 [|g3 [|g4 rest11]]]]]];
          try (apply Hstep; simpl; lia).
        destruct ((b =? BACKSLASH) && (u =? 117)); [|apply Hstep; simpl; lia].
        destruct (Json.decode_uXXXX g1 g2 g3 g4) as [uni2|]; [|reflexivity].
        destruct (Json.is_low_surrogate uni2); apply Hstep; simpl; lia.
      * destruct (Json.backslash_escape e); [apply Hstep; simpl; lia|reflexivity].
    + destruct (c <? 32); [reflexivity|apply Hstep; lia].
Qed.

Lemma consumes_shorter {A : Type} (s s' : pystr) (r : result (A * pystr)) :
  (length s' <= length s)%nat -> Json.consumes s' r -> Json.consumes s r.
Proof. unfold Json.consumes. destruct r as [[x t]|e]; [lia|tauto]. Qed.

Lemma scan_consumes (fuel : nat) :
  (forall s, (2 * length s + 1 <= fuel)%nat -> Json.consumes s (Json.scan_once fuel s)) /\
  (forall s acc, (2 * length s + 2 <= fuel)%nat ->
     Json.consumes s (Json.array_loop fuel s acc)) /\
  (forall s acc, (2 * length s + 2 <= fuel)%nat ->
     Json.consumes (QUOTE :: s) (Json.object_loop fuel s acc)).
Proof.
  induction fuel as [|fuel (IHs & IHa & IHo)].
  { repeat split; intros; lia. }
  split; [|split].
  - intros s Hf. destruct s as [|c rest]; [reflexivity|].
    cbn [Json.scan_once]. simpl in Hf.
    pose proof (skip_ws_length rest) as Hws.
    destruct (c =? QUOTE).
    { pose proof (scanstring_consumes (length rest) rest [] (le_n _)) as Hs.
      destruct (Json.scanstring rest []) as [[x t]|e]; simpl in *; [lia|exact Hs]. }
    destruct (c =? LBRACE).
    { destruct (Json.expect RBRACE (Json.skip_ws rest)) as [t|] eqn:E1.
      { apply expect_length in E1. simpl. lia. }
      destruct (Json.expect QUOTE (Json.skip_ws rest)) as [t|] eqn:E2; [|reflexivity].
      apply expect_length in E2.
      specialize (IHo t [] ltac:(lia)).
      destruct (Json.object_loop fuel t []) as [[ps t']|e]; simpl in *; [lia|exact IHo]. }
    destruct (c =? LBRACKET).
    { destruct (Json.expect RBRACKET (Json.skip_ws rest)) as [t|] eqn:E1.
      { apply expect_length in E1. simpl. lia. }
      specialize (IHa (Json.skip_ws rest) [] ltac:(lia)).
      destruct (Json.array_loop fuel (Json.skip_ws rest) []) as [[vs t']|e];
        simpl in *; [lia|exact IHa]. }
    destruct (Json.match_literal (c :: rest)) as [[v t]|] eqn:E; [|reflexivity].
    apply match_literal_length in E. exact E.
  - intros s acc Hf. cbn [Json.array_loop].
    specialize (IHs s ltac:(lia)).
    destruct (Json.scan_once fuel s) as [[v t]|e]; [|exact IHs].
    simpl in IHs. cbn [rbind]. pose proof (skip_ws_length t) as Hws.
    destruct (Json.expect RBRACKET (Json.skip_ws t)) as [t'|] eqn:E1.
    { apply expect_length in E1. simpl. lia. }
    destruct (Json.expect COMMA (Json.skip_ws t)) as [t'|] eqn:E2; [|reflexivity].
    apply expect_length in E2. pose proof (skip_ws_length t') as Hws'.
    apply (consumes_shorter s (Json.skip_ws t')); [lia|].
    apply IHa. lia.
  - intros s acc Hf. cbn [Json.object_loop].
    pose proof (scanstring_consumes (length s) s [] (le_n _)) as Hs.
    destruct (Json.scanstring s []) as [[key t]|e]; [|exact Hs].
    simpl in Hs. cbn [rbind]. pose proof (skip_ws_length t) as Hws.
    destruct (Json.expect COLON (Json.skip_ws t)) as [t1|] eqn:E1; [|reflexivity].
    apply expect_length in E1. pose proof (skip_ws_length t1) as Hws1.
    specialize (IHs (Json.skip_ws t1) ltac:(lia)).
    destruct (Json.scan_once fuel (Json.skip_ws t1)) as [[v t2]|e]; [|exact IHs].
    simpl in IHs. cbn [rbind]. pose proof (skip_ws_length t2) as Hws2.
    destruct (Json.expect RBRACE (Json.skip_ws t2)) as [t3|] eqn:E2.
    { apply expect_length in E2. simpl. lia. }
    destruct (Json.expect COMMA (Json.skip_ws t2)) as [t3|] eqn:E3; [|reflexivity].
    apply expect_length in E3. pose proof (skip_ws_length t3) as Hws3.
    destruct (Json.expect QUOTE (Json.skip_ws t3)) as [t4|] eqn:E4; [|reflexivity].
    apply expect_length in E4.
    apply (consumes_shorter (QUOTE :: s) (QUOTE :: t4)); [simpl; lia|].
    apply IHo. lia.
Qed.

(** The fuel of [loads] never runs out: the decoder returns a value or
    raises JSONDecodeError. *)
Lemma loads_total (s : pystr) :
  (exists v, Json.loads s = Ok v) \/ Json.loads s = Raise JSONDecodeError.
Proof.
  unfold Json.loads.
  pose proof (skip_ws_length s) as Hws.
  destruct (scan_consumes (2 * length s + 2)) as (Hs & _ & _).
  specialize (Hs (Json.skip_ws s) ltac:(lia)).
  destruct (Json.scan_once (2 * length s + 2) (Json.skip_ws s)) as [[v t]|e].
  - cbn [rbind]. destruct (Json.skip_ws t); [left; now exists v|now right].
  - right. simpl in Hs. now subst e.
Qed.

(** ** The label filter *)

Lemma forallb_Forall {A} (f : A -> bool) (l : list A) :
  forallb f l = true <-> Forall (fun x => f x = true) l.
Proof.
  induction l as [|x l IH]; simpl.
  - split; auto.
  - rewrite andb_true_iff, IH. split.
    + intros [Hx Hl]. constructor; assumption.
    + intros H. inversion H; subst. split; assumption.
Qed.

(** C4, as stated, fails: a label of five superscript twos (U+00B2) is
    dropped, because [str.isdigit] accepts superscript digits, although it
    is not empty, is longer than four characters, has no decimal digit and
    no CJK ideograph. *)
Lemma label_filter_drops_superscript_digits :
  should_skip (Some SUPERSCRIPT_TWOS) = true
  /\ ~ drop_conditions (Some SUPERSCRIPT_TWOS).
Proof.
  split; [reflexivity|].
  unfold drop_conditions, SUPERSCRIPT_TWOS.
  intros [H | [H | [H | H]]].
  - discriminate H.
  - simpl in H. lia.
  - inversion H as [|? ? Hc _]; subst. vm_compute in Hc. discriminate Hc.
  - inversion H as [|? ? Hc _]; subst. vm_compute in Hc. discriminate Hc.
Qed.

(** C4, amended: the filter drops a label exactly when it is absent or
    empty, has at most four characters, consists only of characters with
    the Unicode digit property (Numeric_Type Decimal or Digit, what
    [str.isdigit] tests), or consists only of characters in U+4E00..U+9FFF;
    the four examples of the specification behave as it says. *)
Theorem label_filter_drops_iff :
  (forall device, should_skip device = true <-> drop_conditions_isdigit device)
  /\ should_skip (Some (str "1234")) = true
  /\ should_skip (Some (str "12345678")) = true
  /\ should_skip (Some CJK_LABEL) = true
  /\ should_skip (Some (str "TAS-AN00")) = false.
Proof.
  split; [|repeat split; reflexivity].
  intros [d|]; [|simpl; tauto].
  destruct d as [|c r]; [simpl; tauto|].
  unfold should_skip, drop_conditions_isdigit.
  remember (c :: r) as d eqn:Hd.
  destruct (Nat.leb_spec (length d) 4) as [Hlen|Hlen].
  { subst d. split; auto. }
  assert (Hdig : is_pure_digit d = forallb char_isdigit d)
    by (subst d; reflexivity).
  assert (Hcjk : is_pure_chinese d = forallb char_is_cjk d)
    by (subst d; reflexivity).
  rewrite Hdig, Hcjk, <- !forallb_Forall.
  destruct (forallb char_isdigit d); [subst d; split; auto|].
  destruct (forallb char_is_cjk d); [subst d; split; auto|].
  subst d. split; [discriminate|].
  intros [H | [H | [H | H]]]; try discriminate H.
  simpl in Hlen, H. lia.
Qed.

(** ** Strings: trimming and fence removal keep the brackets *)

Lemma pystr_eqb_eq (a b : pystr) : pystr_eqb a b = true <-> a = b.
Proof.
  revert b. induction a as [|x a IH]; intros [|y b]; simpl;
    try (split; [discriminate|discriminate]); try tauto.
  rewrite andb_true_iff, N.eqb_eq, IH. split.
  - intros [-> ->]. reflexivity.
  - intros H. inversion H. auto.
Qed.

Lemma pystr_eqb_refl (a : pystr) : pystr_eqb a a = true.
Proof. apply pystr_eqb_eq. reflexivity. Qed.

Lemma pystr_eqb_neq (a b : pystr) : pystr_eqb a b = false <-> a <> b.
Proof.
  rewrite <- pystr_eqb_eq. destruct (pystr_eqb a b); split; congruence.
Qed.

Lemma isspace_not_bracket (c : char) : py_isspace c = true -> is_bracket c = false.
Proof.
  intros H. unfold is_bracket, LBRACKET, RBRACKET.
  destruct (N.eqb_spec c 91) as [->|_]; [vm_compute in H; discriminate|].
  destruct (N.eqb_spec c 93) as [->|_]; [vm_compute in H; discriminate|].
  reflexivity.
Qed.

Lemma brackets_app (a b : pystr) : brackets (a ++ b) = brackets a ++ brackets b.
Proof. apply filter_app. Qed.

Lemma brackets_rev (s : pystr) : brackets (rev s) = rev (brackets s).
Proof.
  induction s as [|c s IH]; simpl; [reflexivity|].
  rewrite brackets_app, IH. simpl.
  destruct (is_bracket c); simpl; [reflexivity|apply List.app_nil_r].
Qed.

Lemma brackets_lstrip (s : pystr) : brackets (lstrip s) = brackets s.
Proof.
  induction s as [|c s IH]; simpl; [reflexivity|].
  destruct (py_isspace c) eqn:Hc; [|reflexivity].
  rewrite IH, (isspace_not_bracket c Hc). reflexivity.
Qed.

Lemma brackets_strip (s : pystr) : brackets (strip s) = brackets s.
Proof.
  unfold strip, rstrip.
  rewrite brackets_rev, brackets_lstrip, brackets_rev, rev_involutive.
  apply brackets_lstrip.
Qed.

Lemma drop_prefix_app (p s r : pystr) : drop_prefix p s = Some r -> s = p ++ r.
Proof.
  revert s. induction p as [|x p IH]; intros s H; simpl in *.
  - congruence.
  - destruct s as [|y s]; [discriminate|].
    destruct (N.eqb_spec x y) as [->|_]; [|discriminate].
    rewrite (IH _ H). reflexivity.
Qed.

Lemma drop_prefix_self (p r : pystr) : drop_prefix p (p ++ r) = Some r.
Proof.
  induction p as [|x p IH]; simpl; [reflexivity|].
  rewrite N.eqb_refl. exact IH.
Qed.

Lemma brackets_re_sub_prefix (p s : pystr) :
  brackets p = [] -> brackets (re_sub_prefix p s) = brackets s.
Proof.
  intros Hp. unfold re_sub_prefix.
  destruct (drop_prefix p s) as [r|] eqn:H; [|reflexivity].
  rewrite (drop_prefix_app _ _ _ H), brackets_app, Hp. reflexivity.
Qed.

Lemma rev_eq_app (s r : pystr) : rev s = r -> s = rev r.
Proof. intros <-. symmetry. apply rev_involutive. Qed.

Lemma brackets_re_sub_fence_end (s : pystr) :
  brackets (re_sub_fence_end s) = brackets s.
Proof.
  unfold re_sub_fence_end.
  destruct (drop_prefix [96; 96; 96] (rev s)) as [r|] eqn:H.
  - apply drop_prefix_app, rev_eq_app in H. subst s.
    rewrite rev_app_distr, brackets_app. simpl. symmetry. apply List.app_nil_r.
  - destruct (drop_prefix [10; 96; 96; 96] (rev s)) as [r|] eqn:H'; [|reflexivity].
    apply drop_prefix_app, rev_eq_app in H'. subst s.
    rewrite rev_app_distr, !brackets_app. reflexivity.
Qed.

Lemma brackets_strip_fences (text : pystr) :
  brackets (strip_fences text) = brackets text.
Proof.
  unfold strip_fences.
  destruct (startswith FENCE (strip text)).
  - rewrite brackets_strip, brackets_re_sub_fence_end.
    rewrite !brackets_re_sub_prefix by reflexivity.
    apply brackets_strip.
  - apply brackets_strip.
Qed.

Lemma in_brackets (c : char) (s : pystr) :
  is_bracket c = true -> (In c (brackets s) <-> In c s).
Proof.
  intros Hc. unfold brackets. rewrite filter_In. tauto.
Qed.

(** ** [find] and the depth scan *)

Lemma find_from_none (c : char) (s : pystr) (i : nat) :
  find_from c s i = None <-> ~ In c s.
Proof.
  revert i. induction s as [|x s IH]; intros i; simpl.
  - tauto.
  - destruct (N.eqb_spec x c) as [->|Hne].
    + split; [discriminate|]. intros H. exfalso. apply H. now left.
    + rewrite IH. split.
      * intros H [Hx|Hin]; [congruence|auto].
      * intros H Hin. apply H. now right.
Qed.

Lemma find_from_some (c : char) (s : pystr) (i n : nat) :
  find_from c s i = Some n ->
  exists pre post, s = pre ++ c :: post /\ ~ In c pre /\ n = (i + length pre)%nat.
Proof.
  revert i. induction s as [|x s IH]; intros i H; simpl in H; [discriminate|].
  destruct (N.eqb_spec x c) as [->|Hne].
  - injection H as <-. exists [], s. simpl.
    split; [reflexivity|split; [intros []|lia]].
  - destruct (IH _ H) as (pre & post & -> & Hpre & ->).
    exists (x :: pre), post. simpl.
    split; [reflexivity|split; [|lia]].
    intros [Hx|Hin]; [congruence|auto].
Qed.

Lemma find_from_app (c : char) (pre post : pystr) (i : nat) :
  ~ In c pre -> find_from c (pre ++ c :: post) i = Some (i + length pre)%nat.
Proof.
  revert i. induction pre as [|x pre IH]; intros i Hpre; simpl.
  - rewrite N.eqb_refl. f_equal. lia.
  - destruct (N.eqb_spec x c) as [->|Hne].
    + exfalso. apply Hpre. now left.
    + rewrite IH by (intros Hin; apply Hpre; now right). f_equal. lia.
Qed.

(** Two splittings of one list at the first occurrence of [c] agree. *)
Lemma first_occurrence_unique (c : char) (a1 b1 a2 b2 : pystr) :
  ~ In c a1 -> ~ In c a2 -> a1 ++ c :: b1 = a2 ++ c :: b2 ->
  a1 = a2 /\ b1 = b2.
Proof.
  revert a2. induction a1 as [|x a1 IH]; intros [|y a2] H1 H2 E; simpl in *.
  - inversion E. auto.
  - inversion E; subst. exfalso. apply H2. now left.
  - inversion E; subst. exfalso. apply H1. now left.
  - inversion E; subst.
    destruct (IH a2) as [-> ->]; auto.
Qed.

(** The scan only looks at brackets. *)
Lemma scan_brackets_filter (s : pystr) (i j : nat) (d : Z) :
  scan_brackets s i d = None <-> scan_brackets (brackets s) j d = None.
Proof.
  revert i j d. induction s as [|c s IH]; intros i j d; simpl; [tauto|].
  unfold is_bracket.
  destruct (N.eqb_spec c LBRACKET) as [->|Hl]; simpl.
  - apply IH.
  - destruct (N.eqb_spec c RBRACKET) as [->|Hr]; simpl.
    + destruct (d - 1 =? 0)%Z; [split; discriminate|apply IH].
    + apply IH.
Qed.

(** Once inside the array, the scan fails exactly when no prefix brings
    the depth back to zero. *)
Lemma scan_brackets_none (s : pystr) (i : nat) (d : Z) :
  (1 <= d)%Z ->
  (forall k, (k <= length s)%nat -> (d + bracket_depth (firstn k s))%Z <> 0%Z) ->
  scan_brackets s i d = None.
Proof.
  revert i d. induction s as [|c s IH]; intros i d Hd H; simpl; [reflexivity|].
  assert (Hstep : forall k, (k <= length s)%nat ->
            (d + bracket_depth (c :: firstn k s))%Z <> 0%Z).
  { intros k Hk. apply (H (S k)). simpl. lia. }
  simpl in Hstep.
  destruct (N.eqb_spec c LBRACKET) as [->|Hl].
  - apply IH; [lia|]. intros k Hk. specialize (Hstep k Hk).
    change (LBRACKET =? LBRACKET) with true in Hstep. lia.
  - destruct (N.eqb_spec c RBRACKET) as [->|Hr].
    + change (RBRACKET =? LBRACKET) with false in Hstep.
      change (RBRACKET =? RBRACKET) with true in Hstep.
      destruct (Z.eqb_spec (d - 1) 0) as [E|E].
      * exfalso. apply (Hstep 0%nat); [lia|]. simpl. lia.
      * apply IH; [lia|]. intros k Hk. specialize (Hstep k Hk). lia.
    + apply IH; [lia|]. intros k Hk. specialize (Hstep k Hk).
      destruct (N.eqb_spec c LBRACKET); [contradiction|].
      destruct (N.eqb_spec c RBRACKET); [contradiction|]. lia.
Qed.

Lemma skipn_app_exact {A} (a b : list A) : skipn (length a) (a ++ b) = b.
Proof. induction a; simpl; auto. Qed.

(** ** C3: failures of the extractor *)

Lemma extract_json_no_bracket (text : pystr) :
  ~ In LBRACKET text -> extract_json text = Raise ValueError_no_array_start.
Proof.
  intros H. unfold extract_json.
  assert (Hn : find LBRACKET (strip_fences text) = None).
  { apply find_from_none. intros Hin. apply H.
    apply (proj2 (in_brackets LBRACKET _ eq_refl)) in Hin.
    rewrite brackets_strip_fences in Hin.
    exact (proj1 (in_brackets LBRACKET _ eq_refl) Hin). }
  rewrite Hn. reflexivity.
Qed.

Lemma extract_json_never_closes (text : pystr) :
  never_closes text -> extract_json text = Raise ValueError_incomplete_array.
Proof.
  intros (pre & post & -> & Hpre & Hdepth). unfold extract_json.
  set (T := strip_fences (pre ++ LBRACKET :: post)).
  assert (HB : brackets T = brackets pre ++ LBRACKET :: brackets post).
  { unfold T. rewrite brackets_strip_fences, brackets_app. reflexivity. }
  destruct (find LBRACKET T) as [n|] eqn:Hfind.
  - apply find_from_some in Hfind.
    destruct Hfind as (pre' & post' & HT & Hpre' & Hn). simpl in Hn. subst n.
    rewrite HT, skipn_app_exact. simpl.
    rewrite HT, brackets_app in HB. simpl in HB.
    apply first_occurrence_unique in HB.
    + destruct HB as [_ HB].
      assert (Hnone : forall i, scan_brackets post' i 1 = None).
      { intros i. apply (scan_brackets_filter post' _ 0%nat). rewrite HB.
        apply (scan_brackets_filter post 0%nat). apply scan_brackets_none; [lia|].
        intros k Hk. specialize (Hdepth k Hk).
        change (bracket_depth (LBRACKET :: firstn k post))
          with (1 + bracket_depth (firstn k post))%Z in Hdepth. lia. }
      rewrite Hnone. reflexivity.
    + intros Hin. apply Hpre'. exact (proj1 (in_brackets LBRACKET _ eq_refl) Hin).
    + intros Hin. apply Hpre. exact (proj1 (in_brackets LBRACKET _ eq_refl) Hin).
  - exfalso. apply find_from_none in Hfind. apply Hfind.
    apply (proj1 (in_brackets LBRACKET _ eq_refl)).
    rewrite HB. apply in_or_app. right. now left.
Qed.

(** C3: the extractor fails on any text without an opening bracket, and
    on any text whose depth, counted from the first opening bracket, never
    returns to zero; the nested array of the specification's example does
    not close the outer one. *)
Theorem extractor_failures :
  (forall text, ~ In LBRACKET text ->
     extract_json text = Raise ValueError_no_array_start)
  /\ (forall text, never_closes text ->
     extract_json text = Raise ValueError_incomplete_array)
  /\ extract_json (dq "[{'a':[1,2]}]")
     = Ok (JArr [JObj [(str "a", JArr [JInt 1; JInt 2])]]).
Proof.
  split; [exact extract_json_no_bracket|].
  split; [exact extract_json_never_closes|].
  vm_compute. reflexivity.
Qed.

Lemma extractor_failures_witness :
  extract_json (str "no array here") = Raise ValueError_no_array_start
  /\ extract_json (str "x [[1, 2] y") = Raise ValueError_incomplete_array.
Proof.
  destruct extractor_failures as (Hnone & Hopen & _). split.
  - apply Hnone. cbv. intuition discriminate.
  - apply Hopen. exists (str "x "), (str "[1, 2] y").
    split; [reflexivity|]. split; [cbv; intuition discriminate|].
    intros k Hk.
    do 9 (destruct k as [|k]; [vm_compute; discriminate|]).
    simpl in Hk. lia.
Defined.

(** ** C10: brackets inside string literals *)

(** C10: the text is one well-formed array whose only string holds an
    unmatched closing bracket; the depth scan stops at that bracket, the
    candidate is cut inside the string, and extraction raises. *)
Theorem bracket_inside_string_breaks_extraction :
  Json.loads (dq "['a]']") = Ok (JArr [JStr (str "a]")])
  /\ find LBRACKET (strip_fences (dq "['a]']")) = Some 0%nat
  /\ scan_brackets (strip_fences (dq "['a]']")) 0 0 = Some 3%nat
  /\ slice (strip_fences (dq "['a]']")) 0 (3 + 1) = dq "['a]"
  /\ Json.loads (dq "['a]") = Raise JSONDecodeError
  /\ extract_json (dq "['a]']") = Raise JSONDecodeError.
Proof. repeat split; vm_compute; reflexivity. Qed.

(** ** Batches *)

Lemma slice_batch_length {A} (l : list A) (i : nat) :
  length (slice l i (i + BATCH_SIZE)) = Nat.min BATCH_SIZE (length l - i).
Proof.
  unfold slice. replace (i + BATCH_SIZE - i)%nat with BATCH_SIZE by lia.
  rewrite length_firstn, length_skipn. reflexivity.
Qed.

Lemma range_fuel_nth (fuel start stop k j : nat) :
  nth_error (range_fuel fuel start stop BATCH_SIZE) k = Some j ->
  j = (start + BATCH_SIZE * k)%nat /\ (j < stop)%nat.
Proof.
  revert start k. induction fuel as [|fuel IH]; intros start k H; simpl in H.
  - destruct k; discriminate H.
  - destruct (Nat.ltb_spec start stop) as [Hlt|Hge].
    + destruct k as [|k]; simpl in H.
      * injection H as <-. split; [lia|assumption].
      * apply IH in H. destruct H as [-> H]. split; [lia|assumption].
    + destruct k; discriminate H.
Qed.

Lemma range_fuel_length (fuel start stop : nat) :
  (stop - start <= fuel)%nat ->
  length (range_fuel fuel start stop BATCH_SIZE)
  = ((stop - start + (BATCH_SIZE - 1)) / BATCH_SIZE)%nat.
Proof.
  revert start. induction fuel as [|fuel IH]; intros start Hf; cbn [range_fuel].
  - replace (stop - start)%nat with 0%nat by lia. reflexivity.
  - destruct (Nat.ltb_spec start stop) as [Hlt|Hge].
    + cbn [length]. rewrite IH by (unfold BATCH_SIZE; lia). unfold BATCH_SIZE.
      destruct (Nat.le_gt_cases (start + 5) stop) as [Hle|Hgt].
      * replace (stop - start + (5 - 1))%nat
          with (stop - (start + 5) + (5 - 1) + 1 * 5)%nat by lia.
        rewrite Nat.div_add by lia. lia.
      * replace (stop - (start + 5))%nat with 0%nat by lia.
        assert (H1 : ((stop - start + (5 - 1)) / 5 = 1)%nat).
        { symmetry. apply Nat.div_unique with (r := (stop - start - 1)%nat); lia. }
        rewrite H1. reflexivity.
    + replace (stop - start)%nat with 0%nat by lia. reflexivity.
Qed.

Lemma batches_concat_from (devices : list pystr) (fuel start : nat) :
  (length devices - start <= fuel)%nat ->
  concat (map (fun i => slice devices i (i + BATCH_SIZE))
              (range_fuel fuel start (length devices) BATCH_SIZE))
  = skipn start devices.
Proof.
  revert start. induction fuel as [|fuel IH]; intros start Hf; simpl.
  - symmetry. apply skipn_all2. lia.
  - destruct (Nat.ltb_spec start (length devices)) as [Hlt|Hge].
    + simpl. rewrite IH by (unfold BATCH_SIZE; lia). unfold slice.
      replace (start + BATCH_SIZE - start)%nat with BATCH_SIZE by lia.
      replace (start + BATCH_SIZE)%nat with (BATCH_SIZE + start)%nat by lia.
      rewrite <- skipn_skipn. apply firstn_skipn.
    + symmetry. apply skipn_all2. lia.
Qed.

Lemma batches_length (devices : list pystr) :
  length (batches devices) = ((length devices + 4) / 5)%nat.
Proof.
  unfold batches, range. rewrite length_map, range_fuel_length by lia.
  rewrite Nat.sub_0_r. reflexivity.
Qed.

Lemma batches_concat (devices : list pystr) : concat (batches devices) = devices.
Proof.
  unfold batches, range. rewrite batches_concat_from by lia. reflexivity.
Qed.

Lemma batches_nth (devices : list pystr) (k : nat) (b : list pystr) :
  nth_error (batches devices) k = Some b ->
  b = slice devices (5 * k) (5 * k + 5)
  /\ (length b = 5%nat
      \/ (S k = length (batches devices) /\ 1 <= length b <= 5)%nat).
Proof.
  intros H. unfold batches in H.
  rewrite nth_error_map in H.
  destruct (nth_error (range 0 (length devices) BATCH_SIZE) k) as [j|] eqn:Hj;
    [|discriminate H].
  injection H as <-. apply range_fuel_nth in Hj. destruct Hj as [Hj Hlt].
  assert (Ej : j = (5 * k)%nat) by (unfold BATCH_SIZE in Hj; lia).
  clear Hj. subst j.
  split; [reflexivity|].
  rewrite (slice_batch_length devices (5 * k)). unfold BATCH_SIZE.
  destruct (Nat.le_gt_cases (5 * k + 5) (length devices)) as [Hle|Hgt].
  - left. lia.
  - right. rewrite batches_length. split; [|lia].
    apply Nat.div_unique with (r := (length devices + 4 - 5 * S k)%nat); lia.
Qed.

(** ** The extractor returns lists *)

Lemma scan_once_bracket (fuel : nat) (rest t : pystr) (v : json) :
  Json.scan_once fuel (LBRACKET :: rest) = Ok (v, t) -> exists l, v = JArr l.
Proof.
  destruct fuel as [|fuel]; simpl; [discriminate|].
  intros H. unfold rbind in H.
  repeat match type of H with
  | context [match ?x with _ => _ end] => destruct x
  end; try discriminate H; inversion H; subst; eauto.
Qed.

Lemma loads_bracket (rest : pystr) (v : json) :
  Json.loads (LBRACKET :: rest) = Ok v -> exists l, v = JArr l.
Proof.
  unfold Json.loads.
  change (Json.skip_ws (LBRACKET :: rest)) with (LBRACKET :: rest).
  destruct (Json.scan_once _ (LBRACKET :: rest)) as [[v' t]|e] eqn:H;
    simpl; [|discriminate].
  apply scan_once_bracket in H. destruct H as [l ->].
  destruct (Json.skip_ws t); [|discriminate].
  intros E. injection E as <-. eauto.
Qed.

Lemma extract_json_array (text : pystr) (v : json) :
  extract_json text = Ok v -> exists l, v = JArr l.
Proof.
  unfold extract_json.
  destruct (find LBRACKET (strip_fences text)) as [n|] eqn:Hfind; [|discriminate].
  apply find_from_some in Hfind.
  destruct Hfind as (pre & post & HT & _ & Hn). simpl in Hn. subst n.
  rewrite HT, skipn_app_exact.
  destruct (scan_brackets _ _ _) as [i|]; [|discriminate].
  unfold slice. rewrite skipn_app_exact.
  destruct (i + 1 - length pre)%nat as [|m]; simpl firstn.
  - vm_compute. discriminate.
  - apply loads_bracket.
Qed.

Lemma read_response_array (resp : response) (v : json) :
  read_response resp = Ok v -> exists l, v = JArr l.
Proof.
  unfold read_response, rbind. intros H.
  repeat match type of H with
  | context [match ?x with _ => _ end] => destruct x; try discriminate H
  end.
  eapply extract_json_array; eassumption.
Qed.

Lemma call_provider_array post (p : provider) (k : nat) (dm : list pystr) (v : json) :
  call_provider post p k dm = Ok v -> exists l, v = JArr l.
Proof.
  unfold call_provider, rbind.
  destruct (post p k dm) as [resp|e]; [|discriminate].
  apply read_response_array.
Qed.

(** The wrappers return what the call returned, and the empty list when
    it raised. *)
Lemma call_safe_spec post (p : provider) (k : nat) (dev : pystr) :
  call_safe post p k dev
  = match call_provider post p k [dev] with
    | Ok v => v
    | Raise _ => JArr []
    end.
Proof. destruct p; reflexivity. Qed.

Lemma call_safe_array post (p : provider) (k : nat) (dev : pystr) :
  call_safe post p k dev
  = JArr match call_provider post p k [dev] with
         | Ok (JArr l) => l
         | _ => []
         end.
Proof.
  rewrite call_safe_spec.
  destruct (call_provider post p k [dev]) as [v|e] eqn:H; [|reflexivity].
  apply call_provider_array in H. destruct H as [l ->]. reflexivity.
Qed.

Lemma extend_all_arrays (acc : list json) (ls : list (list json)) :
  extend_all acc (map JArr ls) = Ok (acc ++ concat ls).
Proof.
  revert acc. induction ls as [|l ls IH]; intros acc; simpl.
  - rewrite List.app_nil_r. reflexivity.
  - rewrite IH, app_assoc. reflexivity.
Qed.

(** ** C1: failed calls contribute nothing and stop nothing *)

Lemma concat_filter_nonempty {A} (ls : list (list A)) :
  concat (filter (fun l => negb (is_nil l)) ls) = concat ls.
Proof.
  induction ls as [|l ls IH]; simpl; [reflexivity|].
  destruct l; simpl; rewrite IH; reflexivity.
Qed.

Lemma concat_filter_empty {A} (ls : list (list A)) :
  concat (filter is_nil ls) = [].
Proof.
  induction ls as [|l ls IH]; simpl; [reflexivity|].
  destruct l; simpl; exact IH.
Qed.

Lemma Permutation_filter {A} (f : A -> bool) (l l' : list A) :
  Permutation l l' -> Permutation (filter f l) (filter f l').
Proof.
  induction 1 as [|x l l' _ IH|x y l|l l' l'' _ IH1 _ IH2]; simpl.
  - constructor.
  - destruct (f x); [constructor|]; exact IH.
  - destruct (f x), (f y); try reflexivity. constructor.
  - etransitivity; eassumption.
Qed.

Lemma Permutation_split_filter {A} (f : A -> bool) (l : list A) :
  Permutation (filter f l ++ filter (fun x => negb (f x)) l) l.
Proof.
  induction l as [|x l IH]; simpl; [constructor|].
  destruct (f x); simpl.
  - constructor. exact IH.
  - symmetry. apply Permutation_cons_app. symmetry. exact IH.
Qed.

Example dumps_loads_nested :
  Json.loads (Json.dumps
    (JArr [JObj [(str "a", JArr [JInt 1; JInt (-20)]); (dq "k'\", JStr [7; 10; 0x4e2d])];
           JNull; JBool false; JStr []]))
  = Ok (JArr [JObj [(str "a", JArr [JInt 1; JInt (-20)]); (dq "k'\", JStr [7; 10; 0x4e2d])];
              JNull; JBool false; JStr []]).
Proof. vm_compute. reflexivity. Qed.

Lemma collect_successes (w : world) (p : provider) (i : nat) (batch : list pystr) :
  fair_arrival w ->
  exists ls, Permutation ls (successes w p i batch)
             /\ collect w p i batch = Ok (concat ls).
Proof.
  intros Hfair. unfold collect, submit_all, successes.
  set (L := combine (seq i (length batch)) batch).
  set (contrib := fun kd : nat * pystr =>
         match call_provider (post w) p (fst kd) [snd kd] with
         | Ok (JArr l) => l
         | _ => []
         end).
  assert (Hmap : map (fun kd => call_safe (post w) p (fst kd) (snd kd)) L
                 = map JArr (map contrib L)).
  { rewrite map_map. apply map_ext. intros kd. apply call_safe_array. }
  rewrite Hmap.
  destruct (Permutation_map_inv JArr (map contrib L) (Hfair p i (map JArr (map contrib L))))
    as (ls0 & Harr & Hperm).
  rewrite Harr, extend_all_arrays. simpl.
  set (S := flat_map _ L).
  assert (Hne : filter (fun l => negb (is_nil l)) (map contrib L)
                = filter (fun l => negb (is_nil l)) S).
  { unfold S, contrib. clear. induction L as [|kd L IH]; simpl; [reflexivity|].
    rewrite filter_app, <- IH.
    destruct (call_provider (post w) p (fst kd) [snd kd]) as [[| | | | |l|]|e];
      simpl; try reflexivity.
    destruct l; reflexivity. }
  exists (filter (fun l => negb (is_nil l)) ls0 ++ filter is_nil S). split.
  - transitivity (filter (fun l => negb (is_nil l)) S ++ filter is_nil S).
    + apply Permutation_app_tail. rewrite <- Hne.
      apply Permutation_filter. symmetry. exact Hperm.
    + rewrite (filter_ext is_nil (fun l => negb (negb (is_nil l))))
        by (intros l; rewrite negb_involutive; reflexivity).
      apply (Permutation_split_filter (fun l : list json => negb (is_nil l))).
  - rewrite concat_app, concat_filter_nonempty, concat_filter_empty, List.app_nil_r.
    reflexivity.
Qed.

Lemma call_safe_absorb (w : world) (p : provider) (k : nat) (dev : pystr) :
  call_safe (post (absorb_failures w)) p k dev = call_safe (post w) p k dev.
Proof.
  rewrite !call_safe_spec. unfold call_provider at 1. simpl post.
  destruct (call_provider (post w) p k [dev]) as [v|e] eqn:H.
  - exact (f_equal (fun r => match r with Ok v => v | Raise _ => JArr [] end) H).
  - vm_compute. reflexivity.
Qed.

Lemma collect_absorb (w : world) (p : provider) (i : nat) (batch : list pystr) :
  collect (absorb_failures w) p i batch = collect w p i batch.
Proof.
  unfold collect, submit_all. simpl arrival. f_equal. f_equal.
  apply map_ext. intros kd. apply call_safe_absorb.
Qed.

Lemma process_batch_absorb (w : world) (devices : list pystr) (i : nat) (st : state) :
  process_batch (absorb_failures w) devices i st = process_batch w devices i st.
Proof.
  unfold process_batch. rewrite !collect_absorb. reflexivity.
Qed.

Lemma main_absorb (w : world) : main (absorb_failures w) = main w.
Proof.
  unfold main. simpl input_csv. simpl output_csv.
  destruct (input_csv w) as [rows|e]; [|reflexivity].
  destruct (read_devices rows []) as [devices|e]; [|reflexivity].
  generalize (range 0 (length devices) BATCH_SIZE).
  generalize (open_append
    {| output := output_csv w; calls := []; writer := None;
       file_exists := match output_csv w with Some _ => true | None => false end |}).
  intros st starts. revert st.
  induction starts as [|i starts IH]; intros st; simpl; [reflexivity|].
  rewrite process_batch_absorb.
  destruct (process_batch w devices i st) as [st' [u|e]]; [apply IH|reflexivity].
Qed.

(** C1: whenever the call for a label raises, whatever the cause
    (an exception of the request, an error status, a response that cannot
    be read or extracted), the wrapper returns the empty list; the result
    collected for a batch is the concatenation, in completion order, of the
    record lists of the calls that returned; and the whole run is the run
    in which the failed calls had answered with an empty array. *)
Theorem failed_calls_are_absorbed (w : world) :
  (forall p k dev e,
      call_provider (post w) p k [dev] = Raise e ->
      call_safe (post w) p k dev = JArr [])
  /\ (forall p k dev e,
      post w p k [dev] = Raise e -> call_safe (post w) p k dev = JArr [])
  /\ (forall p k dev resp,
      post w p k [dev] = Ok resp ->
      (400 <= status_code resp < 600)%Z ->
      call_safe (post w) p k dev = JArr [])
  /\ (forall p k dev resp e,
      post w p k [dev] = Ok resp -> read_response resp = Raise e ->
      call_safe (post w) p k dev = JArr [])
  /\ (fair_arrival w ->
      forall p i batch,
      exists ls, Permutation ls (successes w p i batch)
                 /\ collect w p i batch = Ok (concat ls))
  /\ main (absorb_failures w) = main w.
Proof.
  assert (H0 : forall p k dev e,
             call_provider (post w) p k [dev] = Raise e ->
             call_safe (post w) p k dev = JArr []).
  { intros p k dev e H. rewrite call_safe_spec, H. reflexivity. }
  split; [exact H0|].
  split.
  { intros p k dev e H. apply (H0 p k dev e). unfold call_provider. rewrite H. reflexivity. }
  split.
  { intros p k dev resp H Hst. apply (H0 p k dev (HTTPError (status_code resp))).
    unfold call_provider. rewrite H. simpl. unfold read_response, raise_for_status.
    replace ((400 <=? status_code resp)%Z && (status_code resp <? 600)%Z) with true
      by (symmetry; apply andb_true_iff; split; [apply Z.leb_le|apply Z.ltb_lt]; lia).
    reflexivity. }
  split.
  { intros p k dev resp e H Hr. apply (H0 p k dev e).
    unfold call_provider. rewrite H. exact Hr. }
  split.
  { intros Hfair p i batch. apply collect_successes. exact Hfair. }
  apply main_absorb.
Qed.

Lemma sample_world_fair : fair_arrival sample_world.
Proof. intros p i l. symmetry. apply Permutation_rev. Qed.

Lemma failed_calls_are_absorbed_witness :
  call_safe (post sample_world) DeepSeek 2 (str "M2012K11AC") = JArr []
  /\ call_safe (post sample_world) Gemini 1 (str "SM-G9350") = JArr []
  /\ exists ls,
       Permutation ls (successes sample_world DeepSeek 0 (firstn 5 SAMPLE_LABELS))
       /\ collect sample_world DeepSeek 0 (firstn 5 SAMPLE_LABELS) = Ok (concat ls).
Proof.
  destruct (failed_calls_are_absorbed sample_world) as (_ & H1 & H2 & _ & H4 & _).
  split; [apply (H1 _ _ _ Timeout); reflexivity|].
  split.
  - apply (H2 _ _ _ {| status_code := 500; text := [] |}); [reflexivity|simpl; lia].
  - apply H4. exact sample_world_fair.
Defined.

(** ** What [main] appends to the output file *)

Lemma appended_refl (st : state) : appended st st [].
Proof.
  exists []. rewrite List.app_nil_r. split; [reflexivity|].
  destruct (writer st); repeat split; auto.
Qed.

Lemma appended_trans (st1 st2 st3 : state) (ds1 ds2 : list record) :
  appended st1 st2 ds1 -> appended st2 st3 ds2 -> appended st1 st3 (ds1 ++ ds2).
Proof.
  intros (new1 & Hl1 & H1) (new2 & Hl2 & H2).
  exists (new1 ++ new2). split; [rewrite Hl2, Hl1, app_assoc; reflexivity|].
  destruct (writer st1) as [fs|].
  - destruct H1 as (Hw & Hf & Hrows). rewrite Hw in H2.
    destruct H2 as (Hw2 & Hf2 & Hrows2).
    repeat split; [assumption|congruence|apply Forall2_app; assumption].
  - destruct ds1 as [|d1st ds1].
    + destruct H1 as (-> & Hw & Hf). rewrite Hw in H2. simpl.
      destruct ds2 as [|d1st ds2].
      * destruct H2 as (-> & Hw2 & Hf2). repeat split; [assumption|congruence].
      * destruct H2 as (gm & merged & cells & rows & Hm & Hc & Hw2 & Hf2 & Hrows & ->).
        exists gm, merged, cells, rows. rewrite <- Hf. repeat split; assumption.
    + destruct H1 as (gm & merged & cells & rows & Hm & Hc & Hw & Hf & Hrows & ->).
      rewrite Hw in H2. destruct H2 as (Hw2 & Hf2 & Hrows2).
      exists gm, merged, cells, (rows ++ new2). simpl.
      repeat split; try assumption; try congruence.
      * apply (Forall2_app Hrows Hrows2).
      * rewrite <- app_assoc. reflexivity.
Qed.

Lemma writerow_own_keys (merged : record) :
  exists cells, writerow (Dict.keys merged) merged = Ok cells.
Proof.
  unfold writerow.
  assert (H : forallb (fun k => existsb (pystr_eqb k) (Dict.keys merged))
                      (Dict.keys merged) = true).
  { apply forallb_forall. intros k Hk. apply existsb_exists.
    exists k. split; [assumption|apply pystr_eqb_refl]. }
  rewrite H. eauto.
Qed.

Lemma merge_row_dict (gm_map : list (json * json)) (row : json) (merged : record) :
  merge_row gm_map row = Ok merged -> exists d, row = JObj d.
Proof. destruct row; try discriminate. eauto. Qed.

Lemma write_rows_merge_fails gm_map row rows st e :
  merge_row gm_map row = Raise e ->
  write_rows gm_map (row :: rows) st = (st, Raise e).
Proof. intros H. simpl. rewrite H. reflexivity. Qed.

Lemma write_rows_next gm_map d rows st fs merged :
  merge_row gm_map (JObj d) = Ok merged -> writer st = Some fs ->
  write_rows gm_map (JObj d :: rows) st
  = match writerow fs merged with
    | Ok cells => write_rows gm_map rows (append_line (Row cells) st)
    | Raise e => (st, Raise e)
    end.
Proof.
  intros Hm Hw. cbn [write_rows]. rewrite Hm, Hw. cbv zeta. rewrite Hw. reflexivity.
Qed.

Lemma write_rows_first gm_map d rows st merged :
  merge_row gm_map (JObj d) = Ok merged -> writer st = None ->
  exists cells,
    writerow (Dict.keys merged) merged = Ok cells /\
    write_rows gm_map (JObj d :: rows) st
    = write_rows gm_map rows
        (append_line (Row cells)
           (if file_exists st then set_writer (Dict.keys merged) st
            else set_file_exists
                   (append_line (Header (Dict.keys merged))
                      (set_writer (Dict.keys merged) st)))).
Proof.
  intros Hm Hw. destruct (writerow_own_keys merged) as [cells Hc].
  exists cells. split; [exact Hc|].
  cbn [write_rows]. rewrite Hm, Hw. cbv zeta.
  change (file_exists (set_writer (Dict.keys merged) st)) with (file_exists st).
  destruct (file_exists st);
    cbn [writer set_writer set_file_exists append_line]; rewrite Hc; reflexivity.
Qed.

Lemma row_of_intro gm_map d merged fs cells :
  merge_row gm_map (JObj d) = Ok merged -> writerow fs merged = Ok cells ->
  row_of fs d (Row cells).
Proof. intros Hm Hc. exists gm_map, merged, cells. auto. Qed.

Lemma write_rows_appended (gm_map : list (json * json)) (rows : list json) (st : state) :
  exists ds rest,
    rows = map JObj ds ++ rest
    /\ (snd (write_rows gm_map rows st) = Ok tt -> rest = [])
    /\ appended st (fst (write_rows gm_map rows st)) ds
    /\ calls (fst (write_rows gm_map rows st)) = calls st.
Proof.
  revert st. induction rows as [|row rows IH]; intros st.
  - exists [], []. simpl. repeat split; auto. apply appended_refl.
  - destruct (merge_row gm_map row) as [merged|e] eqn:Hm.
    2:{ rewrite (write_rows_merge_fails _ _ _ _ _ Hm).
        exists [], (row :: rows). simpl.
        repeat split; try discriminate. apply appended_refl. }
    destruct (merge_row_dict _ _ _ Hm) as [d ->].
    destruct (writer st) as [fs|] eqn:Hwr.
    + rewrite (write_rows_next _ _ _ _ _ _ Hm Hwr).
      destruct (writerow fs merged) as [cells|e] eqn:Hc.
      2:{ exists [], (JObj d :: rows). simpl.
          repeat split; try discriminate. apply appended_refl. }
      destruct (IH (append_line (Row cells) st))
        as (ds & rest & Hrows & Hok & Happ & Hcalls).
      exists (d :: ds), rest. split; [simpl; rewrite Hrows; reflexivity|].
      split; [exact Hok|]. split; [|rewrite Hcalls; reflexivity].
      apply (appended_trans st (append_line (Row cells) st) _ [d] ds); [|exact Happ].
      exists [Row cells]. split; [reflexivity|]. rewrite Hwr.
      split; [exact Hwr|]. split; [reflexivity|]. constructor; [|constructor].
      eapply row_of_intro; eassumption.
    + destruct (write_rows_first _ _ rows _ _ Hm Hwr) as (cells & Hc & ->).
      match goal with
      | |- context [write_rows gm_map rows ?s] =>
        destruct (IH s) as (ds & rest & Hrows & Hok & Happ & Hcalls); set (st2 := s) in *
      end.
      exists (d :: ds), rest. split; [simpl; rewrite Hrows; reflexivity|].
      split; [exact Hok|]. split.
      * apply (appended_trans st st2 _ [d] ds); [|exact Happ].
        exists ((if file_exists st then [] else [Header (Dict.keys merged)])
                ++ [Row cells]).
        split.
        { subst st2. destruct (file_exists st); simpl; [reflexivity|].
          rewrite <- app_assoc. reflexivity. }
        rewrite Hwr. exists gm_map, merged, cells, [].
        split; [exact Hm|]. split; [exact Hc|].
        split; [subst st2; destruct (file_exists st); reflexivity|].
        split; [subst st2; destruct (file_exists st) eqn:Hfe; simpl; auto|].
        split; [constructor|reflexivity].
      * rewrite Hcalls. subst st2. destruct (file_exists st); reflexivity.
Qed.

Lemma appended_start_calls (cs : list dispatch) (st st' : state) (ds : list record) :
  appended (log_calls cs st) st' ds -> appended st st' ds.
Proof. exact (fun H => H). Qed.

Lemma appended_log_calls (cs : list dispatch) (st : state) :
  appended st (log_calls cs st) [].
Proof. apply (appended_start_calls cs). apply appended_refl. Qed.

Lemma process_batch_appended (w : world) (devices : list pystr) (i : nat) (st : state) :
  exists ds rest,
    ds_results_of w devices i = map JObj ds ++ rest
    /\ (snd (process_batch w devices i st) = Ok tt -> rest = [])
    /\ appended st (fst (process_batch w devices i st)) ds.
Proof.
  unfold process_batch, ds_results_of.
  destruct (collect w DeepSeek i _) as [ds_results|e].
  2:{ exists [], []. repeat split; auto. apply appended_log_calls. }
  destruct (collect w Gemini i _) as [gm_results|e].
  2:{ exists [], ds_results. repeat split; try discriminate.
      apply (appended_start_calls (dispatches DeepSeek (slice devices i (i + BATCH_SIZE)))).
      apply appended_log_calls. }
  destruct (build_gm_map gm_results []) as [gm_map|e].
  2:{ exists [], ds_results. repeat split; try discriminate.
      apply (appended_start_calls (dispatches DeepSeek (slice devices i (i + BATCH_SIZE)))).
      apply appended_log_calls. }
  match goal with
  | |- context [write_rows gm_map ds_results ?s] =>
    destruct (write_rows_appended gm_map ds_results s) as (ds & rest & H1 & H2 & H3 & _)
  end.
  exists ds, rest. repeat split; assumption.
Qed.

Lemma batch_loop_appended (w : world) (devices : list pystr) (starts : list nat)
    (st : state) :
  exists ds rest,
    concat (map (ds_results_of w devices) starts) = map JObj ds ++ rest
    /\ (snd (batch_loop w devices starts st) = Ok tt -> rest = [])
    /\ appended st (fst (batch_loop w devices starts st)) ds.
Proof.
  revert st. induction starts as [|i starts IH]; intros st; simpl.
  - exists [], []. repeat split; auto. apply appended_refl.
  - destruct (process_batch_appended w devices i st) as (ds1 & rest1 & H1 & Hok1 & Happ1).
    destruct (process_batch w devices i st) as [st' [u|e]]; simpl in *.
    + destruct u. rewrite (Hok1 eq_refl), List.app_nil_r in H1.
      destruct (IH st') as (ds2 & rest2 & H2 & Hok2 & Happ2).
      exists (ds1 ++ ds2), rest2. rewrite H1, H2, map_app, app_assoc.
      repeat split; [assumption|]. eapply appended_trans; eassumption.
    + exists ds1, (rest1 ++ concat (map (ds_results_of w devices) starts)).
      rewrite H1, app_assoc. repeat split; [discriminate|assumption].
Qed.

(** The lines a run appends: one per DeepSeek record, in collection
    order, up to the point where the run ends. *)
Lemma main_appended (w : world) :
  exists ds rest,
    primary_records w = map JObj ds ++ rest
    /\ (snd (main w) = Ok tt -> rest = [])
    /\ lines_of (output (fst (main w))) = lines_of (output_csv w) ++ written w
    /\ match ds with
       | [] => written w = [] /\ writer (fst (main w)) = None
       | d1st :: ds' =>
         exists gm_map merged cells rows,
           merge_row gm_map (JObj d1st) = Ok merged
           /\ writerow (Dict.keys merged) merged = Ok cells
           /\ writer (fst (main w)) = Some (Dict.keys merged)
           /\ Forall2 (row_of (Dict.keys merged)) ds' rows
           /\ written w = match output_csv w with
                          | Some _ => []
                          | None => [Header (Dict.keys merged)]
                          end ++ Row cells :: rows
       end.
Proof.
  unfold primary_records, labels_of, written, main.
  destruct (input_csv w) as [rows|e].
  2:{ exists [], []. simpl. rewrite skipn_all, List.app_nil_r. auto. }
  destruct (read_devices rows []) as [devices|e].
  2:{ exists [], []. simpl. rewrite skipn_all, List.app_nil_r. auto. }
  match goal with
  | |- context [batch_loop w devices ?ss ?s] =>
    destruct (batch_loop_appended w devices ss s) as (ds & rest & H1 & Hok & new & Hl & Happ);
    set (st' := fst (batch_loop w devices ss s)) in *
  end.
  assert (Hl' : lines_of (output st') = lines_of (output_csv w) ++ new).
  { rewrite Hl. simpl. destruct (output_csv w); reflexivity. }
  exists ds, rest. split; [exact H1|]. split; [exact Hok|].
  rewrite Hl', skipn_app_exact. split; [reflexivity|].
  simpl in Happ. destruct ds as [|d1st ds].
  - destruct Happ as (-> & Hw & _). auto.
  - destruct Happ as (gm & merged & cells & rs & Hm & Hc & Hw & _ & Hrows & ->).
    exists gm, merged, cells, rs. repeat split; try assumption.
    destruct (output_csv w); reflexivity.
Qed.

(** ** Dispatch *)

Lemma dispatches_one_label (p : provider) (batch : list pystr) :
  Forall one_label (dispatches p batch).
Proof.
  unfold dispatches. apply Forall_forall. intros c Hc.
  apply in_map_iff in Hc. destruct Hc as (dev & <- & _). reflexivity.
Qed.

Lemma process_batch_calls (w : world) (devices : list pystr) (i : nat) (st : state) :
  exists cs,
    calls (fst (process_batch w devices i st)) = calls st ++ cs
    /\ Forall one_label cs
    /\ (snd (process_batch w devices i st) = Ok tt ->
        cs = batch_dispatches (slice devices i (i + BATCH_SIZE))).
Proof.
  unfold process_batch, batch_dispatches.
  set (batch := slice devices i (i + BATCH_SIZE)).
  assert (Hboth : Forall one_label (dispatches DeepSeek batch ++ dispatches Gemini batch))
    by (apply Forall_app; split; apply dispatches_one_label).
  destruct (collect w DeepSeek i batch) as [ds_results|e].
  2:{ exists (dispatches DeepSeek batch). simpl.
      split; [reflexivity|]. split; [apply dispatches_one_label|discriminate]. }
  destruct (collect w Gemini i batch) as [gm_results|e].
  2:{ exists (dispatches DeepSeek batch ++ dispatches Gemini batch). simpl.
      rewrite app_assoc. split; [reflexivity|]. split; [assumption|discriminate]. }
  destruct (build_gm_map gm_results []) as [gm_map|e].
  2:{ exists (dispatches DeepSeek batch ++ dispatches Gemini batch). simpl.
      rewrite app_assoc. split; [reflexivity|]. split; [assumption|discriminate]. }
  match goal with
  | |- context [write_rows gm_map ds_results ?s] =>
    destruct (write_rows_appended gm_map ds_results s) as (_ & _ & _ & _ & _ & Hc)
  end.
  exists (dispatches DeepSeek batch ++ dispatches Gemini batch).
  rewrite Hc. simpl. rewrite app_assoc.
  split; [reflexivity|]. split; [assumption|reflexivity].
Qed.

Lemma batch_loop_calls (w : world) (devices : list pystr) (starts : list nat)
    (st : state) :
  exists cs,
    calls (fst (batch_loop w devices starts st)) = calls st ++ cs
    /\ Forall one_label cs
    /\ (snd (batch_loop w devices starts st) = Ok tt ->
        cs = concat (map (fun i => batch_dispatches (slice devices i (i + BATCH_SIZE)))
                         starts)).
Proof.
  revert st. induction starts as [|i starts IH]; intros st; simpl.
  - exists []. rewrite List.app_nil_r. split; [reflexivity|]. split; [constructor|reflexivity].
  - destruct (process_batch_calls w devices i st) as (cs1 & Hc1 & Hone1 & Hok1).
    destruct (process_batch w devices i st) as [st' [u|e]]; simpl in *.
    + destruct u. destruct (IH st') as (cs2 & Hc2 & Hone2 & Hok2).
      exists (cs1 ++ cs2). rewrite Hc2, Hc1, app_assoc.
      split; [reflexivity|]. split; [apply Forall_app; auto|].
      intros H. rewrite (Hok1 eq_refl), (Hok2 H). reflexivity.
    + exists cs1. split; [assumption|]. split; [assumption|discriminate].
Qed.

Lemma labels_of_batch_dispatches (p : provider) (bs : list (list pystr)) :
  concat (map snd (filter (fun c => provider_eqb (fst c) p)
                          (concat (map batch_dispatches bs))))
  = concat bs.
Proof.
  assert (Hsame : forall q b, provider_eqb q p = true ->
            concat (map snd (filter (fun c => provider_eqb (fst c) p) (dispatches q b))) = b).
  { intros q b Hq. induction b as [|dev b IH]; simpl; [reflexivity|].
    rewrite Hq. simpl. rewrite IH. reflexivity. }
  assert (Hother : forall q b, provider_eqb q p = false ->
            filter (fun c => provider_eqb (fst c) p) (dispatches q b) = []).
  { intros q b Hq. induction b as [|dev b IH]; simpl; [reflexivity|].
    rewrite Hq. exact IH. }
  induction bs as [|b bs IH]; [reflexivity|].
  cbn [map concat]. rewrite filter_app, map_app, concat_app.
  f_equal; [|exact IH].
  unfold batch_dispatches. rewrite filter_app, map_app, concat_app.
  destruct p.
  - transitivity (b ++ []); [|apply List.app_nil_r]. f_equal.
    + exact (Hsame DeepSeek b eq_refl).
    + exact (f_equal (fun l => concat (map snd l)) (Hother Gemini b eq_refl)).
  - transitivity ([] ++ b); [|reflexivity]. f_equal.
    + exact (f_equal (fun l => concat (map snd l)) (Hother DeepSeek b eq_refl)).
    + exact (Hsame Gemini b eq_refl).
Qed.

Lemma main_calls (w : world) :
  Forall one_label (calls (fst (main w)))
  /\ (snd (main w) = Ok tt ->
      calls (fst (main w)) = concat (map batch_dispatches (batches (labels_of w)))).
Proof.
  unfold main, labels_of, batches.
  destruct (input_csv w) as [rows|e]; [|split; [constructor|discriminate]].
  destruct (read_devices rows []) as [devices|e]; [|split; [constructor|discriminate]].
  match goal with
  | |- context [batch_loop w devices ?ss ?s] =>
    destruct (batch_loop_calls w devices ss s) as (cs & Hc & Hone & Hok)
  end.
  rewrite Hc. simpl. split; [exact Hone|].
  intros H. rewrite (Hok H), map_map. reflexivity.
Qed.

Lemma labels_in_app (p : provider) (cs cs' : list dispatch) :
  labels_in p (cs ++ cs') = labels_in p cs ++ labels_in p cs'.
Proof. unfold labels_in. rewrite filter_app, map_app, concat_app. reflexivity. Qed.

Lemma labels_in_dispatches (p q : provider) (batch : list pystr) :
  labels_in p (dispatches q batch) = if provider_eqb q p then batch else [].
Proof.
  unfold labels_in. induction batch as [|dev batch IH]; simpl.
  - destruct (provider_eqb q p); reflexivity.
  - destruct (provider_eqb q p); simpl in *; rewrite IH; reflexivity.
Qed.

(** Whatever ends a batch, a provider was sent all its labels or none. *)
Lemma process_batch_sent (w : world) (devices : list pystr) (i : nat) (st : state)
    (p : provider) :
  exists sent,
    labels_sent p (fst (process_batch w devices i st)) = labels_sent p st ++ sent
    /\ (sent = slice devices i (i + BATCH_SIZE)
        \/ (sent = [] /\ snd (process_batch w devices i st) <> Ok tt)).
Proof.
  unfold labels_sent, process_batch.
  set (batch := slice devices i (i + BATCH_SIZE)).
  destruct (collect w DeepSeek i batch) as [ds_results|e].
  2:{ cbn [fst snd calls log_calls]. rewrite labels_in_app, labels_in_dispatches.
      destruct p; simpl; eexists; split; try reflexivity; [now left|].
      right. split; [reflexivity|discriminate]. }
  assert (Hboth : labels_in p (calls st ++ dispatches DeepSeek batch ++ dispatches Gemini batch)
                  = labels_in p (calls st) ++ batch).
  { rewrite !labels_in_app, !labels_in_dispatches.
    destruct p; simpl; rewrite ?List.app_nil_r; reflexivity. }
  destruct (collect w Gemini i batch) as [gm_results|e].
  2:{ cbn [fst snd calls log_calls]. rewrite <- app_assoc, Hboth.
      eexists; split; [reflexivity|now left]. }
  destruct (build_gm_map gm_results []) as [gm_map|e].
  2:{ cbn [fst snd calls log_calls]. rewrite <- app_assoc, Hboth.
      eexists; split; [reflexivity|now left]. }
  match goal with
  | |- context [write_rows gm_map ds_results ?s] =>
    destruct (write_rows_appended gm_map ds_results s) as (_ & _ & _ & _ & _ & Hc)
  end.
  rewrite Hc. cbn [calls log_calls]. rewrite <- app_assoc, Hboth.
  eexists; split; [reflexivity|now left].
Qed.

Lemma batch_loop_sent (w : world) (devices : list pystr) (starts : list nat)
    (st : state) (p : provider) :
  exists done rest,
    starts = done ++ rest
    /\ labels_sent p (fst (batch_loop w devices starts st))
       = labels_sent p st
         ++ concat (map (fun i => slice devices i (i + BATCH_SIZE)) done).
Proof.
  revert st. induction starts as [|i starts IH]; intros st.
  - exists [], []. simpl. rewrite List.app_nil_r. split; reflexivity.
  - destruct (process_batch_sent w devices i st p) as (sent & Hsent & Hcase).
    cbn [batch_loop].
    destruct (process_batch w devices i st) as [st' [u|e]]; cbn [fst snd] in *.
    + destruct Hcase as [->|[_ Hno]]; [|destruct u; contradiction].
      destruct (IH st') as (done & rest & -> & Hl).
      exists (i :: done), rest. split; [reflexivity|].
      rewrite Hl, Hsent, <- app_assoc. reflexivity.
    + destruct Hcase as [->|[-> _]].
      * exists [i], starts. split; [reflexivity|].
        rewrite Hsent. simpl. rewrite List.app_nil_r. reflexivity.
      * exists [], (i :: starts). split; [reflexivity|]. rewrite Hsent. reflexivity.
Qed.

(** In every run, the labels sent to a provider are the labels of the
    run up to some point, in input order. *)
Lemma main_sent_prefix (w : world) (p : provider) :
  exists remaining, labels_of w = labels_sent p (fst (main w)) ++ remaining.
Proof.
  unfold main, labels_of.
  destruct (input_csv w) as [rows|e]; [|exists []; reflexivity].
  destruct (read_devices rows []) as [devices|e]; [|exists []; reflexivity].
  match goal with
  | |- context [batch_loop w devices ?ss ?s] =>
    destruct (batch_loop_sent w devices ss s p) as (done & rest & Hsplit & Hl)
  end.
  rewrite Hl.
  exists (concat (map (fun i => slice devices i (i + BATCH_SIZE)) rest)).
  change (labels_sent p (open_append _)) with (@nil pystr). cbn [app].
  rewrite <- concat_app, <- map_app, <- Hsplit.
  symmetry. apply batches_concat.
Qed.

(** C5: the labels are cut, in input order, into ceil(n/5) consecutive
    batches of five with a possibly shorter last one (two batches for seven
    labels); every call dispatched carries exactly one label; the labels
    sent to a provider are always the labels of the run in input order, up
    to the point where the run ends, and in a run that completes each
    provider is sent each label exactly once, batch by batch. *)
Theorem batches_and_dispatch :
  (forall devices,
      length (batches devices) = ((length devices + 4) / 5)%nat
      /\ concat (batches devices) = devices
      /\ forall k b, nth_error (batches devices) k = Some b ->
           b = slice devices (5 * k) (5 * k + 5)
           /\ (length b = 5%nat
               \/ (S k = length (batches devices) /\ 1 <= length b <= 5)%nat))
  /\ (forall devices, length devices = 7%nat -> length (batches devices) = 2%nat)
  /\ (forall w, Forall one_label (calls (fst (main w))))
  /\ (forall w p, exists remaining,
        labels_of w = labels_sent p (fst (main w)) ++ remaining)
  /\ (forall w, snd (main w) = Ok tt ->
        calls (fst (main w)) = concat (map batch_dispatches (batches (labels_of w)))
        /\ forall p, labels_sent p (fst (main w)) = labels_of w).
Proof.
  split.
  { intros devices. split; [apply batches_length|].
    split; [apply batches_concat|apply batches_nth]. }
  split.
  { intros devices H. rewrite batches_length, H. reflexivity. }
  split.
  { intros w. apply main_calls. }
  split.
  { intros w p. apply main_sent_prefix. }
  intros w H. destruct (main_calls w) as [_ Hc]. specialize (Hc H).
  split; [exact Hc|].
  intros p. unfold labels_sent. rewrite Hc.
  etransitivity; [apply labels_of_batch_dispatches|apply batches_concat].
Qed.

Lemma batches_and_dispatch_witness :
  length (batches SAMPLE_LABELS) = 2%nat
  /\ (exists b, nth_error (batches SAMPLE_LABELS) 1 = Some b /\ length b = 2%nat)
  /\ labels_sent DeepSeek (fst (main sample_world)) = SAMPLE_LABELS
  /\ labels_sent Gemini (fst (main sample_world)) = SAMPLE_LABELS.
Proof.
  destruct batches_and_dispatch as (Hcut & Hseven & _ & _ & Hsent).
  split; [apply Hseven; reflexivity|].
  split.
  - exists (slice SAMPLE_LABELS 5 10). split; [reflexivity|].
    destruct (Hcut SAMPLE_LABELS) as (_ & _ & Hnth).
    destruct (Hnth 1%nat _ eq_refl) as [_ [H|[_ H]]]; reflexivity.
  - assert (Hok : snd (main sample_world) = Ok tt) by (vm_compute; reflexivity).
    destruct (Hsent sample_world Hok) as [_ Hp].
    split; [exact (Hp DeepSeek)|exact (Hp Gemini)].
Defined.

(** ** C2: the reconciler *)

Lemma key_eqb_str_l (l : pystr) (x : json) :
  key_eqb (JStr l) x = true <-> x = JStr l.
Proof.
  destruct x; simpl; try (split; discriminate).
  rewrite pystr_eqb_eq. split; congruence.
Qed.

Lemma key_eqb_str_r (l : pystr) (x : json) :
  key_eqb x (JStr l) = true <-> x = JStr l.
Proof.
  destruct x; simpl; try (split; discriminate).
  rewrite pystr_eqb_eq. split; congruence.
Qed.

Lemma gm_map_get_set (label : pystr) (k v : json) (m : list (json * json)) :
  Dict.get key_eqb (JStr label) (Dict.set key_eqb k v m)
  = if key_eqb (JStr label) k then Some v else Dict.get key_eqb (JStr label) m.
Proof.
  induction m as [|[k0 v0] m IH]; cbn [Dict.get Dict.set]; [reflexivity|].
  destruct (key_eqb k k0) eqn:Hk; cbn [Dict.get].
  - assert (E : key_eqb (JStr label) k0 = key_eqb (JStr label) k).
    { destruct (key_eqb (JStr label) k0) eqn:H0.
      - apply key_eqb_str_l in H0. subst k0.
        apply key_eqb_str_r in Hk. subst k.
        symmetry. apply key_eqb_str_l. reflexivity.
      - destruct (key_eqb (JStr label) k) eqn:H1; [|reflexivity].
        apply key_eqb_str_l in H1. subst k.
        congruence. }
    rewrite E. destruct (key_eqb (JStr label) k); reflexivity.
  - rewrite IH.
    destruct (key_eqb (JStr label) k0) eqn:H0; [|reflexivity].
    destruct (key_eqb (JStr label) k) eqn:H1; [|reflexivity].
    apply key_eqb_str_l in H0, H1. subst k0 k.
    rewrite (proj2 (key_eqb_str_l label (JStr label)) eq_refl) in Hk.
    discriminate Hk.
Qed.

Lemma find_app {A} (f : A -> bool) (a b : list A) :
  List.find f (a ++ b)
  = match List.find f a with
    | Some x => Some x
    | None => List.find f b
    end.
Proof.
  induction a as [|x a IH]; simpl; [reflexivity|].
  destruct (f x); [reflexivity|exact IH].
Qed.

Lemma last_secondary_cons (label : pystr) (r : json) (rs : list json) :
  last_secondary label (r :: rs)
  = match last_secondary label rs with
    | Some x => Some x
    | None => if has_label label r then Some r else None
    end.
Proof. unfold last_secondary. simpl. rewrite find_app. reflexivity. Qed.

Lemma build_gm_map_lookup (label : pystr) (rs : list json) (m : list (json * json)) :
  Forall secondary_record rs ->
  exists m',
    build_gm_map rs m = Ok m'
    /\ Dict.get key_eqb (JStr label) m'
       = match last_secondary label rs with
         | Some r => Some r
         | None => Dict.get key_eqb (JStr label) m
         end.
Proof.
  intros H. revert m. induction H as [|r rs (d & -> & Hh) _ IH]; intros m.
  - exists m. split; reflexivity.
  - rewrite last_secondary_cons. cbn [build_gm_map contains_odm rbind].
    unfold Dict.mem, has_label, getitem_str. fold (rget ODM d).
    unfold rget_or_none in Hh.
    destruct (rget ODM d) as [k|] eqn:Hk.
    + cbn [rbind]. rewrite Hh.
      destruct (IH (Dict.set key_eqb k (JObj d) m)) as (m' & Hb & Hg).
      exists m'. split; [exact Hb|]. rewrite Hg, gm_map_get_set.
      destruct (last_secondary label rs); [reflexivity|].
      destruct (key_eqb (JStr label) k) eqn:E.
      * apply key_eqb_str_l in E. subst k. rewrite pystr_eqb_refl. reflexivity.
      * destruct k; try reflexivity.
        destruct (pystr_eqb s label) eqn:E'; [|reflexivity].
        apply pystr_eqb_eq in E'. subst s.
        simpl in E. rewrite pystr_eqb_refl in E. discriminate E.
    + destruct (IH m) as (m' & Hb & Hg).
      exists m'. split; [exact Hb|]. rewrite Hg.
      destruct (last_secondary label rs); reflexivity.
Qed.

Lemma rget_app (k : pystr) (d e : record) :
  rget k (d ++ e) = match rget k d with
                    | Some v => Some v
                    | None => rget k e
                    end.
Proof.
  unfold rget. induction d as [|[k0 v0] d IH]; simpl; [reflexivity|].
  destruct (pystr_eqb k k0); [reflexivity|exact IH].
Qed.

Lemma rset_append (k : pystr) (v : json) (d : record) :
  rget k d = None -> rset k v d = d ++ [(k, v)].
Proof.
  unfold rget, rset. induction d as [|[k0 v0] d IH]; simpl; [reflexivity|].
  destruct (pystr_eqb k k0); [discriminate|].
  intros H. rewrite (IH H). reflexivity.
Qed.

Lemma merge_row_fresh (gm_map : list (json * json)) (primary : record) (label : pystr)
    (gm : record) :
  rget ODM primary = Some (JStr label) ->
  (forall k, In k GEMINI_FIELDS -> rget k primary = None) ->
  match Dict.get key_eqb (JStr label) gm_map with
  | Some g => g
  | None => JObj []
  end = JObj gm ->
  merge_row gm_map (JObj primary)
  = Ok (primary ++ combine GEMINI_FIELDS (map (fun f => rget_or_none f gm) SECONDARY_FIELDS)).
Proof.
  intros Hodm Hfresh Hgm.
  assert (Hodm' : rget_or_none ODM primary = JStr label)
    by (unfold rget_or_none; rewrite Hodm; reflexivity).
  unfold merge_row. rewrite Hodm'. cbv zeta. cbn [hashable]. rewrite Hgm. cbn [py_get rbind].
  assert (Hstep : forall k v e,
            In k GEMINI_FIELDS -> rget k e = None ->
            rset k v (primary ++ e) = primary ++ e ++ [(k, v)]).
  { intros k v e Hin He. rewrite rset_append, <- app_assoc; [reflexivity|].
    rewrite rget_app, (Hfresh k Hin). exact He. }
  rewrite <- (List.app_nil_r primary) at 1.
  repeat (rewrite Hstep; [|simpl; tauto|reflexivity]).
  reflexivity.
Qed.

Lemma has_label_dict (label : pystr) (r : json) :
  has_label label r = true -> exists d, r = JObj d.
Proof. destruct r; try discriminate. eauto. Qed.

Lemma find_all_false {A} (f : A -> bool) (l : list A) :
  (forall x, In x l -> f x = false) -> List.find f l = None.
Proof.
  induction l as [|x l IH]; intros H; simpl; [reflexivity|].
  rewrite (H x (or_introl eq_refl)). apply IH.
  intros y Hy. apply H. now right.
Qed.

Lemma last_secondary_split (label : pystr) (rs rs' : list json) (d : record) :
  has_label label (JObj d) = true ->
  (forall r, In r rs' -> has_label label r = false) ->
  last_secondary label (rs ++ JObj d :: rs') = Some (JObj d).
Proof.
  intros Hd Hrs'. unfold last_secondary.
  rewrite rev_app_distr. simpl. rewrite <- app_assoc, find_app.
  assert (Hnone : List.find (has_label label) (rev rs') = None).
  { apply find_all_false. intros r Hr. apply Hrs'. apply in_rev. exact Hr. }
  rewrite Hnone. cbn [List.find app]. rewrite Hd. reflexivity.
Qed.

(** C2: for a primary record for [label] (a dict without the six
    qualified keys) and a list of secondary records, the merged record is
    the primary record, unchanged, followed by the six qualified fields;
    their values are those of the last secondary record whose
    origin_device_model is [label], and null when there is none, as for an
    empty list. *)
Theorem reconciler_merges (primary : record) (label : pystr) (secondary : list json) :
  rget ODM primary = Some (JStr label) ->
  (forall k, In k GEMINI_FIELDS -> rget k primary = None) ->
  Forall secondary_record secondary ->
  reconcile secondary (JObj primary)
  = Ok (primary ++ combine GEMINI_FIELDS
                     (map (secondary_value label secondary) SECONDARY_FIELDS))
  /\ (forall rs d rs',
        secondary = rs ++ JObj d :: rs' ->
        has_label label (JObj d) = true ->
        (forall r, In r rs' -> has_label label r = false) ->
        forall f, secondary_value label secondary f = rget_or_none f d)
  /\ ((forall r, In r secondary -> has_label label r = false) ->
        forall f, secondary_value label secondary f = JNull)
  /\ (secondary = [] -> forall f, secondary_value label secondary f = JNull).
Proof.
  intros Hodm Hfresh Hsec. split; [|split; [|split]].
  - unfold reconcile.
    destruct (build_gm_map_lookup label secondary [] Hsec) as (gm_map & Hb & Hg).
    rewrite Hb. cbn [rbind Dict.get] in *.
    unfold secondary_value.
    destruct (last_secondary label secondary) as [r|] eqn:Hlast.
    + destruct (has_label_dict label r) as [d ->].
      { unfold last_secondary in Hlast. apply find_some in Hlast. apply Hlast. }
      rewrite (merge_row_fresh gm_map primary label d Hodm Hfresh);
        [reflexivity|rewrite Hg; reflexivity].
    + rewrite (merge_row_fresh gm_map primary label [] Hodm Hfresh);
        [reflexivity|rewrite Hg; reflexivity].
  - intros rs d rs' -> Hd Hrs' f. unfold secondary_value.
    rewrite (last_secondary_split label rs rs' d Hd Hrs'). reflexivity.
  - intros Hnone f. unfold secondary_value, last_secondary.
    assert (E : List.find (has_label label) (rev secondary) = None).
    { apply find_all_false. intros r Hr. apply Hnone. apply in_rev. exact Hr. }
    rewrite E. reflexivity.
  - intros -> f. reflexivity.
Qed.

Lemma reconciler_merges_witness :
  reconcile SAMPLE_SECONDARY (JObj SAMPLE_PRIMARY)
  = Ok (SAMPLE_PRIMARY ++
        [(str "gemini_mapped_brand", JStr (str "HUAWEI"));
         (str "gemini_mapped_device_model", JNull);
         (str "gemini_cpu_name", JNull);
         (str "gemini_cpu_core", JInt 8);
         (str "gemini_ram", JNull);
         (str "gemini_refresh_rate", JNull)]).
Proof.
  refine (proj1 (reconciler_merges SAMPLE_PRIMARY (str "TAS-AN00") SAMPLE_SECONDARY
                   eq_refl _ _)).
  - intros k Hk. simpl in Hk.
    repeat (destruct Hk as [<-|Hk]; [reflexivity|]). destruct Hk.
  - repeat constructor; eexists; split; reflexivity.
Defined.

(** ** C8: the input file *)

Lemma dict_get_set {V} (k k' : pystr) (v : V) (d : list (pystr * V)) :
  Dict.get pystr_eqb k (Dict.set pystr_eqb k' v d)
  = if pystr_eqb k k' then Some v else Dict.get pystr_eqb k d.
Proof.
  induction d as [|[k0 v0] d IH]; cbn [Dict.get Dict.set]; [reflexivity|].
  destruct (pystr_eqb k' k0) eqn:E; cbn [Dict.get].
  - apply pystr_eqb_eq in E. subst k0.
    destruct (pystr_eqb k k'); reflexivity.
  - rewrite IH. destruct (pystr_eqb k k0) eqn:E0; [|reflexivity].
    apply pystr_eqb_eq in E0. subst k0.
    destruct (pystr_eqb k k') eqn:E1; [|reflexivity].
    apply pystr_eqb_eq in E1. subst k'. rewrite pystr_eqb_refl in E. discriminate E.
Qed.

Lemma clean_row_keys_no_column (row : csv_row) (acc r : list (pystr * option pystr)) :
  (forall k v, In (Some k, v) row -> clean_key k <> ODM) ->
  Dict.get pystr_eqb ODM acc = None ->
  clean_row_keys row acc = Ok r ->
  Dict.get pystr_eqb ODM r = None.
Proof.
  revert acc. induction row as [|[[k|] v] row IH]; intros acc Hrow Hacc H; simpl in H.
  - injection H as <-. exact Hacc.
  - apply (IH (Dict.set pystr_eqb (clean_key k) v acc)); [| |exact H].
    + intros k' v' Hin. apply (Hrow k' v'). now right.
    + rewrite dict_get_set.
      destruct (pystr_eqb ODM (clean_key k)) eqn:E; [|exact Hacc].
      apply pystr_eqb_eq in E. exfalso.
      apply (Hrow k v); [now left|]. symmetry. exact E.
  - discriminate H.
Qed.

Lemma clean_row_keys_regular (row : csv_row) (acc : list (pystr * option pystr)) :
  (forall v, ~ In (None, v) row) -> exists r, clean_row_keys row acc = Ok r.
Proof.
  revert acc. induction row as [|[[k|] v] row IH]; intros acc H; simpl.
  - eauto.
  - apply IH. intros v' Hin. apply (H v'). now right.
  - exfalso. apply (H v). now left.
Qed.

Lemma read_devices_no_column (rows : list csv_row) (acc devices : list pystr) :
  missing_column rows ->
  read_devices rows acc = Ok devices -> devices = acc.
Proof.
  revert acc. induction rows as [|row rows IH]; intros acc Hmiss H; simpl in H.
  - congruence.
  - destruct (clean_row_keys row []) as [r|e] eqn:Hr; simpl in H; [|discriminate H].
    assert (Hget : Dict.get pystr_eqb ODM r = None).
    { apply (clean_row_keys_no_column row [] r); [|reflexivity|exact Hr].
      intros k v Hin. apply (Hmiss row k v); [now left|exact Hin]. }
    rewrite Hget in H. apply IH; [|exact H].
    intros row' k v Hin. apply Hmiss. now right.
Qed.

Lemma read_devices_regular (rows : list csv_row) (acc : list pystr) :
  regular_rows rows -> exists devices, read_devices rows acc = Ok devices.
Proof.
  revert acc. induction rows as [|row rows IH]; intros acc Hreg; simpl; [eauto|].
  destruct (clean_row_keys_regular row []) as [r Hr].
  { intros v. apply Hreg. now left. }
  rewrite Hr. simpl.
  assert (Hrest : regular_rows rows) by (intros row' v Hin; apply Hreg; now right).
  destruct (Dict.get pystr_eqb ODM r) as [[d|]|]; try apply (IH _ Hrest).
  destruct d as [|c d]; [apply (IH _ Hrest)|].
  match goal with
  | |- context [if ?b then read_devices rows acc else _] => destruct b
  end; apply (IH _ Hrest).
Qed.

(** C8, as stated, fails: with an input file that has no
    origin_device_model column, the run is not aborted; it makes no call
    and returns normally. *)
Lemma missing_column_is_not_fatal :
  (exists rows, input_csv NO_COLUMN_WORLD = Ok rows /\ missing_column rows)
  /\ snd (main NO_COLUMN_WORLD) = Ok tt
  /\ ~ (exists e, snd (main NO_COLUMN_WORLD) = Raise e).
Proof.
  split; [|split; [reflexivity|intros [e H]; discriminate H]].
  eexists. split; [reflexivity|].
  intros row k v Hrow Hin. simpl in Hrow.
  destruct Hrow as [<-|[<-|[]]]; destruct Hin as [Hin|[]];
    injection Hin as <- _; vm_compute; discriminate.
Qed.

(** C8, amended: an unreadable input file is fatal, the run ends with the
    exception before any provider call and leaves the output file as it
    was; an input file without the origin_device_model column is not an
    error: no label is collected, no provider call is made and nothing is
    written, and the run returns normally when no line has more cells than
    the header. *)
Theorem input_file_failures (w : world) :
  (forall e, input_csv w = Raise e ->
      snd (main w) = Raise e
      /\ calls (fst (main w)) = []
      /\ output (fst (main w)) = output_csv w)
  /\ (forall rows, input_csv w = Ok rows -> missing_column rows ->
      labels_of w = []
      /\ calls (fst (main w)) = []
      /\ written w = []
      /\ (regular_rows rows -> snd (main w) = Ok tt)).
Proof.
  split.
  - intros e H. unfold main. rewrite H. auto.
  - intros rows H Hmiss. unfold written, labels_of, main. rewrite H.
    destruct (read_devices rows []) as [devices|e] eqn:Hr.
    + apply (read_devices_no_column _ _ _ Hmiss) in Hr. subst devices. simpl.
      repeat split; auto.
      destruct (output_csv w); simpl; [apply skipn_all|reflexivity].
    + simpl. repeat split; auto; [apply skipn_all|].
      intros Hreg. destruct (read_devices_regular rows [] Hreg) as [ds Hds]. congruence.
Qed.

Lemma input_file_failures_witness :
  snd (main UNREADABLE_WORLD) = Raise OSError
  /\ calls (fst (main NO_COLUMN_WORLD)) = []
  /\ snd (main NO_COLUMN_WORLD) = Ok tt.
Proof.
  split.
  - apply (proj1 (input_file_failures UNREADABLE_WORLD) OSError eq_refl).
  - destruct (proj2 (input_file_failures NO_COLUMN_WORLD) _ eq_refl)
      as (_ & Hcalls & _ & Hok).
    + intros row k v Hrow Hin. simpl in Hrow.
      destruct Hrow as [<-|[<-|[]]]; destruct Hin as [Hin|[]];
        injection Hin as <- _; vm_compute; discriminate.
    + split; [exact Hcalls|]. apply Hok.
      intros row v Hrow Hin. simpl in Hrow.
      destruct Hrow as [<-|[<-|[]]]; destruct Hin as [Hin|[]]; discriminate Hin.
Defined.

(** ** Merged rows and written lines *)

Lemma merge_row_shape (gm_map : list (json * json)) (d merged : record) :
  merge_row gm_map (JObj d) = Ok merged ->
  exists vs,
    length vs = 6%nat
    /\ merged = fold_left (fun acc kv => rset (fst kv) (snd kv) acc)
                          (combine GEMINI_FIELDS vs) d.
Proof.
  intros H. unfold merge_row in H.
  destruct (hashable (rget_or_none ODM d)); [|discriminate H].
  cbv zeta in H. unfold rbind in H.
  repeat match type of H with
  | context [match py_get ?g ?f with _ => _ end] =>
    destruct (py_get g f); [|discriminate H]
  end.
  injection H as <-.
  eexists [_; _; _; _; _; _]. split; reflexivity.
Qed.

Lemma fold_rset_fresh (kvs : list (pystr * json)) (d : record) :
  (forall k, In k (map fst kvs) -> rget k d = None) ->
  NoDup (map fst kvs) ->
  fold_left (fun acc kv => rset (fst kv) (snd kv) acc) kvs d = d ++ kvs.
Proof.
  revert d. induction kvs as [|[k v] kvs IH]; intros d Hfresh Hnodup; simpl.
  - symmetry. apply List.app_nil_r.
  - simpl in Hnodup. inversion Hnodup as [|? ? Hnotin Hnodup']; subst.
    rewrite rset_append by (apply Hfresh; now left).
    rewrite IH; [rewrite <- app_assoc; reflexivity| |exact Hnodup'].
    intros k' Hk'. rewrite rget_app, (Hfresh k') by (now right).
    unfold rget. simpl. destruct (pystr_eqb k' k) eqn:E; [|reflexivity].
    apply pystr_eqb_eq in E. subst k'. contradiction.
Qed.

Lemma rget_rset_other (k k' : pystr) (v : json) (d : record) :
  k <> k' -> rget k (rset k' v d) = rget k d.
Proof.
  intros Hne. unfold rget, rset. rewrite dict_get_set.
  destruct (pystr_eqb k k') eqn:E; [|reflexivity].
  apply pystr_eqb_eq in E. contradiction.
Qed.

Lemma rget_fold_rset_other (k : pystr) (kvs : list (pystr * json)) (d : record) :
  ~ In k (map fst kvs) ->
  rget k (fold_left (fun acc kv => rset (fst kv) (snd kv) acc) kvs d) = rget k d.
Proof.
  revert d. induction kvs as [|[k' v] kvs IH]; intros d Hk; simpl; [reflexivity|].
  rewrite IH by (intros Hin; apply Hk; now right).
  apply rget_rset_other. intros ->. apply Hk. now left.
Qed.

Lemma combine_fst {A B} (l : list A) (l' : list B) :
  length l = length l' -> map fst (combine l l') = l.
Proof.
  revert l'. induction l as [|x l IH]; intros [|y l'] H; simpl in *;
    try discriminate; [reflexivity|].
  rewrite IH by lia. reflexivity.
Qed.

Lemma GEMINI_FIELDS_NoDup : NoDup GEMINI_FIELDS.
Proof.
  unfold GEMINI_FIELDS.
  repeat (constructor; [cbv; intuition discriminate|]). constructor.
Qed.

(** The merged row keeps the label of the DeepSeek row. *)
Lemma merge_row_odm (gm_map : list (json * json)) (d merged : record) :
  merge_row gm_map (JObj d) = Ok merged -> rget ODM merged = rget ODM d.
Proof.
  intros H. destruct (merge_row_shape _ _ _ H) as (vs & Hlen & ->).
  apply rget_fold_rset_other. rewrite combine_fst by exact (eq_sym Hlen).
  cbv. intuition discriminate.
Qed.

(** Its keys are those of the DeepSeek row followed by the six added
    ones. *)
Lemma merge_row_keys (gm_map : list (json * json)) (d merged : record) :
  no_qualified_keys d ->
  merge_row gm_map (JObj d) = Ok merged ->
  Dict.keys merged = Dict.keys d ++ GEMINI_FIELDS.
Proof.
  intros Hfresh H. destruct (merge_row_shape _ _ _ H) as (vs & Hlen & ->).
  assert (Hk : map fst (combine GEMINI_FIELDS vs) = GEMINI_FIELDS)
    by (apply combine_fst; exact (eq_sym Hlen)).
  rewrite fold_rset_fresh.
  - unfold Dict.keys. rewrite map_app, Hk. reflexivity.
  - rewrite Hk. exact Hfresh.
  - rewrite Hk. exact GEMINI_FIELDS_NoDup.
Qed.

Lemma writerow_cells (fs : list pystr) (merged : record) (cells : list json) :
  writerow fs merged = Ok cells ->
  cells = map (fun k => match rget k merged with
                        | Some v => v
                        | None => JStr []
                        end) fs.
Proof.
  unfold writerow. destruct (forallb _ _); [|discriminate].
  intros H. injection H as <-. reflexivity.
Qed.

Lemma row_of_data_row (fs : list pystr) (d : record) (l : line) :
  row_of fs d l -> is_data_row fs l.
Proof.
  intros (gm & merged & cells & _ & Hc & ->).
  exists cells. split; [reflexivity|].
  rewrite (writerow_cells _ _ _ Hc). apply length_map.
Qed.

Lemma rows_are_data_rows (fs : list pystr) (ds : list record) (rows : list line) :
  Forall2 (row_of fs) ds rows -> Forall (is_data_row fs) rows.
Proof.
  induction 1 as [|d l ds rows Hrow _ IH]; constructor; [|exact IH].
  eapply row_of_data_row; exact Hrow.
Qed.

Lemma header_not_data_row (fs fs' : list pystr) (rows : list line) :
  Forall (is_data_row fs) rows -> ~ In (Header fs') rows.
Proof.
  intros H Hin. rewrite Forall_forall in H.
  destruct (H _ Hin) as (cells & E & _). discriminate E.
Qed.

(** ** C9: header, columns, appending *)

(** C9, as stated, fails in both directions of its equivalence: when the
    output file exists but is empty no header is written before the rows,
    and when it does not exist and no row is written there is no header
    either. *)
Lemma header_depends_on_existence_and_rows :
  ~ header_iff_no_content EMPTY_FILE_WORLD
  /\ (exists cells, written EMPTY_FILE_WORLD = [Row cells])
  /\ ~ header_iff_no_content NO_ANSWER_WORLD
  /\ written NO_ANSWER_WORLD = [].
Proof.
  split; [|split; [|split]].
  - intros [_ H]. destruct H as [fs Hin].
    + intros (ls & E & Hne). injection E as <-. apply Hne. reflexivity.
    + vm_compute in Hin. destruct Hin as [Hin|[]]. discriminate Hin.
  - eexists. vm_compute. reflexivity.
  - intros [_ H]. destruct H as [fs Hin].
    + intros (ls & E & _). discriminate E.
    + vm_compute in Hin. destruct Hin.
  - vm_compute. reflexivity.
Qed.

(** C9, amended: what a run writes is appended to the content the output
    file had; a header is written exactly when the file did not exist at
    startup and at least one row is written, and it then precedes the
    rows; the columns are the keys of the first row as merged (the keys of
    the DeepSeek record followed by the six added ones) and every row
    written in the run has exactly these columns. *)
Theorem output_file_format (w : world) :
  lines_of (output (fst (main w))) = lines_of (output_csv w) ++ written w
  /\ ((exists fs, In (Header fs) (written w))
      <-> (output_csv w = None /\ exists cells, In (Row cells) (written w)))
  /\ (writer (fst (main w)) = None -> written w = [])
  /\ (forall fs, writer (fst (main w)) = Some fs ->
      exists d1st gm_map merged cells rows,
        hd_error (primary_records w) = Some (JObj d1st)
        /\ merge_row gm_map (JObj d1st) = Ok merged
        /\ fs = Dict.keys merged
        /\ (no_qualified_keys d1st -> fs = Dict.keys d1st ++ GEMINI_FIELDS)
        /\ writerow fs merged = Ok cells
        /\ Forall (is_data_row fs) rows
        /\ written w = match output_csv w with
                       | Some _ => []
                       | None => [Header fs]
                       end ++ Row cells :: rows).
Proof.
  destruct (main_appended w) as (ds & rest & Hrec & _ & Hlines & Hcase).
  split; [exact Hlines|].
  destruct ds as [|d1st ds'].
  - destruct Hcase as [Hwr Hnone]. rewrite Hwr.
    split; [|split; [reflexivity|intros fs H; congruence]].
    split; [intros [fs []]|intros [_ [cells []]]].
  - destruct Hcase as (gm & merged & cells & rows & Hm & Hc & Hw & Hrows & Hwr).
    pose proof (rows_are_data_rows _ _ _ Hrows) as Hdata.
    split; [|split].
    + rewrite Hwr. split.
      * intros [fs Hin]. destruct (output_csv w) as [ls|].
        -- exfalso. simpl in Hin. destruct Hin as [Hin|Hin]; [discriminate Hin|].
           exact (header_not_data_row _ _ _ Hdata Hin).
        -- split; [reflexivity|]. exists cells. simpl. right. now left.
      * intros [-> _]. exists (Dict.keys merged). now left.
    + intros H. congruence.
    + intros fs Hfs. rewrite Hw in Hfs. injection Hfs as <-.
      exists d1st, gm, merged, cells, rows.
      split; [rewrite Hrec; reflexivity|]. split; [exact Hm|].
      split; [reflexivity|].
      split; [intros Hfresh; exact (merge_row_keys _ _ _ Hfresh Hm)|].
      split; [exact Hc|]. split; [exact Hdata|exact Hwr].
Qed.

Lemma output_file_format_witness :
  exists fs cells rows,
    written sample_world = Header fs :: Row cells :: rows
    /\ Forall (is_data_row fs) rows.
Proof.
  destruct (output_file_format sample_world) as (_ & _ & _ & H).
  destruct (writer (fst (main sample_world))) as [fs|] eqn:E.
  - destruct (H fs eq_refl) as (d & gm & merged & cells & rows & _ & _ & _ & _ & _ & Hd & Hw).
    exists fs, cells, rows. split; [exact Hw|exact Hd].
  - vm_compute in E. discriminate E.
Defined.

(** ** C7: rows and primary records *)

Lemma Permutation_concat {A} (l l' : list (list A)) :
  Permutation l l' -> Permutation (concat l) (concat l').
Proof.
  induction 1 as [|x l l' _ IH|x y l|l l' l'' _ IH1 _ IH2]; simpl.
  - constructor.
  - apply Permutation_app_head. exact IH.
  - rewrite !app_assoc. apply Permutation_app_tail. apply Permutation_app_comm.
  - etransitivity; eassumption.
Qed.

Lemma Permutation_concat_map {A B} (f g : A -> list B) (l : list A) :
  (forall x, Permutation (f x) (g x)) ->
  Permutation (concat (map f l)) (concat (map g l)).
Proof.
  intros H. induction l as [|x l IH]; simpl; [constructor|].
  apply Permutation_app; [apply H|exact IH].
Qed.

Lemma primary_records_returned (w : world) :
  fair_arrival w -> Permutation (primary_records w) (primary_returned w).
Proof.
  intros Hfair. unfold primary_records, primary_returned.
  apply Permutation_concat_map. intros i. unfold ds_results_of.
  destruct (collect_successes w DeepSeek i (slice (labels_of w) i (i + BATCH_SIZE)) Hfair)
    as (ls & Hperm & ->).
  apply Permutation_concat. exact Hperm.
Qed.

Lemma column_of_cells (fs : list pystr) (g : pystr -> json) (k : pystr) (v : json) :
  column fs (map g fs) k = Some v -> v = g k.
Proof.
  unfold column. induction fs as [|k0 fs IH]; simpl; [discriminate|].
  destruct (pystr_eqb k k0) eqn:E.
  - apply pystr_eqb_eq in E. subst k0. congruence.
  - exact IH.
Qed.

Lemma row_of_label (fs : list pystr) (d : record) (cells : list json) (label : pystr) :
  row_of fs d (Row cells) -> label <> [] ->
  column fs cells ODM = Some (JStr label) ->
  has_label label (JObj d) = true.
Proof.
  intros (gm & merged & cells' & Hm & Hc & E) Hne Hcol.
  injection E as ->. rewrite (writerow_cells _ _ _ Hc) in Hcol.
  apply column_of_cells in Hcol.
  rewrite (merge_row_odm _ _ _ Hm) in Hcol. simpl.
  destruct (rget ODM d) as [v|]; [|congruence].
  subst v. apply pystr_eqb_refl.
Qed.

Lemma Forall2_in_r {A B} (P : A -> B -> Prop) (l : list A) (l' : list B) (y : B) :
  Forall2 P l l' -> In y l' -> exists x, In x l /\ P x y.
Proof.
  induction 1 as [|x y' l l' Hxy _ IH]; intros Hin; [destruct Hin|].
  destruct Hin as [->|Hin].
  - exists x. split; [now left|exact Hxy].
  - destruct (IH Hin) as (x' & Hx' & Hp). exists x'. split; [now right|exact Hp].
Qed.

Lemma filter_data_rows (fs : list pystr) (rows : list line) :
  Forall (is_data_row fs) rows -> filter is_row rows = rows.
Proof.
  induction 1 as [|l rows (cells & -> & _) _ IH]; simpl; [reflexivity|].
  rewrite IH. reflexivity.
Qed.

(** The rows written, and the records they were made from. *)
Lemma main_rows (w : world) :
  exists ds rest,
    primary_records w = map JObj ds ++ rest
    /\ (snd (main w) = Ok tt -> rest = [])
    /\ length (data_rows w) = length ds
    /\ forall fs cells,
         writer (fst (main w)) = Some fs -> In (Row cells) (written w) ->
         exists d, In d ds /\ row_of fs d (Row cells).
Proof.
  destruct (main_appended w) as (ds & rest & Hrec & Hok & _ & Hcase).
  exists ds, rest. split; [exact Hrec|]. split; [exact Hok|].
  unfold data_rows. destruct ds as [|d1st ds'].
  - destruct Hcase as [-> _]. split; [reflexivity|]. intros fs cells _ [].
  - destruct Hcase as (gm & merged & cells1 & rows & Hm & Hc & Hw & Hrows & ->).
    pose proof (rows_are_data_rows _ _ _ Hrows) as Hdata.
    assert (Hfirst : row_of (Dict.keys merged) d1st (Row cells1))
      by (eapply row_of_intro; eassumption).
    split.
    + rewrite filter_app.
      replace (filter is_row match output_csv w with
                             | Some _ => []
                             | None => [Header (Dict.keys merged)]
                             end) with (@nil line) by (destruct (output_csv w); reflexivity).
      simpl. rewrite (filter_data_rows _ _ Hdata).
      exact (f_equal S (eq_sym (Forall2_length Hrows))).
    + intros fs cells Hfs Hin. rewrite Hw in Hfs. injection Hfs as <-.
      apply in_app_or in Hin. destruct Hin as [Hin|[Hin|Hin]].
      * destruct (output_csv w); simpl in Hin; [destruct Hin|].
        destruct Hin as [Hin|[]]. discriminate Hin.
      * injection Hin as <-. exists d1st. split; [now left|exact Hfirst].
      * destruct (Forall2_in_r _ _ _ _ Hrows Hin) as (d & Hd & Hp).
        exists d. split; [now right|exact Hp].
Qed.

(** C7, as stated, fails: when the input lists a label twice and
    DeepSeek answers both calls, two rows are written for one distinct
    answered label. *)
Lemma rows_exceed_distinct_labels :
  length (data_rows DUPLICATE_WORLD) = 2%nat
  /\ length (answered_labels DUPLICATE_WORLD) = 1%nat
  /\ ~ (length (data_rows DUPLICATE_WORLD)
        <= length (answered_labels DUPLICATE_WORLD))%nat.
Proof.
  assert (H1 : length (data_rows DUPLICATE_WORLD) = 2%nat) by (vm_compute; reflexivity).
  assert (H2 : length (answered_labels DUPLICATE_WORLD) = 1%nat) by (vm_compute; reflexivity).
  rewrite H1, H2. repeat split. lia.
Qed.

(** C7, amended: one row is written per record DeepSeek returned, so
    the number of rows is at most the number of records DeepSeek returned
    in the run, counted with repetitions, and equal to it when the run
    completes; every row carries the label of the DeepSeek record it was
    made from, so a label for which no DeepSeek record was returned, as
    when only Gemini answered it, has no row. *)
Theorem rows_come_from_primary_records (w : world) :
  fair_arrival w ->
  (length (data_rows w) <= length (primary_returned w))%nat
  /\ (snd (main w) = Ok tt -> length (data_rows w) = length (primary_returned w))
  /\ (forall label, label <> [] ->
        (forall r, In r (primary_returned w) -> has_label label r = false) ->
        forall fs cells,
          writer (fst (main w)) = Some fs -> In (Row cells) (written w) ->
          column fs cells ODM <> Some (JStr label)).
Proof.
  intros Hfair.
  pose proof (primary_records_returned w Hfair) as Hperm.
  destruct (main_rows w) as (ds & rest & Hrec & Hok & Hlen & Hrows).
  assert (Htotal : length (primary_returned w) = (length ds + length rest)%nat).
  { rewrite <- (Permutation_length Hperm), Hrec, length_app, length_map. reflexivity. }
  split; [lia|]. split.
  - intros H. rewrite (Hok H) in Htotal. simpl in Htotal. lia.
  - intros label Hne Hnone fs cells Hfs Hin Hcol.
    destruct (Hrows fs cells Hfs Hin) as (d & Hd & Hrow).
    pose proof (row_of_label _ _ _ _ Hrow Hne Hcol) as Hlab.
    rewrite Hnone in Hlab; [discriminate Hlab|].
    apply (Permutation_in _ Hperm). rewrite Hrec.
    apply in_or_app. left. apply in_map. exact Hd.
Qed.

Lemma rows_come_from_primary_records_witness :
  length (data_rows sample_world) = length (primary_returned sample_world)
  /\ forall fs cells,
       writer (fst (main sample_world)) = Some fs ->
       In (Row cells) (written sample_world) ->
       column fs cells ODM <> Some (JStr (str "M2012K11AC")).
Proof.
  destruct (rows_come_from_primary_records sample_world sample_world_fair)
    as (_ & Heq & Hlabel).
  split.
  - apply Heq. vm_compute. reflexivity.
  - apply Hlabel; [discriminate|].
    intros r Hr. vm_compute in Hr.
    repeat (destruct Hr as [<-|Hr]; [vm_compute; reflexivity|]). destruct Hr.
Defined.

(** ** C6: the extractor finds an array between bracket-free texts *)

Lemma lstrip_before (a : pystr) (c : char) (r : pystr) :
  py_isspace c = false -> lstrip (a ++ c :: r) = lstrip a ++ c :: r.
Proof.
  intros Hc. induction a as [|x a IH]; simpl.
  - rewrite Hc. reflexivity.
  - destruct (py_isspace x); [exact IH|reflexivity].
Qed.

Lemma lstrip_incl (a : pystr) (x : char) : In x (lstrip a) -> In x a.
Proof.
  induction a as [|y a IH]; simpl; [tauto|].
  destruct (py_isspace y); [intros H; right; exact (IH H)|tauto].
Qed.

Lemma drop_prefix_before (c : char) (p a r : pystr) :
  ~ In c p ->
  drop_prefix p (a ++ c :: r)
  = option_map (fun a' => a' ++ c :: r) (drop_prefix p a).
Proof.
  revert a. induction p as [|x p IH]; intros a Hp; [reflexivity|].
  destruct a as [|y a]; simpl.
  - destruct (N.eqb_spec x c) as [->|Hne]; [|reflexivity].
    exfalso. apply Hp. now left.
  - destruct (x =? y); [|reflexivity].
    apply IH. intros Hin. apply Hp. now right.
Qed.

Lemma drop_prefix_incl (p a a' : pystr) (x : char) :
  drop_prefix p a = Some a' -> In x a' -> In x a.
Proof.
  intros H Hin. rewrite (drop_prefix_app _ _ _ H). apply in_or_app. now right.
Qed.

(** From depth [e + 1], the scan runs through a text balanced from [e]
    and closes at the bracket that follows it. *)
Lemma scan_brackets_balanced (s b : pystr) :
  forall (i : nat) (e : Z), (0 <= e)%Z -> balanced_from e s = true ->
  scan_brackets (s ++ RBRACKET :: b) i (e + 1) = Some (i + length s)%nat.
Proof.
  induction s as [|c s IH]; intros i e He H;
    cbn [balanced_from] in H; cbn [app scan_brackets length].
  - apply Z.eqb_eq in H. subst e. change (RBRACKET =? LBRACKET) with false.
    rewrite N.eqb_refl. cbv iota. change (0 + 1 - 1 =? 0)%Z with true.
    cbv iota. f_equal. lia.
  - destruct (c =? LBRACKET).
    + rewrite (IH (S i) (e + 1)%Z) by (lia || exact H). f_equal. lia.
    + destruct (c =? RBRACKET).
      * apply andb_true_iff in H. destruct H as [H1 H2]. apply Z.leb_le in H1.
        destruct (Z.eqb_spec (e + 1 - 1) 0) as [E|_]; [lia|].
        replace (e + 1 - 1)%Z with (e - 1 + 1)%Z by lia.
        rewrite (IH (S i) (e - 1)%Z) by (lia || exact H2). f_equal. lia.
      * rewrite (IH (S i) e He H). f_equal. lia.
Qed.

Section ArrayInText.
Variable inner : pystr.

Lemma holds_array_lstrip (t : pystr) :
  holds_array (array_text inner) t -> holds_array (array_text inner) (lstrip t).
Proof.
  intros (a & b & -> & Ha). exists (lstrip a), b. split.
  - unfold array_text. simpl. apply lstrip_before. reflexivity.
  - intros Hin. apply Ha. apply lstrip_incl. exact Hin.
Qed.

Lemma rev_holds (a b : pystr) :
  rev (a ++ array_text inner ++ b)
  = rev b ++ RBRACKET :: rev inner ++ LBRACKET :: rev a.
Proof.
  unfold array_text. rewrite !rev_app_distr. simpl. rewrite !rev_app_distr. simpl.
  repeat (rewrite <- app_assoc; simpl). reflexivity.
Qed.

Lemma unrev_holds (a b' : pystr) :
  rev (b' ++ RBRACKET :: rev inner ++ LBRACKET :: rev a)
  = a ++ array_text inner ++ rev b'.
Proof.
  rewrite <- (rev_involutive b') at 1. rewrite <- rev_holds. apply rev_involutive.
Qed.

Lemma holds_array_rstrip (t : pystr) :
  holds_array (array_text inner) t -> holds_array (array_text inner) (rstrip t).
Proof.
  intros (a & b & -> & Ha). exists a, (rev (lstrip (rev b))). split; [|exact Ha].
  unfold rstrip. rewrite rev_holds, lstrip_before by reflexivity.
  apply unrev_holds.
Qed.

Lemma holds_array_strip (t : pystr) :
  holds_array (array_text inner) t -> holds_array (array_text inner) (strip t).
Proof. intros H. apply holds_array_rstrip, holds_array_lstrip, H. Qed.

Lemma holds_array_re_sub_prefix (p t : pystr) :
  ~ In LBRACKET p -> holds_array (array_text inner) t ->
  holds_array (array_text inner) (re_sub_prefix p t).
Proof.
  intros Hp (a & b & -> & Ha). unfold re_sub_prefix, array_text. simpl.
  rewrite (drop_prefix_before LBRACKET p a _ Hp).
  destruct (drop_prefix p a) as [a'|] eqn:E; simpl.
  - exists a', b. split; [reflexivity|].
    intros Hin. apply Ha. exact (drop_prefix_incl _ _ _ _ E Hin).
  - exists a, b. split; [reflexivity|exact Ha].
Qed.

Lemma holds_array_re_sub_fence_end (t : pystr) :
  holds_array (array_text inner) t ->
  holds_array (array_text inner) (re_sub_fence_end t).
Proof.
  intros (a & b & -> & Ha). unfold re_sub_fence_end. rewrite rev_holds.
  rewrite (drop_prefix_before RBRACKET [96; 96; 96] (rev b))
    by (cbv; intuition discriminate).
  destruct (drop_prefix [96; 96; 96] (rev b)) as [b'|]; simpl option_map.
  - exists a, (rev b'). split; [apply unrev_holds|exact Ha].
  - rewrite (drop_prefix_before RBRACKET [10; 96; 96; 96] (rev b))
      by (cbv; intuition discriminate).
    destruct (drop_prefix [10; 96; 96; 96] (rev b)) as [b'|]; simpl option_map.
    + exists a, (rev b' ++ [NEWLINE]). split; [|exact Ha].
      rewrite unrev_holds, <- !app_assoc. reflexivity.
    + exists a, b. split; [reflexivity|exact Ha].
Qed.

Lemma holds_array_strip_fences (t : pystr) :
  holds_array (array_text inner) t ->
  holds_array (array_text inner) (strip_fences t).
Proof.
  intros H. unfold strip_fences.
  destruct (startswith FENCE (strip t)).
  - apply holds_array_strip, holds_array_re_sub_fence_end.
    apply holds_array_re_sub_prefix; [cbv; intuition discriminate|].
    apply holds_array_re_sub_prefix; [cbv; intuition discriminate|].
    apply holds_array_strip, H.
  - apply holds_array_strip, H.
Qed.

Lemma scan_brackets_inner (b : pystr) (i : nat) :
  balanced inner ->
  scan_brackets (inner ++ RBRACKET :: b) i 1 = Some (i + length inner)%nat.
Proof. intros H. apply (scan_brackets_balanced inner b i 0); [lia|exact H]. Qed.

(** When the brackets inside the array text are balanced, the extractor
    parses it, whatever surrounds it, provided no opening bracket precedes
    it. *)
Lemma extract_json_holds_array (t : pystr) :
  balanced inner -> holds_array (array_text inner) t ->
  extract_json t = Json.loads (array_text inner).
Proof.
  intros Hin H. apply holds_array_strip_fences in H.
  destruct H as (a & b & HT & Ha). unfold extract_json. rewrite HT.
  unfold array_text at 1. simpl app.
  unfold find. rewrite (find_from_app LBRACKET a _ 0 Ha). simpl Nat.add.
  rewrite skipn_app_exact. cbn [scan_brackets].
  change (LBRACKET =? LBRACKET) with true. cbv iota.
  rewrite <- app_assoc. simpl app.
  change (0 + 1)%Z with 1%Z.
  rewrite (scan_brackets_inner b (S (length a)) Hin).
  f_equal. unfold slice. rewrite skipn_app_exact.
  assert (Hlen : length (array_text inner) = (length inner + 2)%nat)
    by (unfold array_text; cbn [length]; rewrite length_app; cbn [length]; lia).
  replace (S (length a) + length inner + 1 - length a)%nat
    with (length (array_text inner)) by (rewrite Hlen; lia).
  change (LBRACKET :: inner ++ RBRACKET :: b) with ((LBRACKET :: inner) ++ RBRACKET :: b).
  replace ((LBRACKET :: inner) ++ RBRACKET :: b) with ((array_text inner) ++ b)
    by (unfold array_text; simpl; rewrite <- app_assoc; reflexivity).
  rewrite firstn_app, Nat.sub_diag, firstn_all. cbn [firstn]. apply List.app_nil_r.
Qed.

End ArrayInText.

(** ** C6: the decoder reads back what the encoder writes *)

Lemma hex_escape_small (c : char) :
  c < 32 ->
  Json.decode_uXXXX 48 48 (Json.hex_digit (c / 16)) (Json.hex_digit (c mod 16)) = Some c.
Proof.
  intros Hc.
  assert (Hall : forallb (fun c =>
            match Json.decode_uXXXX 48 48 (Json.hex_digit (c / 16))
                                    (Json.hex_digit (c mod 16)) with
            | Some x => x =? c
            | None => false
            end) (map N.of_nat (seq 0 32)) = true) by (vm_compute; reflexivity).
  rewrite forallb_forall in Hall. specialize (Hall c).
  destruct (Json.decode_uXXXX 48 48 _ _) as [x|].
  - f_equal. apply N.eqb_eq. apply Hall.
    rewrite <- (N2Nat.id c). apply in_map. apply in_seq. lia.
  - discriminate Hall.
    rewrite <- (N2Nat.id c). apply in_map. apply in_seq. lia.
Qed.

Lemma scanstring_unicode_escape (h1 h2 h3 h4 u : char) (r acc : pystr) :
  Json.decode_uXXXX h1 h2 h3 h4 = Some u ->
  Json.is_high_surrogate u = false ->
  Json.scanstring (92 :: 117 :: h1 :: h2 :: h3 :: h4 :: r) acc
  = Json.scanstring r (u :: acc).
Proof.
  intros Hd Hs. cbn [Json.scanstring].
  change (92 =? QUOTE) with false. change (92 =? BACKSLASH) with true.
  change (117 =? 117) with true. cbv iota. rewrite Hd, Hs. reflexivity.
Qed.

Lemma scanstring_plain (c : char) (r acc : pystr) :
  c <> 34 -> c <> 92 -> 32 <= c ->
  Json.scanstring (c :: r) acc = Json.scanstring r (c :: acc).
Proof.
  intros H1 H2 H3. cbn [Json.scanstring]. unfold QUOTE, BACKSLASH.
  rewrite (proj2 (N.eqb_neq c 34) H1), (proj2 (N.eqb_neq c 92) H2).
  rewrite (proj2 (N.ltb_ge c 32) H3). reflexivity.
Qed.

Lemma scanstring_escape_char (c : char) (r acc : pystr) :
  Json.scanstring (Json.escape_char c ++ r) acc = Json.scanstring r (c :: acc).
Proof.
  unfold Json.escape_char.
  destruct (N.eqb_spec c 34) as [->|H34]; [reflexivity|].
  destruct (N.eqb_spec c 92) as [->|H92]; [reflexivity|].
  destruct (N.eqb_spec c 10) as [->|H10]; [reflexivity|].
  destruct (N.eqb_spec c 13) as [->|H13]; [reflexivity|].
  destruct (N.eqb_spec c 9) as [->|H9]; [reflexivity|].
  destruct (N.eqb_spec c 8) as [->|H8]; [reflexivity|].
  destruct (N.eqb_spec c 12) as [->|H12]; [reflexivity|].
  destruct (N.ltb_spec c 32) as [Hlt|Hge].
  - apply scanstring_unicode_escape; [apply hex_escape_small; exact Hlt|].
    unfold Json.is_high_surrogate.
    rewrite (proj2 (N.leb_gt 55296 c)) by lia. reflexivity.
  - apply scanstring_plain; assumption.
Qed.

Lemma scanstring_escaped (s rest acc : pystr) :
  Json.scanstring (flat_map Json.escape_char s ++ QUOTE :: rest) acc
  = Ok (rev acc ++ s, rest).
Proof.
  revert acc. induction s as [|c s IH]; intros acc.
  - simpl. rewrite List.app_nil_r. reflexivity.
  - cbn [flat_map]. rewrite <- app_assoc, scanstring_escape_char, IH.
    simpl. rewrite <- app_assoc. reflexivity.
Qed.

(** Integers *)

Lemma span_digits_uint (u : Decimal.uint) (rest : pystr) :
  no_digit_next rest ->
  Json.span_digits (Json.digits_of_uint u ++ rest) = (Json.digits_of_uint u, rest).
Proof.
  intros Hrest. induction u; simpl; try (rewrite IHu; reflexivity).
  destruct rest as [|c r]; [reflexivity|]. simpl in *. rewrite Hrest. reflexivity.
Qed.

Lemma uint_of_digits_of_uint (u : Decimal.uint) :
  Json.uint_of_digits (Json.digits_of_uint u) = u.
Proof. induction u; simpl; try rewrite IHu; reflexivity. Qed.

Lemma pos_to_uint_head (p : positive) :
  exists c ds, Json.digits_of_uint (Pos.to_uint p) = c :: ds
               /\ Json.is_digit c = true /\ c <> 48.
Proof.
  assert (Hnorm : Pos.to_uint p = Decimal.unorm (Pos.to_uint p)).
  { rewrite <- (DecimalPos.Unsigned.to_of (Pos.to_uint p)).
    rewrite DecimalPos.Unsigned.of_to. reflexivity. }
  assert (Hnz : forall d', Pos.to_uint p <> Decimal.D0 d').
  { intros d' E. destruct (Decimal.nzhead (Pos.to_uint p)) eqn:Hh;
      [ apply (DecimalPos.Unsigned.to_uint_nonzero p);
        rewrite Hnorm; apply DecimalFacts.unorm_0; exact Hh
      | exfalso; exact (DecimalFacts.nzhead_nonzero _ _ Hh)
      | rewrite Hnorm, DecimalFacts.unorm_nzhead, Hh in E
          by (rewrite Hh; discriminate);
        discriminate E .. ]. }
  pose proof (DecimalPos.Unsigned.to_uint_nonnil p) as Hnn.
  destruct (Pos.to_uint p) as [|u|u|u|u|u|u|u|u|u|u]; simpl;
    try (eexists _, _; split; [reflexivity|split; [reflexivity|discriminate]]).
  - contradiction.
  - exfalso. exact (Hnz u eq_refl).
Qed.

Lemma member_end_no_digit (rest : pystr) : member_end rest -> no_digit_next rest.
Proof. intros (c & r & -> & [-> | ->]); reflexivity. Qed.

Lemma match_frac_member_end (rest : pystr) :
  member_end rest -> Json.match_frac rest = ([], rest).
Proof. intros (c & r & -> & [-> | ->]); reflexivity. Qed.

Lemma match_exp_member_end (rest : pystr) :
  member_end rest -> Json.match_exp rest = ([], rest).
Proof. intros (c & r & -> & [-> | ->]); reflexivity. Qed.

Lemma int_of_digits_pos (p : positive) :
  Json.int_of_digits (Json.digits_of_uint (Pos.to_uint p)) = Zpos p.
Proof.
  unfold Json.int_of_digits. rewrite uint_of_digits_of_uint.
  unfold N.of_uint. rewrite DecimalPos.Unsigned.of_to. reflexivity.
Qed.

Lemma match_int_part_pos (p : positive) (rest : pystr) :
  no_digit_next rest ->
  Json.match_int_part (Json.digits_of_uint (Pos.to_uint p) ++ rest)
  = Some (Json.digits_of_uint (Pos.to_uint p), rest).
Proof.
  intros Hrest.
  pose proof (span_digits_uint (Pos.to_uint p) rest Hrest) as Hspan.
  destruct (pos_to_uint_head p) as (c & ds & E & Hd & Hne).
  rewrite E in *. simpl app in *. unfold Json.match_int_part.
  rewrite (proj2 (N.eqb_neq c 48) Hne), Hd.
  cbn [Json.span_digits] in Hspan. rewrite Hd in Hspan.
  destruct (Json.span_digits (ds ++ rest)) as [ds' t].
  injection Hspan as -> ->. reflexivity.
Qed.

Lemma match_number_int (z : Z) (rest : pystr) :
  member_end rest ->
  Json.match_number (Json.dumps_int z ++ rest) = Some (JInt z, rest).
Proof.
  intros Hrest.
  pose proof (member_end_no_digit rest Hrest) as Hnd.
  destruct z as [|p|p]; unfold Json.dumps_int.
  - unfold Json.match_number. simpl.
    rewrite (match_frac_member_end rest Hrest), (match_exp_member_end rest Hrest).
    reflexivity.
  - destruct (pos_to_uint_head p) as (c & ds & E & Hd & Hne).
    assert (Hc : (c =? 45) = false).
    { apply N.eqb_neq. intros ->. discriminate Hd. }
    pose proof (match_int_part_pos p rest Hnd) as Hip.
    pose proof (int_of_digits_pos p) as Hint.
    rewrite E in *. simpl app in *.
    unfold Json.match_number. rewrite Hc, Hip.
    rewrite (match_frac_member_end rest Hrest), (match_exp_member_end rest Hrest).
    rewrite Hint. reflexivity.
  - unfold Json.match_number. simpl app. cbv beta iota. rewrite N.eqb_refl.
    rewrite (match_int_part_pos p rest Hnd).
    rewrite (match_frac_member_end rest Hrest), (match_exp_member_end rest Hrest).
    rewrite int_of_digits_pos. reflexivity.
Qed.

Lemma dumps_int_head (z : Z) :
  exists c ds, Json.dumps_int z = c :: ds /\ (Json.is_digit c = true \/ c = 45).
Proof.
  destruct z as [|p|p]; simpl.
  - eexists _, _. split; [reflexivity|]. left. reflexivity.
  - destruct (pos_to_uint_head p) as (c & ds & E & Hd & _).
    exists c, ds. split; [exact E|]. left. exact Hd.
  - eexists _, _. split; [reflexivity|]. right. reflexivity.
Qed.

Lemma digit_bounds (c : char) : Json.is_digit c = true -> 48 <= c <= 57.
Proof.
  unfold Json.is_digit. intros H. apply andb_prop in H. destruct H as [H1 H2].
  apply N.leb_le in H1, H2. lia.
Qed.

Lemma scan_once_int (f : nat) (z : Z) (rest : pystr) :
  member_end rest ->
  Json.scan_once (S f) (Json.dumps_int z ++ rest) = Ok (JInt z, rest).
Proof.
  intros Hrest. pose proof (match_number_int z rest Hrest) as Hnum.
  destruct (dumps_int_head z) as (c & ds & E & Hc).
  rewrite E in *. simpl app in *. cbn [Json.scan_once].
  assert (Hne : forall n, n < 45 \/ 57 < n -> (c =? n) = false).
  { intros n Hn. apply N.eqb_neq. destruct Hc as [Hd| ->]; [|lia].
    apply digit_bounds in Hd. lia. }
  unfold QUOTE, LBRACE, LBRACKET.
  rewrite (Hne 34), (Hne 123), (Hne 91) by lia.
  unfold Json.match_literal.
  assert (Hdrop : forall x p, x < 45 \/ 57 < x ->
            drop_prefix (x :: p) (c :: ds ++ rest) = None).
  { intros x p Hx. cbn [drop_prefix]. rewrite N.eqb_sym, (Hne x Hx). reflexivity. }
  assert (Hnull : drop_prefix (str "null") (c :: ds ++ rest) = None)
    by (apply (Hdrop 110); lia).
  assert (Htrue : drop_prefix (str "true") (c :: ds ++ rest) = None)
    by (apply (Hdrop 116); lia).
  assert (Hfalse : drop_prefix (str "false") (c :: ds ++ rest) = None)
    by (apply (Hdrop 102); lia).
  rewrite Hnull, Htrue, Hfalse, Hnum. reflexivity.
Qed.

Lemma scan_once_scalar (f : nat) (v : json) (rest : pystr) :
  scalar v -> member_end rest ->
  Json.scan_once (S f) (Json.dumps v ++ rest) = Ok (v, rest).
Proof.
  intros Hv Hrest. destruct v; try contradiction.
  - reflexivity.
  - apply scan_once_int. exact Hrest.
  - cbn [Json.dumps]. unfold Json.dumps_str. simpl app. cbn [Json.scan_once].
    change (QUOTE =? QUOTE) with true. cbv iota.
    rewrite <- app_assoc. simpl app. rewrite scanstring_escaped. reflexivity.
Qed.

(** Objects and arrays *)

Lemma skip_ws_dumps_scalar (v : json) (rest : pystr) :
  scalar v -> Json.skip_ws (Json.dumps v ++ rest) = Json.dumps v ++ rest.
Proof.
  intros Hv. destruct v; try contradiction; try reflexivity.
  cbn [Json.dumps]. destruct (dumps_int_head z) as (c & ds & -> & Hc).
  simpl app. cbn [Json.skip_ws].
  assert (Hws : Json.is_ws c = false).
  { unfold Json.is_ws.
    assert (H45 : 45 <= c) by (destruct Hc as [Hd| ->]; [apply digit_bounds in Hd|]; lia).
    rewrite (proj2 (N.eqb_neq c 32)), (proj2 (N.eqb_neq c 9)),
            (proj2 (N.eqb_neq c 10)), (proj2 (N.eqb_neq c 13)) by lia.
    reflexivity. }
  rewrite Hws. reflexivity.
Qed.

Lemma object_loop_last (f : nat) (s t1 t2 t3 k : pystr) (v : json)
    (acc : list (pystr * json)) :
  Json.scanstring s [] = Ok (k, COLON :: t1) ->
  Json.scan_once f (Json.skip_ws t1) = Ok (v, t2) ->
  Json.skip_ws t2 = RBRACE :: t3 ->
  Json.object_loop (S f) s acc = Ok ((k, v) :: acc, t3).
Proof.
  intros Hs Hv Ht. cbn [Json.object_loop]. rewrite Hs. cbn [rbind].
  change (Json.expect COLON (Json.skip_ws (COLON :: t1))) with (Some t1).
  cbv beta iota. rewrite Hv. cbn [rbind]. rewrite Ht. reflexivity.
Qed.

Lemma object_loop_more (f : nat) (s t1 t2 t3 t4 k : pystr) (v : json)
    (acc : list (pystr * json)) :
  Json.scanstring s [] = Ok (k, COLON :: t1) ->
  Json.scan_once f (Json.skip_ws t1) = Ok (v, t2) ->
  Json.skip_ws t2 = COMMA :: t3 ->
  Json.skip_ws t3 = QUOTE :: t4 ->
  Json.object_loop (S f) s acc = Json.object_loop f t4 ((k, v) :: acc).
Proof.
  intros Hs Hv Ht Ht'. cbn [Json.object_loop]. rewrite Hs. cbn [rbind].
  change (Json.expect COLON (Json.skip_ws (COLON :: t1))) with (Some t1).
  cbv beta iota. rewrite Hv. cbn [rbind]. rewrite Ht.
  change (Json.expect RBRACE (COMMA :: t3)) with (@None pystr).
  change (Json.expect COMMA (COMMA :: t3)) with (Some t3).
  cbv beta iota. rewrite Ht'. reflexivity.
Qed.

Lemma object_loop_members (kvs : list (pystr * json)) (rest : pystr)
    (acc : list (pystr * json)) (fuel : nat) :
  kvs <> [] ->
  Forall (fun kv => scalar (snd kv)) kvs ->
  (length kvs < fuel)%nat ->
  Json.object_loop fuel (members_tail kvs rest) acc = Ok (rev kvs ++ acc, rest).
Proof.
  revert acc fuel. induction kvs as [|[k v] kvs IH]; intros acc fuel Hne Hsc Hf;
    [contradiction|].
  inversion Hsc as [|? ? Hv Hsc']; subst. simpl in Hv.
  destruct fuel as [|[|f]]; [simpl in Hf; lia..|].
  destruct kvs as [|[k2 v2] kvs].
  - cbn [members_tail].
    rewrite (object_loop_last (S f) _ (32 :: Json.dumps v ++ RBRACE :: rest)
               (RBRACE :: rest) rest k v acc).
    + reflexivity.
    + rewrite scanstring_escaped. reflexivity.
    + change (Json.skip_ws (32 :: Json.dumps v ++ RBRACE :: rest))
        with (Json.skip_ws (Json.dumps v ++ RBRACE :: rest)).
      rewrite skip_ws_dumps_scalar by exact Hv.
      apply scan_once_scalar; [exact Hv|].
      exists RBRACE, rest. split; [reflexivity|now right].
    + reflexivity.
  - change (members_tail ((k, v) :: (k2, v2) :: kvs) rest)
      with (flat_map Json.escape_char k ++ QUOTE :: Json.KEY_SEPARATOR
            ++ Json.dumps v ++ Json.ITEM_SEPARATOR
            ++ QUOTE :: members_tail ((k2, v2) :: kvs) rest).
    set (next := members_tail ((k2, v2) :: kvs) rest) in *.
    rewrite (object_loop_more (S f) _
               (32 :: Json.dumps v ++ COMMA :: 32 :: QUOTE :: next)
               (COMMA :: 32 :: QUOTE :: next) (32 :: QUOTE :: next) next k v acc).
    + rewrite IH; [|discriminate|exact Hsc'|simpl in Hf |- *; lia].
      simpl. rewrite <- !app_assoc. reflexivity.
    + rewrite scanstring_escaped. reflexivity.
    + change (Json.skip_ws (32 :: Json.dumps v ++ COMMA :: 32 :: QUOTE :: next))
        with (Json.skip_ws (Json.dumps v ++ COMMA :: 32 :: QUOTE :: next)).
      rewrite skip_ws_dumps_scalar by exact Hv.
      apply scan_once_scalar; [exact Hv|].
      exists COMMA, (32 :: QUOTE :: next). split; [reflexivity|now left].
    + reflexivity.
    + reflexivity.
Qed.

Lemma members_text (kvs : list (pystr * json)) (rest : pystr) :
  kvs <> [] ->
  Json.join Json.ITEM_SEPARATOR
    (map (fun kv => Json.dumps_str (fst kv) ++ Json.KEY_SEPARATOR ++ Json.dumps (snd kv))
         kvs)
  ++ RBRACE :: rest
  = QUOTE :: members_tail kvs rest.
Proof.
  induction kvs as [|[k v] kvs IH]; intros Hne; [contradiction|].
  destruct kvs as [|kv2 kvs].
  - cbn [map Json.join members_tail fst snd]. unfold Json.dumps_str.
    simpl app. rewrite <- !app_assoc. reflexivity.
  - change (Json.join Json.ITEM_SEPARATOR
              (map (fun kv => Json.dumps_str (fst kv) ++ Json.KEY_SEPARATOR
                              ++ Json.dumps (snd kv)) ((k, v) :: kv2 :: kvs)))
      with ((Json.dumps_str k ++ Json.KEY_SEPARATOR ++ Json.dumps v)
            ++ Json.ITEM_SEPARATOR
            ++ Json.join Json.ITEM_SEPARATOR
                 (map (fun kv => Json.dumps_str (fst kv) ++ Json.KEY_SEPARATOR
                                 ++ Json.dumps (snd kv)) (kv2 :: kvs))).
    rewrite <- !app_assoc, IH by discriminate.
    destruct kv2 as [k2 v2]. cbn [members_tail]. unfold Json.dumps_str.
    simpl app. rewrite <- !app_assoc. reflexivity.
Qed.

Lemma scan_once_object (kvs : list (pystr * json)) (rest : pystr) (fuel : nat) :
  kvs <> [] ->
  Forall (fun kv => scalar (snd kv)) kvs ->
  (length kvs + 1 < fuel)%nat ->
  Json.scan_once fuel (Json.dumps (JObj kvs) ++ rest)
  = Ok (JObj (Dict.of_pairs pystr_eqb kvs), rest).
Proof.
  intros Hne Hsc Hf. destruct fuel as [|f]; [lia|].
  cbn [Json.dumps]. simpl app. rewrite <- app_assoc. simpl app.
  rewrite members_text by exact Hne.
  cbn [Json.scan_once].
  change (LBRACE =? QUOTE) with false. change (LBRACE =? LBRACE) with true.
  cbv beta iota.
  change (Json.skip_ws (QUOTE :: members_tail kvs rest))
    with (QUOTE :: members_tail kvs rest).
  change (Json.expect RBRACE (QUOTE :: members_tail kvs rest)) with (@None pystr).
  change (Json.expect QUOTE (QUOTE :: members_tail kvs rest))
    with (Some (members_tail kvs rest)).
  cbv beta iota.
  rewrite object_loop_members by (try assumption; lia).
  cbn [rbind]. rewrite List.app_nil_r, rev_involutive. reflexivity.
Qed.

Lemma opt_str_scalar (o : option pystr) : scalar (opt_str o).
Proof. destruct o; exact I. Qed.

Lemma opt_int_scalar (o : option Z) : scalar (opt_int o).
Proof. destruct o; exact I. Qed.

Lemma scan_once_record (r : InferenceRecord) (rest : pystr) (fuel : nat) :
  (9 <= fuel)%nat ->
  Json.scan_once fuel (Json.dumps (to_json r) ++ rest) = Ok (to_json r, rest).
Proof.
  intros Hf. unfold to_json. rewrite scan_once_object.
  - reflexivity.
  - discriminate.
  - repeat constructor; cbn [snd];
      first [apply opt_str_scalar | apply opt_int_scalar | exact I].
  - simpl. lia.
Qed.

Lemma array_loop_last (f : nat) (s t t' : pystr) (v : json) (acc : list json) :
  Json.scan_once f s = Ok (v, t) ->
  Json.skip_ws t = RBRACKET :: t' ->
  Json.array_loop (S f) s acc = Ok (v :: acc, t').
Proof.
  intros Hv Ht. cbn [Json.array_loop]. rewrite Hv. cbn [rbind]. rewrite Ht.
  reflexivity.
Qed.

Lemma array_loop_more (f : nat) (s t t' : pystr) (v : json) (acc : list json) :
  Json.scan_once f s = Ok (v, t) ->
  Json.skip_ws t = COMMA :: t' ->
  Json.array_loop (S f) s acc = Json.array_loop f (Json.skip_ws t') (v :: acc).
Proof.
  intros Hv Ht. cbn [Json.array_loop]. rewrite Hv. cbn [rbind]. rewrite Ht.
  reflexivity.
Qed.

Lemma dumps_record_head (r : InferenceRecord) :
  exists t, Json.dumps (to_json r) = LBRACE :: t.
Proof. eexists. reflexivity. Qed.

Lemma array_loop_records (rs : list InferenceRecord) (rest : pystr)
    (acc : list json) (fuel : nat) :
  rs <> [] ->
  (length rs + 9 <= fuel)%nat ->
  Json.array_loop fuel
    (Json.join Json.ITEM_SEPARATOR (map Json.dumps (map to_json rs))
     ++ RBRACKET :: rest) acc
  = Ok (rev (map to_json rs) ++ acc, rest).
Proof.
  revert acc fuel. induction rs as [|r rs IH]; intros acc fuel Hne Hf; [contradiction|].
  destruct fuel as [|f]; [simpl in Hf; lia|]. simpl in Hf.
  destruct rs as [|r2 rs].
  - cbn [map Json.join].
    rewrite (array_loop_last f _ (RBRACKET :: rest) rest (to_json r) acc).
    + reflexivity.
    + apply scan_once_record. lia.
    + reflexivity.
  - change (Json.join Json.ITEM_SEPARATOR (map Json.dumps (map to_json (r :: r2 :: rs))))
      with (Json.dumps (to_json r) ++ Json.ITEM_SEPARATOR
            ++ Json.join Json.ITEM_SEPARATOR (map Json.dumps (map to_json (r2 :: rs)))).
    rewrite <- !app_assoc.
    set (next := Json.join Json.ITEM_SEPARATOR (map Json.dumps (map to_json (r2 :: rs)))
                 ++ RBRACKET :: rest) in *.
    rewrite (array_loop_more f _ (COMMA :: 32 :: next) (32 :: next) (to_json r) acc).
    + assert (Hskip : Json.skip_ws (32 :: next) = next).
      { subst next. destruct (dumps_record_head r2) as [t Ht].
        destruct rs; cbn [map Json.join]; rewrite Ht; reflexivity. }
      rewrite Hskip. subst next. rewrite IH; [|discriminate|simpl in Hf |- *; lia].
      simpl. rewrite <- !app_assoc. reflexivity.
    + apply scan_once_record. lia.
    + reflexivity.
Qed.

Lemma dumps_record_length (r : InferenceRecord) :
  (8 <= length (Json.dumps (to_json r)))%nat.
Proof.
  assert (H : exists t, Json.dumps (to_json r)
                        = LBRACE :: QUOTE :: 111 :: 114 :: 105 :: 103 :: 105 :: 110 :: t)
    by (eexists; reflexivity).
  destruct H as [t ->]. simpl. lia.
Qed.

Lemma join_length_records (rs : list InferenceRecord) :
  (8 * length rs
   <= length (Json.join Json.ITEM_SEPARATOR (map Json.dumps (map to_json rs))))%nat.
Proof.
  induction rs as [|r rs IH]; [simpl; lia|].
  pose proof (dumps_record_length r) as Hr.
  destruct rs as [|r2 rs].
  - cbn [map Json.join length]. lia.
  - change (Json.join Json.ITEM_SEPARATOR (map Json.dumps (map to_json (r :: r2 :: rs))))
      with (Json.dumps (to_json r) ++ Json.ITEM_SEPARATOR
            ++ Json.join Json.ITEM_SEPARATOR (map Json.dumps (map to_json (r2 :: rs)))).
    rewrite !length_app. cbn [length] in *. lia.
Qed.

(** The decoder reads back the encoded array of records. *)
Lemma loads_encode (rs : list InferenceRecord) :
  Json.loads (encode rs) = Ok (JArr (map to_json rs)).
Proof.
  destruct rs as [|r rs]; [reflexivity|].
  unfold Json.loads, encode. cbn [Json.dumps].
  set (inner := Json.join Json.ITEM_SEPARATOR (map Json.dumps (map to_json (r :: rs)))).
  change (Json.skip_ws (LBRACKET :: inner ++ [RBRACKET]))
    with (LBRACKET :: inner ++ [RBRACKET]).
  assert (Hlen : (8 * length (r :: rs) <= length inner)%nat)
    by apply join_length_records.
  assert (Hhead : exists t, inner ++ [RBRACKET] = LBRACE :: t).
  { subst inner. destruct (dumps_record_head r) as [t Ht].
    destruct rs; cbn [map Json.join]; rewrite Ht; eexists; reflexivity. }
  destruct Hhead as [t Ht].
  remember (2 * length (LBRACKET :: inner ++ [RBRACKET]) + 2)%nat as fuel eqn:Hfuel.
  assert (Hf : (length (r :: rs) + 10 <= fuel)%nat).
  { subst fuel. cbn [length]. rewrite length_app. cbn [length] in *. lia. }
  destruct fuel as [|f]; [lia|].
  cbn [Json.scan_once].
  change (LBRACKET =? QUOTE) with false. change (LBRACKET =? LBRACE) with false.
  change (LBRACKET =? LBRACKET) with true. cbv beta iota.
  rewrite Ht. change (Json.skip_ws (LBRACE :: t)) with (LBRACE :: t).
  change (Json.expect RBRACKET (LBRACE :: t)) with (@None pystr).
  cbv beta iota. rewrite <- Ht. subst inner.
  rewrite array_loop_records; [|discriminate|lia].
  cbn [rbind]. rewrite List.app_nil_r, rev_involutive. reflexivity.
Qed.

(** The encoding of bracket-free records has no bracket inside. *)

Lemma balanced_from_app (s t : pystr) :
  forall e k, (0 <= e)%Z -> (0 <= k)%Z -> balanced_from e s = true ->
  balanced_from (e + k) (s ++ t) = balanced_from k t.
Proof.
  induction s as [|c s IH]; intros e k He Hk H; simpl in H |- *.
  - apply Z.eqb_eq in H. subst e. reflexivity.
  - destruct (c =? LBRACKET).
    + replace (e + k + 1)%Z with (e + 1 + k)%Z by lia. apply IH; [lia|lia|exact H].
    + destruct (c =? RBRACKET).
      * apply andb_true_iff in H. destruct H as [H1 H2]. apply Z.leb_le in H1.
        replace (1 <=? e + k)%Z with true by (symmetry; apply Z.leb_le; lia).
        replace (e + k - 1)%Z with (e - 1 + k)%Z by lia.
        apply IH; [lia|lia|exact H2].
      * apply IH; assumption.
Qed.

Lemma balanced_app (s t : pystr) : balanced s -> balanced t -> balanced (s ++ t).
Proof.
  unfold balanced. intros Hs Ht.
  rewrite <- Ht. apply (balanced_from_app s t 0 0); [lia|lia|exact Hs].
Qed.

(** Only the brackets of a text count. *)
Lemma balanced_from_brackets (s : pystr) :
  forall d, balanced_from d s = balanced_from d (brackets s).
Proof.
  induction s as [|c s IH]; intros d; [reflexivity|].
  unfold brackets. cbn [filter balanced_from]. unfold is_bracket.
  destruct (N.eqb_spec c LBRACKET) as [->|H1].
  - cbn [orb balanced_from]. rewrite N.eqb_refl. apply IH.
  - destruct (N.eqb_spec c RBRACKET) as [->|H2].
    + cbn [orb balanced_from]. change (RBRACKET =? LBRACKET) with false.
      rewrite N.eqb_refl. rewrite IH. reflexivity.
    + cbn [orb]. apply IH.
Qed.

Lemma balanced_same_brackets (s t : pystr) :
  brackets s = brackets t -> balanced s -> balanced t.
Proof.
  unfold balanced. intros E H.
  rewrite balanced_from_brackets, <- E, <- balanced_from_brackets. exact H.
Qed.

Lemma balanced_no_brackets (s : pystr) : brackets s = [] -> balanced s.
Proof. intros E. apply (balanced_same_brackets []); [symmetry; exact E|reflexivity]. Qed.

Lemma hex_digit_not_bracket (n : N) : is_bracket (Json.hex_digit n) = false.
Proof.
  unfold Json.hex_digit, is_bracket, LBRACKET, RBRACKET.
  destruct (N.ltb_spec n 10).
  - rewrite (proj2 (N.eqb_neq (48 + n) 91)), (proj2 (N.eqb_neq (48 + n) 93)) by lia.
    reflexivity.
  - rewrite (proj2 (N.eqb_neq (87 + n) 91)), (proj2 (N.eqb_neq (87 + n) 93)) by lia.
    reflexivity.
Qed.

(** Escaping neither adds nor removes a bracket. *)
Lemma brackets_escape_char (c : char) :
  brackets (Json.escape_char c) = brackets [c].
Proof.
  unfold Json.escape_char.
  repeat match goal with
  | |- context [if ?x =? ?y then _ else _] =>
      destruct (N.eqb_spec x y) as [->|?]; [reflexivity|]
  end.
  destruct (N.ltb_spec c 32) as [Hc|_]; [|reflexivity].
  unfold brackets. cbn [filter]. rewrite !hex_digit_not_bracket.
  unfold is_bracket, LBRACKET, RBRACKET.
  rewrite (proj2 (N.eqb_neq c 91)), (proj2 (N.eqb_neq c 93)) by lia.
  reflexivity.
Qed.

Lemma brackets_dumps_str (s : pystr) : brackets (Json.dumps_str s) = brackets s.
Proof.
  unfold Json.dumps_str.
  change (QUOTE :: flat_map Json.escape_char s ++ [QUOTE])
    with ([QUOTE] ++ flat_map Json.escape_char s ++ [QUOTE]).
  rewrite !brackets_app. change (brackets [QUOTE]) with (@nil char).
  rewrite List.app_nil_r. cbn [app].
  induction s as [|c s IH]; [reflexivity|].
  cbn [flat_map]. rewrite brackets_app, brackets_escape_char, IH.
  change (c :: s) with ([c] ++ s). rewrite brackets_app. reflexivity.
Qed.

Lemma balanced_dumps_str (s : pystr) : balanced s -> balanced (Json.dumps_str s).
Proof. apply balanced_same_brackets. symmetry. apply brackets_dumps_str. Qed.

Lemma brackets_digits (u : Decimal.uint) : brackets (Json.digits_of_uint u) = [].
Proof. induction u; simpl; try exact IHu; reflexivity. Qed.

Lemma brackets_dumps_int (z : Z) : brackets (Json.dumps_int z) = [].
Proof. destruct z; simpl; try apply brackets_digits; reflexivity. Qed.

Lemma balanced_opt_str (o : option pystr) :
  opt_balanced o -> balanced (Json.dumps (opt_str o)).
Proof. destruct o; [apply balanced_dumps_str|reflexivity]. Qed.

Lemma balanced_opt_int (o : option Z) : balanced (Json.dumps (opt_int o)).
Proof.
  destruct o; [|reflexivity]. apply balanced_no_brackets, brackets_dumps_int.
Qed.

Lemma balanced_join (sep : pystr) (parts : list pystr) :
  balanced sep -> Forall balanced parts -> balanced (Json.join sep parts).
Proof.
  intros Hsep H. induction H as [|p parts Hp _ IH]; [reflexivity|].
  destruct parts as [|q parts]; [exact Hp|].
  change (Json.join sep (p :: q :: parts)) with (p ++ sep ++ Json.join sep (q :: parts)).
  apply balanced_app; [exact Hp|]. apply balanced_app; [exact Hsep|exact IH].
Qed.

Lemma balanced_dumps_record (r : InferenceRecord) :
  record_balanced r -> balanced (Json.dumps (to_json r)).
Proof.
  intros (H1 & H2 & H3 & H4 & H5 & H6).
  unfold to_json. cbn [Json.dumps].
  apply (balanced_app [LBRACE]); [reflexivity|].
  apply balanced_app; [|reflexivity].
  apply balanced_join; [reflexivity|].
  cbn [map fst snd].
  repeat constructor;
    (apply balanced_app; [apply balanced_dumps_str; reflexivity|]);
    (apply (balanced_app Json.KEY_SEPARATOR); [reflexivity|]);
    first [ apply balanced_dumps_str; assumption
          | apply balanced_opt_str; assumption
          | apply balanced_opt_int ].
Qed.

Lemma balanced_encode_inner (rs : list InferenceRecord) :
  Forall record_balanced rs ->
  balanced (Json.join Json.ITEM_SEPARATOR (map Json.dumps (map to_json rs))).
Proof.
  intros H. apply balanced_join; [reflexivity|].
  rewrite map_map. apply Forall_map.
  eapply Forall_impl; [|exact H]. intros r Hr. apply balanced_dumps_record. exact Hr.
Qed.

(** ** C6: round trip *)

(** C6, as stated, fails: a closing bracket inside a string of a record,
    or an opening bracket in the prefix, makes the extractor cut a
    candidate that is not the array, and extraction raises. *)
Lemma roundtrip_fails_on_brackets :
  extract_json (wrap [] [] (encode [BRACKET_LABEL])) = Raise JSONDecodeError
  /\ extract_json (wrap [] [] (encode [BRACKET_LABEL]))
     <> Ok (JArr (map to_json [BRACKET_LABEL]))
  /\ extract_json (wrap (str "Devices [1 found]: ") [] (encode [MATE30]))
     = Raise JSONDecodeError
  /\ extract_json (wrap (str "Devices [1 found]: ") [] (encode [MATE30]))
     <> Ok (JArr (map to_json [MATE30])).
Proof.
  assert (H1 : extract_json (wrap [] [] (encode [BRACKET_LABEL])) = Raise JSONDecodeError)
    by (vm_compute; reflexivity).
  assert (H2 : extract_json (wrap (str "Devices [1 found]: ") [] (encode [MATE30]))
               = Raise JSONDecodeError) by (vm_compute; reflexivity).
  rewrite H1, H2. repeat split; discriminate.
Qed.

(** C6, amended: for every array of well-formed records in whose strings
    the brackets are balanced (in particular when they hold none),
    serializing it, wrapping the result in a fenced code block between a
    prefix without opening bracket and an arbitrary suffix, and applying
    the extractor yields exactly the original records in the original
    order. *)
Theorem extractor_roundtrip (rs : list InferenceRecord) (prefix suffix : pystr) :
  ~ In LBRACKET prefix ->
  Forall record_balanced rs ->
  extract_json (wrap prefix suffix (encode rs)) = Ok (JArr (map to_json rs)).
Proof.
  intros Hprefix Hrs. rewrite <- loads_encode.
  unfold encode. cbn [Json.dumps].
  apply (extract_json_holds_array
           (Json.join Json.ITEM_SEPARATOR (map Json.dumps (map to_json rs))));
    [apply balanced_encode_inner; exact Hrs|].
  exists (prefix ++ FENCE_OPEN), (FENCE_CLOSE ++ suffix). split.
  - unfold wrap. rewrite <- !app_assoc. reflexivity.
  - intros Hin. apply in_app_or in Hin. destruct Hin as [Hin|Hin]; [auto|].
    revert Hin. cbv. intuition discriminate.
Qed.

Lemma extractor_roundtrip_witness :
  extract_json (wrap (str "Here is the result:  ") (str " Hope this helps!")
                     (encode [MATE30; INDEXED_LABEL]))
  = Ok (JArr (map to_json [MATE30; INDEXED_LABEL])).
Proof.
  apply extractor_roundtrip.
  - cbv. intuition discriminate.
  - repeat constructor.
Defined.

(* ================================================================= *)
(** * Further properties of the code *)

(** ** The extractor: outcomes *)

Lemma scan_brackets_open (s : pystr) :
  forall (i : nat) (d : Z), (1 <= d)%Z -> scan_brackets s i d = None ->
  forall k, (k <= length s)%nat -> (d + bracket_depth (firstn k s))%Z <> 0%Z.
Proof.
  induction s as [|c s IH]; intros i d Hd H k Hk.
  - destruct k; simpl; lia.
  - destruct k as [|k]; [simpl; lia|].
    cbn [scan_brackets] in H. cbn [firstn bracket_depth]. simpl in Hk.
    destruct (c =? LBRACKET).
    + specialize (IH (S i) (d + 1)%Z ltac:(lia) H k ltac:(lia)). lia.
    + destruct (c =? RBRACKET).
      * destruct (Z.eqb_spec (d - 1) 0) as [E|E]; [discriminate H|].
        specialize (IH (S i) (d - 1)%Z ltac:(lia) H k ltac:(lia)). lia.
      * specialize (IH (S i) d Hd H k ltac:(lia)). lia.
Qed.

Lemma in_strip_fences (text : pystr) :
  In LBRACKET (strip_fences text) <-> In LBRACKET text.
Proof.
  rewrite <- (in_brackets LBRACKET (strip_fences text) eq_refl).
  rewrite brackets_strip_fences. apply (in_brackets LBRACKET text eq_refl).
Qed.

Lemma first_bracket_split (text : pystr) :
  In LBRACKET text ->
  exists pre post, text = pre ++ LBRACKET :: post /\ ~ In LBRACKET pre.
Proof.
  intros Hin. destruct (find_from LBRACKET text 0) as [n|] eqn:E.
  - apply find_from_some in E. destruct E as (pre & post & E & Hpre & _).
    exists pre, post. split; assumption.
  - apply find_from_none in E. contradiction.
Qed.

Lemma extract_json_incomplete_inv (text : pystr) :
  extract_json text = Raise ValueError_incomplete_array -> never_closes text.
Proof.
  unfold extract_json. intros E.
  destruct (find LBRACKET (strip_fences text)) as [n|] eqn:Hfind; [|discriminate E].
  apply find_from_some in Hfind.
  destruct Hfind as (pre' & post' & HT & Hpre' & Hn). simpl in Hn. subst n.
  rewrite HT, skipn_app_exact in E. cbn [scan_brackets] in E.
  change (LBRACKET =? LBRACKET) with true in E. cbv iota in E.
  change (0 + 1)%Z with 1%Z in E.
  assert (Hscan : scan_brackets post' (S (length pre')) 1 = None).
  { destruct (scan_brackets post' (S (length pre')) 1); [|reflexivity].
    rewrite <- HT in E.
    destruct (loads_total (slice (strip_fences text) (length pre') (n + 1)))
      as [[v Hv]|Hv]; rewrite Hv in E; discriminate E. }
  assert (Hin : In LBRACKET text).
  { apply in_strip_fences. rewrite HT. apply in_or_app. right. now left. }
  destruct (first_bracket_split text Hin) as (pre & post & Htext & Hpre).
  exists pre, post. split; [exact Htext|]. split; [exact Hpre|].
  assert (HB : brackets pre' ++ LBRACKET :: brackets post'
               = brackets pre ++ LBRACKET :: brackets post).
  { transitivity (brackets (strip_fences text)).
    - rewrite HT, brackets_app. reflexivity.
    - rewrite brackets_strip_fences, Htext, brackets_app. reflexivity. }
  apply first_occurrence_unique in HB.
  - destruct HB as [_ HB]. intros k Hk.
    apply (scan_brackets_filter post' _ 0%nat) in Hscan. rewrite HB in Hscan.
    apply (scan_brackets_filter post 0%nat) in Hscan.
    pose proof (scan_brackets_open post 0%nat 1 ltac:(lia) Hscan k Hk) as Hd.
    change (bracket_depth (LBRACKET :: firstn k post))
      with (1 + bracket_depth (firstn k post))%Z. exact Hd.
  - intros H. apply Hpre'. exact (proj1 (in_brackets LBRACKET _ eq_refl) H).
  - intros H. apply Hpre. exact (proj1 (in_brackets LBRACKET _ eq_refl) H).
Qed.

(** X1: [extract_json] returns nothing but lists; it raises its first
    ValueError exactly when the text holds no opening bracket, its second
    exactly when the depth counted from the first opening bracket never
    returns to zero; any other exception is the one [json.loads] raised on
    the candidate it cut out of the text. *)
Theorem extract_json_outcomes (text : pystr) :
  (forall v, extract_json text = Ok v -> exists l, v = JArr l)
  /\ (extract_json text = Raise ValueError_no_array_start <-> ~ In LBRACKET text)
  /\ (extract_json text = Raise ValueError_incomplete_array <-> never_closes text)
  /\ (forall e, extract_json text = Raise e ->
        e = ValueError_no_array_start \/ e = ValueError_incomplete_array
        \/ exists i j, Json.loads (slice (strip_fences text) i j) = Raise e).
Proof.
  assert (Hshape : forall e, extract_json text = Raise e ->
            (e = ValueError_no_array_start /\ ~ In LBRACKET text)
            \/ e = ValueError_incomplete_array
            \/ (e = JSONDecodeError
                /\ exists i j, Json.loads (slice (strip_fences text) i j) = Raise e)).
  { unfold extract_json. intros e E.
    destruct (find LBRACKET (strip_fences text)) as [n|] eqn:Hfind.
    - right.
      destruct (scan_brackets (skipn n (strip_fences text)) n 0) as [i|].
      + right.
        destruct (loads_total (slice (strip_fences text) n (i + 1))) as [[v Hv]|Hv].
        * rewrite Hv in E. discriminate E.
        * rewrite Hv in E. injection E as <-. split; [reflexivity|].
          exists n, (i + 1)%nat. exact Hv.
      + left. now inversion E.
    - left. split; [now inversion E|].
      apply find_from_none in Hfind. intros Hin. apply Hfind.
      apply in_strip_fences. exact Hin. }
  split; [|split; [|split]].
  - intros v E. exact (extract_json_array text v E).
  - split; [|apply extract_json_no_bracket].
    intros E. destruct (Hshape _ E) as [[_ H]|[H|[H _]]]; [exact H|discriminate H..].
  - split; [apply extract_json_incomplete_inv|apply extract_json_never_closes].
  - intros e E. destruct (Hshape e E) as [[-> _]|[->|[_ H]]]; auto.
Qed.

(** ** The extractor: what surrounds the array *)

Lemma lstrip_spaces (a t : pystr) : all_space a -> lstrip (a ++ t) = lstrip t.
Proof.
  intros H. induction H as [|c a Hc _ IH]; [reflexivity|].
  simpl. rewrite Hc. exact IH.
Qed.

Lemma rstrip_spaces (t b : pystr) : all_space b -> rstrip (t ++ b) = rstrip t.
Proof.
  intros H. unfold rstrip. rewrite rev_app_distr, lstrip_spaces; [reflexivity|].
  apply Forall_rev. exact H.
Qed.

Lemma strip_spaces_r (t b : pystr) : all_space b -> strip (t ++ b) = strip t.
Proof.
  intros H. unfold strip. induction t as [|c t IH].
  - simpl app. rewrite <- (List.app_nil_r b), lstrip_spaces by exact H. reflexivity.
  - cbn [app lstrip]. destruct (py_isspace c); [exact IH|].
    apply (rstrip_spaces (c :: t) b H).
Qed.

Lemma strip_spaces (a t b : pystr) :
  all_space a -> all_space b -> strip (a ++ t ++ b) = strip t.
Proof.
  intros Ha Hb. rewrite <- (strip_spaces_r t b Hb).
  unfold strip. rewrite lstrip_spaces by exact Ha. reflexivity.
Qed.

Lemma extract_json_strip_fences (t1 t2 : pystr) :
  strip_fences t1 = strip_fences t2 -> extract_json t1 = extract_json t2.
Proof. intros H. unfold extract_json. rewrite H. reflexivity. Qed.

(** X2: whitespace around a response does not matter to the extractor. *)
Theorem extract_json_ignores_outer_whitespace (a text b : pystr) :
  all_space a -> all_space b ->
  extract_json (a ++ text ++ b) = extract_json text.
Proof.
  intros Ha Hb. apply extract_json_strip_fences.
  unfold strip_fences. rewrite (strip_spaces a text b Ha Hb). reflexivity.
Qed.

Lemma extract_json_ignores_outer_whitespace_witness :
  extract_json ([32; 10] ++ dq "[{'a': 1}]" ++ [13; 10; 9]) = extract_json (dq "[{'a': 1}]").
Proof.
  apply extract_json_ignores_outer_whitespace; repeat constructor.
Defined.

Lemma strip_between (c e : char) (m : pystr) :
  py_isspace c = false -> py_isspace e = false ->
  strip (c :: m ++ [e]) = c :: m ++ [e].
Proof.
  intros Hc He. unfold strip. cbn [lstrip]. rewrite Hc.
  unfold rstrip.
  assert (E : rev (c :: m ++ [e]) = e :: rev (c :: m))
    by (change (c :: m ++ [e]) with ((c :: m) ++ [e]); apply rev_app_distr).
  rewrite E. cbn [lstrip]. rewrite He, <- E. apply rev_involutive.
Qed.

Lemma re_sub_fence_end_fence (x : pystr) : re_sub_fence_end (x ++ FENCE) = x.
Proof.
  unfold re_sub_fence_end. rewrite rev_app_distr.
  change (rev FENCE) with [96; 96; 96].
  rewrite (drop_prefix_self [96; 96; 96] (rev x)). apply rev_involutive.
Qed.

Lemma strip_fences_fenced (opening body : pystr) :
  opening = FENCE_JSON \/ opening = FENCE ->
  strip_fences (opening ++ NEWLINE :: body ++ FENCE_CLOSE) = strip body.
Proof.
  intros Hopen. unfold strip_fences.
  assert (Hstrip : strip (opening ++ NEWLINE :: body ++ FENCE_CLOSE)
                   = opening ++ NEWLINE :: body ++ FENCE_CLOSE).
  { assert (E : exists m, opening ++ NEWLINE :: body ++ FENCE_CLOSE
                          = BACKTICK :: m ++ [BACKTICK]).
    { destruct Hopen as [-> | ->].
      - exists (skipn 1 FENCE_JSON ++ NEWLINE :: body ++ [NEWLINE; BACKTICK; BACKTICK]).
        unfold FENCE_CLOSE. cbn. rewrite <- !app_assoc. reflexivity.
      - exists (skipn 1 FENCE ++ NEWLINE :: body ++ [NEWLINE; BACKTICK; BACKTICK]).
        unfold FENCE_CLOSE. cbn. rewrite <- !app_assoc. reflexivity. }
    destruct E as [m ->]. apply strip_between; reflexivity. }
  rewrite Hstrip.
  assert (Hstart : startswith FENCE (opening ++ NEWLINE :: body ++ FENCE_CLOSE) = true)
    by (destruct Hopen as [-> | ->]; reflexivity).
  rewrite Hstart.
  assert (Hsub : re_sub_prefix FENCE
                   (re_sub_prefix FENCE_JSON (opening ++ NEWLINE :: body ++ FENCE_CLOSE))
                 = (NEWLINE :: body ++ [NEWLINE]) ++ FENCE).
  { destruct Hopen as [-> | ->].
    - unfold re_sub_prefix at 2. rewrite drop_prefix_self.
      unfold FENCE_CLOSE. cbn. rewrite <- app_assoc. reflexivity.
    - unfold FENCE_CLOSE. cbn. rewrite <- app_assoc. reflexivity. }
  rewrite Hsub, re_sub_fence_end_fence.
  apply (strip_spaces [NEWLINE] body [NEWLINE]); repeat constructor.
Qed.

(** X3: a fenced block, tagged json or not, is transparent: unless the
    text inside itself starts with a fence, the extractor gives for the
    fenced text what it gives for the text inside. *)
Theorem extract_json_fence_transparent (body : pystr) :
  startswith FENCE (strip body) = false ->
  extract_json (fence_json body) = extract_json body
  /\ extract_json (fence_plain body) = extract_json body.
Proof.
  intros Hbody.
  assert (Hin : strip_fences body = strip body).
  { unfold strip_fences. rewrite Hbody. reflexivity. }
  split; apply extract_json_strip_fences; rewrite Hin.
  - unfold fence_json, FENCE_OPEN. rewrite <- app_assoc.
    apply (strip_fences_fenced FENCE_JSON). now left.
  - unfold fence_plain. apply (strip_fences_fenced FENCE). now right.
Qed.

Lemma extract_json_fence_transparent_witness :
  extract_json (fence_json (dq "[{'a': [1, 2]}] trailing"))
  = extract_json (dq "[{'a': [1, 2]}] trailing")
  /\ extract_json (fence_plain (dq "[{'a': [1, 2]}] trailing"))
     = extract_json (dq "[{'a': [1, 2]}] trailing").
Proof. apply extract_json_fence_transparent. reflexivity. Defined.

(** X4: the extractor returns the first bracketed text whose brackets
    close, parsed, and ignores whatever follows it, further arrays
    included; what precedes it must hold no opening bracket. *)
Theorem extract_json_ignores_rest (a inner b : pystr) :
  ~ In LBRACKET a -> balanced inner ->
  extract_json (a ++ array_text inner ++ b) = Json.loads (array_text inner)
  /\ extract_json (a ++ array_text inner ++ b) = extract_json (a ++ array_text inner).
Proof.
  intros Ha Hin.
  assert (H : forall b', extract_json (a ++ array_text inner ++ b')
                         = Json.loads (array_text inner)).
  { intros b'. apply extract_json_holds_array; [exact Hin|].
    exists a, b'. split; [reflexivity|exact Ha]. }
  split; [apply H|].
  rewrite H, <- (H []), List.app_nil_r. reflexivity.
Qed.

Lemma extract_json_ignores_rest_witness :
  extract_json (str "Result: " ++ array_text (str "1, 2") ++ str " and also [3, 4]]")
  = Ok (JArr [JInt 1; JInt 2]).
Proof.
  etransitivity.
  - apply extract_json_ignores_rest; [cbv; intuition discriminate|reflexivity].
  - vm_compute. reflexivity.
Defined.

(** ** The input file *)

Lemma should_skip_kept (d : pystr) : should_skip (Some d) = false -> kept d.
Proof.
  intros H. split; [exact H|].
  destruct d as [|c d]; [discriminate H|].
  cbn [should_skip] in H.
  destruct (Nat.leb_spec (length (c :: d)) 4) as [Hle|Hgt]; [discriminate H|lia].
Qed.

Lemma read_devices_kept (rows : list csv_row) :
  forall acc devices, read_devices rows acc = Ok devices ->
  Forall kept acc -> Forall kept devices.
Proof.
  induction rows as [|row rows IH]; intros acc devices H Hacc; cbn [read_devices] in H.
  - inversion H. subst. exact Hacc.
  - destruct (clean_row_keys row []) as [r|e]; [|discriminate H]. cbn [rbind] in H.
    destruct (Dict.get pystr_eqb ODM r) as [[d|]|]; try (exact (IH _ _ H Hacc)).
    destruct d as [|c d]; [exact (IH _ _ H Hacc)|].
    match type of H with
    | (if ?b then _ else _) = _ => destruct b eqn:Hs; [exact (IH _ _ H Hacc)|]
    end.
    apply (IH _ _ H). apply Forall_app. split; [exact Hacc|].
    constructor; [|constructor]. apply should_skip_kept. exact Hs.
Qed.

Lemma labels_of_kept (w : world) : Forall kept (labels_of w).
Proof.
  unfold labels_of. destruct (input_csv w) as [rows|e]; [|constructor].
  destruct (read_devices rows []) as [devices|e] eqn:E; [|constructor].
  apply (read_devices_kept rows [] devices E). constructor.
Qed.

(** X5: no provider is ever sent a label the filter drops: every label
    sent passed [should_skip], so it has at least five characters. *)
Theorem dropped_labels_are_never_sent (w : world) (p : provider) :
  Forall kept (labels_sent p (fst (main w))).
Proof.
  destruct (main_sent_prefix w p) as [remaining H].
  pose proof (labels_of_kept w) as Hk. rewrite H in Hk.
  apply Forall_app in Hk. exact (proj1 Hk).
Qed.

Lemma lstrip_head (t : pystr) : py_isspace (hd 32 t) = false -> lstrip t = t.
Proof. destruct t as [|c t]; simpl; [reflexivity|]. intros H. rewrite H. reflexivity. Qed.

Lemma hd_rev (d : char) (t : pystr) : hd d (rev t) = last t d.
Proof.
  induction t as [|c t IH] using rev_ind; [reflexivity|].
  rewrite rev_app_distr, last_last. reflexivity.
Qed.

Lemma strip_plain (t : pystr) :
  py_isspace (hd 32 t) = false -> py_isspace (last t 32) = false -> strip t = t.
Proof.
  intros Hh Hl. unfold strip, rstrip. rewrite (lstrip_head t Hh).
  rewrite lstrip_head by (rewrite hd_rev; exact Hl). apply rev_involutive.
Qed.

Lemma lstrip_char_quotes (q t : pystr) :
  all_quotes q -> lstrip_char QUOTE (q ++ t) = lstrip_char QUOTE t.
Proof.
  intros H. induction H as [|c q Hc _ IH]; [reflexivity|].
  subst c. cbn [app lstrip_char]. rewrite N.eqb_refl. exact IH.
Qed.

Lemma lstrip_char_head (t : pystr) :
  hd QUOTE t <> QUOTE -> lstrip_char QUOTE t = t.
Proof.
  destruct t as [|c t]; simpl; [reflexivity|]. intros H.
  destruct (N.eqb_spec c QUOTE); [contradiction|reflexivity].
Qed.

Lemma strip_char_quotes (q1 name q2 : pystr) :
  all_quotes q1 -> all_quotes q2 ->
  hd QUOTE name <> QUOTE -> last name QUOTE <> QUOTE ->
  strip_char QUOTE (q1 ++ name ++ q2) = name.
Proof.
  intros H1 H2 Hh Hl. unfold strip_char.
  rewrite (lstrip_char_quotes q1 _ H1).
  assert (Hne : name <> []) by (intros ->; apply Hh; reflexivity).
  assert (E : lstrip_char QUOTE (name ++ q2) = name ++ q2).
  { apply lstrip_char_head. destruct name; [contradiction|exact Hh]. }
  rewrite E, rev_app_distr, lstrip_char_quotes by (apply Forall_rev; exact H2).
  rewrite lstrip_char_head by (rewrite hd_rev; exact Hl). apply rev_involutive.
Qed.

Lemma hd_decorated (q1 name q2 : pystr) :
  all_quotes q1 -> name <> [] ->
  hd 32 (q1 ++ name ++ q2) = QUOTE \/ hd 32 (q1 ++ name ++ q2) = hd 32 name.
Proof.
  intros H Hne. destruct H as [|c q Hc _]; [|left; exact Hc].
  right. destruct name; [contradiction|reflexivity].
Qed.

Lemma last_decorated (q1 name q2 : pystr) :
  all_quotes q2 -> name <> [] ->
  last (q1 ++ name ++ q2) 32 = QUOTE \/ last (q1 ++ name ++ q2) 32 = last name 32.
Proof.
  intros H Hne. rewrite <- !hd_rev, !rev_app_distr, <- app_assoc.
  apply hd_decorated; [apply Forall_rev; exact H|].
  intros E. apply Hne. rewrite <- (rev_involutive name), E. reflexivity.
Qed.

(** X6: [clean_row_keys] undoes the decoration of a header name:
    whitespace around double quotes around the name.  The name itself must
    not start or end with whitespace or a quote. *)
Theorem clean_key_undecorates (a q1 name q2 b : pystr) (v : option pystr) :
  all_space a -> all_space b -> all_quotes q1 -> all_quotes q2 ->
  py_isspace (hd 32 name) = false -> hd QUOTE name <> QUOTE ->
  py_isspace (last name 32) = false -> last name QUOTE <> QUOTE ->
  clean_key (a ++ q1 ++ name ++ q2 ++ b) = name
  /\ clean_row_keys [(Some (a ++ q1 ++ name ++ q2 ++ b), v)] [] = Ok [(name, v)].
Proof.
  intros Ha Hb H1 H2 Hhs Hhq Hls Hlq.
  assert (Hne : name <> []) by (intros ->; apply Hhq; reflexivity).
  assert (E : clean_key (a ++ q1 ++ name ++ q2 ++ b) = name).
  { unfold clean_key.
    replace (a ++ q1 ++ name ++ q2 ++ b) with (a ++ (q1 ++ name ++ q2) ++ b)
      by (rewrite <- !app_assoc; reflexivity).
    rewrite (strip_spaces a _ b Ha Hb).
    rewrite strip_plain.
    - apply strip_char_quotes; assumption.
    - destruct (hd_decorated q1 name q2 H1 Hne) as [-> | ->]; [reflexivity|exact Hhs].
    - destruct (last_decorated q1 name q2 H2 Hne) as [-> | ->]; [reflexivity|exact Hls]. }
  split; [exact E|]. cbn [clean_row_keys]. rewrite E. reflexivity.
Qed.

Lemma clean_key_undecorates_witness :
  clean_key ([32; 9] ++ [QUOTE] ++ ODM ++ [QUOTE] ++ [32]) = ODM
  /\ clean_row_keys [(Some ([32; 9] ++ [QUOTE] ++ ODM ++ [QUOTE] ++ [32]),
                      Some (str "TAS-AN00"))] []
     = Ok [(ODM, Some (str "TAS-AN00"))].
Proof.
  apply clean_key_undecorates; repeat constructor; cbv; discriminate.
Defined.

Lemma clean_row_keys_lookup (cols : list (pystr * option pystr)) :
  forall acc, exists r,
    clean_row_keys (regular_row cols) acc = Ok r
    /\ forall k, Dict.get pystr_eqb k r
                 = match last_column k cols with
                   | Some v => Some v
                   | None => Dict.get pystr_eqb k acc
                   end.
Proof.
  unfold last_column.
  induction cols as [|[k' v'] cols IH]; intros acc.
  - exists acc. split; reflexivity.
  - cbn [regular_row map fst snd clean_row_keys].
    destruct (IH (Dict.set pystr_eqb (clean_key k') v' acc)) as (r & Hr & Hget).
    exists r. split; [exact Hr|]. intros k. rewrite Hget.
    cbn [rev]. rewrite find_app. cbn [List.find fst].
    destruct (List.find _ (rev cols)) as [kv|]; [reflexivity|].
    rewrite dict_get_set. destruct (pystr_eqb k (clean_key k')); reflexivity.
Qed.

(** X7: when several header names clean to the same key, the cell of the
    right-most such column is the one [clean_row_keys] keeps; a key no
    column cleans to is missing. *)
Theorem clean_row_keys_last_column_wins (cols : list (pystr * option pystr)) :
  exists r,
    clean_row_keys (regular_row cols) [] = Ok r
    /\ forall k, Dict.get pystr_eqb k r = last_column k cols.
Proof.
  destruct (clean_row_keys_lookup cols []) as (r & Hr & Hget).
  exists r. split; [exact Hr|]. intros k. rewrite Hget.
  destruct (last_column k cols); reflexivity.
Qed.

Lemma clean_row_keys_raise (row : csv_row) :
  forall acc e, clean_row_keys row acc = Raise e -> e = AttributeError.
Proof.
  induction row as [|[[k|] v] row IH]; intros acc e H; cbn [clean_row_keys] in H.
  - discriminate H.
  - exact (IH _ _ H).
  - now inversion H.
Qed.

Lemma clean_row_keys_overlong (row : csv_row) (v : option pystr) :
  In (None, v) row -> forall acc, clean_row_keys row acc = Raise AttributeError.
Proof.
  induction row as [|[[k|] v'] row IH]; intros Hin acc; cbn [clean_row_keys].
  - destruct Hin.
  - apply IH. destruct Hin as [E|Hin]; [discriminate E|exact Hin].
  - reflexivity.
Qed.

Lemma read_devices_overlong (rows : list csv_row) :
  overlong_row rows -> forall acc, read_devices rows acc = Raise AttributeError.
Proof.
  intros (row & v & Hrow & Hv). induction rows as [|row' rows IH]; intros acc.
  - destruct Hrow.
  - cbn [read_devices].
    destruct (clean_row_keys row' []) as [r|e] eqn:E.
    + cbn [rbind]. destruct Hrow as [->|Hrow].
      * rewrite (clean_row_keys_overlong row v Hv) in E. discriminate E.
      * destruct (Dict.get pystr_eqb ODM r) as [[d|]|]; try (apply IH; exact Hrow).
        destruct d as [|c d]; [apply IH; exact Hrow|].
        match goal with
        | |- (if ?b then _ else _) = _ => destruct b; apply IH; exact Hrow
        end.
    + cbn [rbind]. rewrite (clean_row_keys_raise _ _ _ E). reflexivity.
Qed.

(** X8: a line of the input file with more cells than the header aborts
    the run with an AttributeError, wherever the line is: before any
    provider call, and before the output file is opened. *)
Theorem overlong_row_aborts (w : world) (rows : list csv_row) :
  input_csv w = Ok rows -> overlong_row rows ->
  snd (main w) = Raise AttributeError
  /\ calls (fst (main w)) = []
  /\ output (fst (main w)) = output_csv w.
Proof.
  intros Hin Hrows. unfold main. rewrite Hin.
  rewrite (read_devices_overlong rows Hrows []). repeat split.
Qed.

Lemma overlong_row_aborts_witness :
  snd (main OVERLONG_WORLD) = Raise AttributeError
  /\ calls (fst (main OVERLONG_WORLD)) = []
  /\ output (fst (main OVERLONG_WORLD)) = None.
Proof.
  apply (overlong_row_aborts OVERLONG_WORLD
           [[(Some ODM, Some (str "TAS-AN00"))];
            [(Some ODM, Some (str "SM-G9350")); (None, Some (str "extra"))]]).
  - reflexivity.
  - eexists _, _. split; [right; left; reflexivity|right; left; reflexivity].
Defined.

(** ** The output file across runs *)

Lemma in_step_refl (st1 st2 : state) (r : result unit) :
  same_run st1 st2 -> in_step (st1, r) (st2, r) st1 st2.
Proof.
  intros H. split; [reflexivity|]. split; [exact H|].
  exists []. rewrite !List.app_nil_r. split; reflexivity.
Qed.

Lemma in_step_shift (a1 a2 : state * result unit) (s1 s2 t1 t2 : state) (x : list line) :
  rows_of s1 = rows_of t1 ++ x -> rows_of s2 = rows_of t2 ++ x ->
  in_step a1 a2 s1 s2 -> in_step a1 a2 t1 t2.
Proof.
  intros H1 H2 (Hr & Hs & new & N1 & N2). split; [exact Hr|]. split; [exact Hs|].
  exists (x ++ new). rewrite N1, N2, H1, H2, <- !app_assoc. split; reflexivity.
Qed.

Lemma lines_of_append (l : line) (st : state) :
  lines_of (output (append_line l st)) = lines_of (output st) ++ [l].
Proof. unfold append_line, lines_of. simpl. destruct (output st); reflexivity. Qed.

Lemma rows_of_append_row (cells : list json) (st : state) :
  rows_of (append_line (Row cells) st) = rows_of st ++ [Row cells].
Proof. unfold rows_of. rewrite lines_of_append, filter_app. reflexivity. Qed.

Lemma rows_of_append_header (fs : list pystr) (st : state) :
  rows_of (append_line (Header fs) st) = rows_of st.
Proof. unfold rows_of. rewrite lines_of_append, filter_app. apply List.app_nil_r. Qed.

Lemma write_rows_sim (gm_map : list (json * json)) (rows : list json) :
  forall st1 st2, same_run st1 st2 ->
  in_step (write_rows gm_map rows st1) (write_rows gm_map rows st2) st1 st2.
Proof.
  induction rows as [|row rows IH]; intros st1 st2 Hsame.
  - apply in_step_refl. exact Hsame.
  - destruct (merge_row gm_map row) as [merged|e] eqn:Hm.
    2:{ rewrite !(write_rows_merge_fails _ _ _ _ _ Hm). apply in_step_refl. exact Hsame. }
    destruct (merge_row_dict _ _ _ Hm) as [d ->].
    destruct Hsame as [Hc Hw].
    destruct (writer st1) as [fs|] eqn:Hw1.
    + rewrite (write_rows_next _ _ _ _ _ _ Hm Hw1).
      rewrite (write_rows_next _ _ _ st2 fs _ Hm) by (symmetry; exact Hw).
      destruct (writerow fs merged) as [cells|e].
      * apply (in_step_shift _ _ _ _ st1 st2 [Row cells]
                 (rows_of_append_row cells st1) (rows_of_append_row cells st2)).
        apply IH. split; [exact Hc|]. simpl. rewrite Hw1. exact Hw.
      * apply in_step_refl. split; [exact Hc|]. rewrite Hw1. exact Hw.
    + destruct (write_rows_first _ _ rows st1 _ Hm Hw1) as (cells & Hcells & ->).
      destruct (write_rows_first _ _ rows st2 _ Hm (eq_sym Hw)) as (cells' & Hcells' & ->).
      rewrite Hcells in Hcells'. injection Hcells' as <-.
      match goal with
      | |- in_step (write_rows _ _ (append_line _ ?p1))
                   (write_rows _ _ (append_line _ ?p2)) _ _ =>
        assert (H1 : rows_of p1 = rows_of st1)
          by (destruct (file_exists st1);
              [reflexivity
              |exact (rows_of_append_header (Dict.keys merged)
                        (set_writer (Dict.keys merged) st1))]);
        assert (H2 : rows_of p2 = rows_of st2)
          by (destruct (file_exists st2);
              [reflexivity
              |exact (rows_of_append_header (Dict.keys merged)
                        (set_writer (Dict.keys merged) st2))]);
        assert (Hp : same_run p1 p2)
          by (destruct (file_exists st1), (file_exists st2); split; simpl; congruence);
        apply (in_step_shift _ _ (append_line (Row cells) p1) (append_line (Row cells) p2)
                 st1 st2 [Row cells])
      end.
      * rewrite rows_of_append_row, H1. reflexivity.
      * rewrite rows_of_append_row, H2. reflexivity.
      * apply IH. destruct Hp as [Hpc Hpw]. split; simpl; assumption.
Qed.

Lemma in_step_same_rows (a1 a2 : state * result unit) (s1 s2 t1 t2 : state) :
  rows_of s1 = rows_of t1 -> rows_of s2 = rows_of t2 ->
  in_step a1 a2 s1 s2 -> in_step a1 a2 t1 t2.
Proof.
  intros H1 H2. apply (in_step_shift a1 a2 s1 s2 t1 t2 []).
  - rewrite H1. symmetry. apply List.app_nil_r.
  - rewrite H2. symmetry. apply List.app_nil_r.
Qed.

Lemma process_batch_sim (w : world) (devices : list pystr) (i : nat) (st1 st2 : state) :
  same_run st1 st2 ->
  in_step (process_batch w devices i st1) (process_batch w devices i st2) st1 st2.
Proof.
  intros [Hc Hw]. unfold process_batch.
  set (batch := slice devices i (i + BATCH_SIZE)).
  set (a1 := log_calls (dispatches DeepSeek batch) st1).
  set (a2 := log_calls (dispatches DeepSeek batch) st2).
  set (b1 := log_calls (dispatches Gemini batch) a1).
  set (b2 := log_calls (dispatches Gemini batch) a2).
  assert (Ha : same_run a1 a2) by (split; simpl; congruence).
  assert (Hb : same_run b1 b2) by (split; simpl; congruence).
  destruct (collect w DeepSeek i batch) as [ds_results|e].
  2:{ apply (in_step_same_rows _ _ a1 a2); [reflexivity..|]. apply in_step_refl, Ha. }
  destruct (collect w Gemini i batch) as [gm_results|e].
  2:{ apply (in_step_same_rows _ _ b1 b2); [reflexivity..|]. apply in_step_refl, Hb. }
  destruct (build_gm_map gm_results []) as [gm_map|e].
  2:{ apply (in_step_same_rows _ _ b1 b2); [reflexivity..|]. apply in_step_refl, Hb. }
  apply (in_step_same_rows _ _ b1 b2); [reflexivity..|]. apply write_rows_sim, Hb.
Qed.

Lemma batch_loop_sim (w : world) (devices : list pystr) (starts : list nat) :
  forall st1 st2, same_run st1 st2 ->
  in_step (batch_loop w devices starts st1) (batch_loop w devices starts st2) st1 st2.
Proof.
  induction starts as [|i starts IH]; intros st1 st2 Hsame.
  - apply in_step_refl. exact Hsame.
  - cbn [batch_loop].
    pose proof (process_batch_sim w devices i st1 st2 Hsame) as Hstep.
    destruct (process_batch w devices i st1) as [s1 r1].
    destruct (process_batch w devices i st2) as [s2 r2].
    destruct Hstep as (Hr & Hs & new & N1 & N2). simpl in Hr, Hs, N1, N2. subst r2.
    destruct r1 as [u|e].
    + apply (in_step_shift _ _ s1 s2 st1 st2 new N1 N2). apply IH. exact Hs.
    + split; [reflexivity|]. split; [exact Hs|]. exists new. split; assumption.
Qed.

Lemma batch_loop_with_output (o : option (list line)) (w : world)
    (devices : list pystr) (starts : list nat) :
  forall st, batch_loop (with_output o w) devices starts st
             = batch_loop w devices starts st.
Proof.
  induction starts as [|i starts IH]; intros st; [reflexivity|].
  cbn [batch_loop].
  change (process_batch (with_output o w) devices i st)
    with (process_batch w devices i st).
  destruct (process_batch w devices i st) as [st' [u|e]]; [apply IH|reflexivity].
Qed.

Lemma main_in_step (o : option (list line)) (w : world) :
  snd (main (with_output o w)) = snd (main w)
  /\ calls (fst (main (with_output o w))) = calls (fst (main w))
  /\ exists new,
       rows_of (fst (main (with_output o w))) = filter is_row (lines_of o) ++ new
       /\ rows_of (fst (main w)) = filter is_row (lines_of (output_csv w)) ++ new.
Proof.
  unfold main. cbn [input_csv output_csv with_output].
  destruct (input_csv w) as [rows|e].
  2:{ repeat split. exists []. rewrite !List.app_nil_r. split; reflexivity. }
  destruct (read_devices rows []) as [devices|e].
  2:{ repeat split. exists []. rewrite !List.app_nil_r. split; reflexivity. }
  rewrite batch_loop_with_output.
  destruct (batch_loop_sim w devices (range 0 (length devices) BATCH_SIZE)
              (open_append
                 {| output := o; calls := []; writer := None;
                    file_exists := match o with Some _ => true | None => false end |})
              (open_append
                 {| output := output_csv w; calls := []; writer := None;
                    file_exists := match output_csv w with
                                   | Some _ => true
                                   | None => false
                                   end |}))
    as (Hr & [Hc _] & new & N1 & N2); [split; reflexivity|].
  split; [exact Hr|]. split; [exact Hc|].
  exists new. split.
  - rewrite N1. unfold rows_of. simpl. destruct o; reflexivity.
  - rewrite N2. unfold rows_of. simpl. destruct (output_csv w); reflexivity.
Qed.

Lemma rows_of_main (w : world) :
  rows_of (fst (main w)) = filter is_row (lines_of (output_csv w)) ++ data_rows w.
Proof.
  destruct (main_appended w) as (_ & _ & _ & _ & H & _).
  unfold rows_of, data_rows. rewrite H, filter_app. reflexivity.
Qed.

(** X9: what a run does is independent of the output file it finds: the
    result of the run, the calls made and the rows appended are the same;
    only the header depends on it. *)
Theorem rows_do_not_depend_on_output_file (w : world) (o : option (list line)) :
  snd (main (with_output o w)) = snd (main w)
  /\ calls (fst (main (with_output o w))) = calls (fst (main w))
  /\ data_rows (with_output o w) = data_rows w.
Proof.
  destruct (main_in_step o w) as (Hr & Hc & new & N1 & N2).
  split; [exact Hr|]. split; [exact Hc|].
  rewrite rows_of_main in N1, N2. cbn [output_csv with_output] in N1.
  apply app_inv_head in N1. apply app_inv_head in N2. congruence.
Qed.

Lemma header_needs_new_file (w : world) (fs : list pystr) :
  In (Header fs) (written w) ->
  output_csv w = None /\ exists cells, In (Row cells) (written w).
Proof.
  intros Hin. destruct (main_appended w) as (ds & rest & _ & _ & _ & H).
  destruct ds as [|d1st ds'].
  - destruct H as [Hw _]. rewrite Hw in Hin. destruct Hin.
  - destruct H as (gm & merged & cells & rows & _ & _ & _ & Hrows & Hw).
    rewrite Hw in Hin |- *. split.
    + destruct (output_csv w); [|reflexivity]. exfalso.
      destruct Hin as [Hin|Hin]; [discriminate Hin|].
      exact (header_not_data_row _ fs rows (rows_are_data_rows _ _ _ Hrows) Hin).
    + exists cells. apply in_or_app. right. now left.
Qed.

Lemma no_header_filter (l : list line) :
  (forall fs, ~ In (Header fs) l) -> filter is_row l = l.
Proof.
  induction l as [|[fs|cells] l IH]; intros H; [reflexivity| |].
  - exfalso. apply (H fs). now left.
  - simpl. f_equal. apply IH. intros fs Hin. apply (H fs). now right.
Qed.

Lemma written_rerun (w : world) :
  lines_of (output (fst (main (rerun w))))
  = lines_of (output (fst (main w))) ++ written (rerun w).
Proof. destruct (main_appended (rerun w)) as (_ & _ & _ & _ & H & _). exact H. Qed.

(** X10: running again on the file the first run left, with the same
    input and the same answers, ends the same way and appends the same
    rows once more, without a header: nothing is deduplicated. *)
Theorem rerun_appends_the_rows_again (w : world) :
  snd (main (rerun w)) = snd (main w)
  /\ (forall fs, ~ In (Header fs) (written (rerun w)))
  /\ written (rerun w) = data_rows w
  /\ lines_of (output (fst (main (rerun w))))
     = lines_of (output_csv w) ++ written w ++ data_rows w.
Proof.
  destruct (main_in_step (output (fst (main w))) w) as (Hr & _ & new & N1 & N2).
  fold (rerun w) in Hr, N1.
  assert (Hrows : data_rows (rerun w) = data_rows w).
  { rewrite rows_of_main in N1, N2. apply app_inv_head in N1. apply app_inv_head in N2.
    congruence. }
  assert (Hno : forall fs, ~ In (Header fs) (written (rerun w))).
  { intros fs Hin. destruct (header_needs_new_file _ _ Hin) as [Hnone [cells Hcells]].
    assert (Hd : In (Row cells) (data_rows w)).
    { rewrite <- Hrows. apply filter_In. split; [exact Hcells|reflexivity]. }
    apply filter_In in Hd. destruct Hd as [Hd _].
    destruct (main_appended w) as (_ & _ & _ & _ & Hl & _).
    cbn [rerun with_output output_csv] in Hnone. rewrite Hnone in Hl. simpl in Hl.
    destruct (lines_of (output_csv w)); [|discriminate Hl].
    simpl in Hl. rewrite <- Hl in Hd. destruct Hd. }
  assert (Hw : written (rerun w) = data_rows w).
  { rewrite <- Hrows. symmetry. apply no_header_filter. exact Hno. }
  split; [exact Hr|]. split; [exact Hno|]. split; [exact Hw|].
  rewrite written_rerun, Hw.
  destruct (main_appended w) as (_ & _ & _ & _ & Hl & _).
  rewrite Hl, <- app_assoc. reflexivity.
Qed.

Lemma opened_append (l : line) (st : state) : opened (append_line l st).
Proof. unfold opened, append_line. simpl. eauto. Qed.

Lemma write_rows_opened (gm_map : list (json * json)) (rows : list json) :
  forall st, opened st -> opened (fst (write_rows gm_map rows st)).
Proof.
  induction rows as [|row rows IH]; intros st Hst; [exact Hst|].
  destruct (merge_row gm_map row) as [merged|e] eqn:Hm.
  2:{ rewrite (write_rows_merge_fails _ _ _ _ _ Hm). exact Hst. }
  destruct (merge_row_dict _ _ _ Hm) as [d ->].
  destruct (writer st) as [fs|] eqn:Hw.
  - rewrite (write_rows_next _ _ _ _ _ _ Hm Hw).
    destruct (writerow fs merged); [apply IH, opened_append|exact Hst].
  - destruct (write_rows_first _ _ rows st _ Hm Hw) as (cells & _ & ->).
    apply IH, opened_append.
Qed.

Lemma process_batch_opened (w : world) (devices : list pystr) (i : nat) (st : state) :
  opened st -> opened (fst (process_batch w devices i st)).
Proof.
  intros Hst. unfold process_batch.
  destruct (collect w DeepSeek i _); [|exact Hst].
  destruct (collect w Gemini i _); [|exact Hst].
  destruct (build_gm_map _ []); [|exact Hst].
  apply write_rows_opened. exact Hst.
Qed.

Lemma batch_loop_opened (w : world) (devices : list pystr) (starts : list nat) :
  forall st, opened st -> opened (fst (batch_loop w devices starts st)).
Proof.
  induction starts as [|i starts IH]; intros st Hst; [exact Hst|].
  cbn [batch_loop]. pose proof (process_batch_opened w devices i st Hst) as H.
  destruct (process_batch w devices i st) as [st' [u|e]]; [apply IH|]; exact H.
Qed.

(** X11: a run that gets past reading its input leaves the output file
    in existence even when it writes no row, so that no later run on that
    file writes a header, whatever it appends. *)
Theorem output_file_is_created (w : world) (rows : list csv_row) (devices : list pystr) :
  input_csv w = Ok rows -> read_devices rows [] = Ok devices ->
  opened (fst (main w))
  /\ (written w = [] -> output (fst (main w)) = Some (lines_of (output_csv w)))
  /\ forall w2, output_csv w2 = output (fst (main w)) ->
       forall fs, ~ In (Header fs) (written w2).
Proof.
  intros Hin Hread.
  assert (Hopen : opened (fst (main w))).
  { unfold main. rewrite Hin, Hread. apply batch_loop_opened.
    unfold opened, open_append. simpl. eauto. }
  split; [exact Hopen|]. split.
  - intros Hw. destruct Hopen as [ls Hls].
    destruct (main_appended w) as (_ & _ & _ & _ & Hl & _).
    rewrite Hw, List.app_nil_r, Hls in Hl. simpl in Hl. rewrite Hls, Hl. reflexivity.
  - intros w2 H2 fs Hhdr. destruct (header_needs_new_file _ _ Hhdr) as [Hnone _].
    destruct Hopen as [ls Hls]. congruence.
Qed.

Lemma output_file_is_created_witness :
  opened (fst (main NO_ANSWER_WORLD))
  /\ output (fst (main NO_ANSWER_WORLD)) = Some [].
Proof.
  destruct (output_file_is_created NO_ANSWER_WORLD
              [[(Some ODM, Some (str "TAS-AN00"))]] [str "TAS-AN00"]
              eq_refl eq_refl) as (H1 & H2 & _).
  split; [exact H1|]. apply H2. reflexivity.
Defined.

(** ** What a run that completes requires of the records *)

Lemma merge_row_hashable (gm_map : list (json * json)) (d merged : record) :
  merge_row gm_map (JObj d) = Ok merged -> hashable (rget_or_none ODM d) = true.
Proof.
  unfold merge_row. destruct (hashable (rget_or_none ODM d)); [reflexivity|discriminate].
Qed.

Lemma keys_rset (k : pystr) (v : json) (d : record) :
  incl (Dict.keys d) (Dict.keys (rset k v d)).
Proof.
  unfold rset, Dict.keys. induction d as [|[k' v'] d IH]; intros x Hx; [destruct Hx|].
  cbn [Dict.set]. destruct (pystr_eqb k k'); [exact Hx|].
  destruct Hx as [Hx|Hx]; [now left|right; exact (IH x Hx)].
Qed.

Lemma keys_fold_rset (kvs : list (pystr * json)) :
  forall d, incl (Dict.keys d)
                 (Dict.keys (fold_left (fun acc kv => rset (fst kv) (snd kv) acc) kvs d)).
Proof.
  induction kvs as [|kv kvs IH]; intros d; [apply incl_refl|].
  cbn [fold_left]. eapply incl_tran; [apply keys_rset|apply IH].
Qed.

Lemma merge_row_keeps_keys (gm_map : list (json * json)) (d merged : record) :
  merge_row gm_map (JObj d) = Ok merged -> incl (Dict.keys d) (Dict.keys merged).
Proof.
  intros H. destruct (merge_row_shape _ _ _ H) as (vs & _ & ->). apply keys_fold_rset.
Qed.

Lemma writerow_known_keys (fs : list pystr) (merged : record) (cells : list json) :
  writerow fs merged = Ok cells -> incl (Dict.keys merged) fs.
Proof.
  unfold writerow.
  destruct (forallb _ (Dict.keys merged)) eqn:E; [|discriminate]. intros _ k Hk.
  rewrite forallb_forall in E. specialize (E k Hk).
  apply existsb_exists in E. destruct E as (k' & Hk' & Heq).
  apply pystr_eqb_eq in Heq. subst k'. exact Hk'.
Qed.

Lemma row_of_known_keys (fs : list pystr) (d : record) (l : line) :
  row_of fs d l ->
  hashable (rget_or_none ODM d) = true /\ incl (Dict.keys d) fs.
Proof.
  intros (gm & merged & cells & Hm & Hc & _). split.
  - exact (merge_row_hashable _ _ _ Hm).
  - eapply incl_tran; [exact (merge_row_keeps_keys _ _ _ Hm)|].
    exact (writerow_known_keys _ _ _ Hc).
Qed.

Lemma Forall2_in_l {A B} (P : A -> B -> Prop) (l : list A) (l' : list B) (x : A) :
  Forall2 P l l' -> In x l -> exists y, In y l' /\ P x y.
Proof.
  induction 1 as [|a b l l' Hab _ IH]; intros Hin; [destruct Hin|].
  destruct Hin as [->|Hin].
  - exists b. split; [now left|exact Hab].
  - destruct (IH Hin) as (y & Hy & Hp). exists y. split; [now right|exact Hp].
Qed.

(** X12: a run completes only if every record DeepSeek returned is an
    object, with an origin_device_model that can be a dict key, and with no
    key besides the columns fixed by the first row: any other record
    aborts the run, since only the calls are guarded. *)
Theorem complete_run_records (w : world) :
  fair_arrival w -> snd (main w) = Ok tt ->
  forall r, In r (primary_returned w) ->
  exists d, r = JObj d
            /\ hashable (rget_or_none ODM d) = true
            /\ forall fs, writer (fst (main w)) = Some fs -> incl (Dict.keys d) fs.
Proof.
  intros Hfair Hok r Hr.
  apply (Permutation_in _ (Permutation_sym (primary_records_returned w Hfair))) in Hr.
  destruct (main_appended w) as (ds & rest & Hrec & Hrest & _ & H).
  rewrite (Hrest Hok), List.app_nil_r in Hrec. rewrite Hrec in Hr.
  apply in_map_iff in Hr. destruct Hr as (d & <- & Hd).
  exists d. split; [reflexivity|].
  destruct ds as [|d1st ds']; [destruct Hd|].
  destruct H as (gm & merged & cells & rows & Hm & Hc & Hw & Hrows & _).
  assert (Hrow : exists l, row_of (Dict.keys merged) d l).
  { destruct Hd as [<-|Hd].
    - exists (Row cells). exact (row_of_intro _ _ _ _ _ Hm Hc).
    - destruct (Forall2_in_l _ _ _ _ Hrows Hd) as (l & _ & Hl). now exists l. }
  destruct Hrow as [l Hl]. destruct (row_of_known_keys _ _ _ Hl) as [Hh Hk].
  split; [exact Hh|]. intros fs Hfs. rewrite Hw in Hfs. injection Hfs as <-. exact Hk.
Qed.

Lemma complete_run_records_witness :
  Forall (fun r => exists d, r = JObj d
                             /\ hashable (rget_or_none ODM d) = true
                             /\ forall fs, writer (fst (main sample_world)) = Some fs ->
                                  incl (Dict.keys d) fs)
         (primary_returned sample_world).
Proof.
  apply Forall_forall.
  apply complete_run_records; [exact sample_world_fair|vm_compute; reflexivity].
Defined.

(** ** Rows follow the order of collection *)

Lemma column_in (fs : list pystr) (g : pystr -> json) (k : pystr) :
  In k fs -> column fs (map g fs) k = Some (g k).
Proof.
  unfold column. induction fs as [|a fs IH]; intros Hin; [destruct Hin|].
  cbn [map combine Dict.get].
  destruct (pystr_eqb k a) eqn:E.
  - apply pystr_eqb_eq in E. subst a. reflexivity.
  - apply IH. destruct Hin as [->|Hin]; [|exact Hin].
    rewrite pystr_eqb_refl in E. discriminate E.
Qed.

Lemma row_of_odm_cell (fs : list pystr) (d : record) (l : line) :
  In ODM fs -> row_of fs d l -> odm_cell fs l = Some (odm_written (JObj d)).
Proof.
  intros Hin (gm & merged & cells & Hm & Hc & ->).
  rewrite (writerow_cells _ _ _ Hc). cbn [odm_cell odm_written].
  rewrite (column_in fs _ ODM Hin), (merge_row_odm _ _ _ Hm). reflexivity.
Qed.

Lemma rows_of_odm_cells (fs : list pystr) (ds : list record) (rows : list line) :
  In ODM fs -> Forall2 (row_of fs) ds rows ->
  map (odm_cell fs) rows = map (fun r => Some (odm_written r)) (map JObj ds).
Proof.
  intros Hin H. induction H as [|d l ds rows Hdl _ IH]; [reflexivity|].
  cbn [map]. rewrite IH, (row_of_odm_cell fs d l Hin Hdl). reflexivity.
Qed.

(** X13: in a run that completes, the rows stand in the order in which
    the DeepSeek records were collected, batch after batch and within a
    batch in the order of completion of the calls, not in input order:
    row after row, the origin_device_model column holds the labels of the
    records in that order. *)
Theorem rows_in_completion_order (w : world) (fs : list pystr) :
  snd (main w) = Ok tt -> writer (fst (main w)) = Some fs -> In ODM fs ->
  map (odm_cell fs) (data_rows w)
  = map (fun r => Some (odm_written r)) (primary_records w).
Proof.
  intros Hok Hfs Hin.
  destruct (main_appended w) as (ds & rest & Hrec & Hrest & _ & H).
  rewrite (Hrest Hok), List.app_nil_r in Hrec. rewrite Hrec.
  destruct ds as [|d1st ds'].
  - destruct H as [Hw _]. unfold data_rows. rewrite Hw. reflexivity.
  - destruct H as (gm & merged & cells & rows & Hm & Hc & Hw & Hrows & Hwr).
    rewrite Hw in Hfs. injection Hfs as <-.
    assert (Hdata : data_rows w = Row cells :: rows).
    { unfold data_rows. rewrite Hwr, filter_app.
      replace (filter is_row match output_csv w with
                             | Some _ => []
                             | None => [Header (Dict.keys merged)]
                             end) with (@nil line) by (destruct (output_csv w); reflexivity).
      cbn [app filter is_row]. f_equal.
      exact (filter_data_rows _ _ (rows_are_data_rows _ _ _ Hrows)). }
    rewrite Hdata. cbn [map]. f_equal.
    + exact (row_of_odm_cell _ _ _ Hin (row_of_intro _ _ _ _ _ Hm Hc)).
    + exact (rows_of_odm_cells _ _ _ Hin Hrows).
Qed.

Lemma rows_in_completion_order_witness :
  map (odm_cell SAMPLE_FIELDS) (data_rows sample_world)
  = map (fun r => Some (odm_written r)) (primary_records sample_world)
  /\ map (odm_cell SAMPLE_FIELDS) (data_rows sample_world)
     = map (fun l => Some (JStr l))
           [str "PCT-AL10"; str "iPhone12,1"; str "SM-G9350"; str "TAS-AN00";
            str "LIO-AN00"; str "V2055A"].
Proof.
  split.
  - apply rows_in_completion_order;
      [vm_compute; reflexivity|vm_compute; reflexivity|simpl; tauto].
  - vm_compute. reflexivity.
Defined.

(** ** The reconciler: order of the Gemini results, keys already present *)

Lemma find_unique_permutation {A} (f : A -> bool) (l l' : list A) :
  Permutation l l' ->
  (forall x y, In x l -> In y l -> f x = true -> f y = true -> x = y) ->
  List.find f l = List.find f l'.
Proof.
  intros Hperm Huniq.
  destruct (List.find f l) as [x|] eqn:E.
  - apply find_some in E. destruct E as [Hx Hfx].
    destruct (List.find f l') as [y|] eqn:E'.
    + apply find_some in E'. destruct E' as [Hy Hfy].
      f_equal. apply Huniq; try assumption.
      exact (Permutation_in _ (Permutation_sym Hperm) Hy).
    + exfalso. pose proof (find_none _ _ E' x (Permutation_in _ Hperm Hx)) as H.
      congruence.
  - symmetry. apply find_all_false. intros y Hy.
    exact (find_none _ _ E y (Permutation_in _ (Permutation_sym Hperm) Hy)).
Qed.

Lemma last_secondary_permutation (label : pystr) (rs rs' : list json) :
  Permutation rs rs' -> one_answer label rs ->
  last_secondary label rs' = last_secondary label rs.
Proof.
  intros Hperm Huniq. unfold last_secondary. symmetry.
  apply find_unique_permutation.
  - rewrite <- !Permutation_rev. exact Hperm.
  - intros x y Hx Hy. apply Huniq; apply in_rev; assumption.
Qed.

Lemma reconcile_lookup (primary : record) (label : pystr) (rs : list json) :
  rget ODM primary = Some (JStr label) -> Forall secondary_record rs ->
  exists m,
    build_gm_map rs [] = Ok m
    /\ reconcile rs (JObj primary) = merge_row m (JObj primary)
    /\ Dict.get key_eqb (JStr label) m = last_secondary label rs.
Proof.
  intros Hodm Hrs.
  destruct (build_gm_map_lookup label rs [] Hrs) as (m & Hm & Hget).
  exists m. split; [exact Hm|]. split.
  - unfold reconcile. rewrite Hm. reflexivity.
  - rewrite Hget. destruct (last_secondary label rs); reflexivity.
Qed.

Lemma merge_row_lookup (m m' : list (json * json)) (primary : record) (label : pystr) :
  rget ODM primary = Some (JStr label) ->
  Dict.get key_eqb (JStr label) m = Dict.get key_eqb (JStr label) m' ->
  merge_row m (JObj primary) = merge_row m' (JObj primary).
Proof.
  intros Hodm H. unfold merge_row, rget_or_none. rewrite Hodm. cbv zeta.
  rewrite H. reflexivity.
Qed.

(** X14: when at most one Gemini record of the batch carries the label
    of a DeepSeek record, the merged row does not depend on the order in
    which the Gemini calls completed. *)
Theorem reconcile_order_independent (primary : record) (label : pystr)
    (rs rs' : list json) :
  rget ODM primary = Some (JStr label) ->
  Forall secondary_record rs ->
  Permutation rs rs' ->
  one_answer label rs ->
  reconcile rs' (JObj primary) = reconcile rs (JObj primary).
Proof.
  intros Hodm Hrs Hperm Huniq.
  assert (Hrs' : Forall secondary_record rs').
  { apply Forall_forall. intros r Hr. rewrite Forall_forall in Hrs.
    apply Hrs. exact (Permutation_in _ (Permutation_sym Hperm) Hr). }
  destruct (reconcile_lookup primary label rs Hodm Hrs) as (m & _ & -> & Hget).
  destruct (reconcile_lookup primary label rs' Hodm Hrs') as (m' & _ & -> & Hget').
  apply (merge_row_lookup m' m primary label Hodm).
  rewrite Hget, Hget'. apply last_secondary_permutation; assumption.
Qed.

Lemma reconcile_order_independent_witness :
  reconcile [JObj [(ODM, JStr (str "SM-G9350")); (str "ram", JStr (str "4 GB"))];
             JObj [(ODM, JStr (str "TAS-AN00")); (str "ram", JStr (str "8 GB"))]]
            (JObj SAMPLE_PRIMARY)
  = reconcile [JObj [(ODM, JStr (str "TAS-AN00")); (str "ram", JStr (str "8 GB"))];
               JObj [(ODM, JStr (str "SM-G9350")); (str "ram", JStr (str "4 GB"))]]
              (JObj SAMPLE_PRIMARY).
Proof.
  apply (reconcile_order_independent SAMPLE_PRIMARY (str "TAS-AN00")).
  - reflexivity.
  - repeat constructor; eexists; split; reflexivity.
  - apply perm_swap.
  - intros x y [<-|[<-|[]]] [<-|[<-|[]]] Hx Hy;
      first [reflexivity | discriminate Hx | discriminate Hy].
Defined.

Lemma rget_rset_same (k : pystr) (v : json) (d : record) :
  rget k (rset k v d) = Some v.
Proof.
  unfold rget, rset. induction d as [|[k' v'] d IH]; cbn [Dict.set Dict.get].
  - rewrite pystr_eqb_refl. reflexivity.
  - destruct (pystr_eqb k k') eqn:E; cbn [Dict.get]; rewrite E; [reflexivity|exact IH].
Qed.

Lemma rget_fold_rset_in (kvs : list (pystr * json)) :
  forall (d : record) (k : pystr) (v : json),
  NoDup (map fst kvs) -> In (k, v) kvs ->
  rget k (fold_left (fun acc kv => rset (fst kv) (snd kv) acc) kvs d) = Some v.
Proof.
  induction kvs as [|[k' v'] kvs IH]; intros d k v Hnd Hin; [destruct Hin|].
  cbn [map fst] in Hnd. inversion Hnd as [|? ? Hnotin Hnd']. subst.
  cbn [fold_left fst snd]. destruct Hin as [E|Hin].
  - injection E as -> ->. rewrite rget_fold_rset_other by exact Hnotin.
    apply rget_rset_same.
  - apply IH; assumption.
Qed.

Lemma merge_row_fold (gm_map : list (json * json)) (primary : record) (label : pystr)
    (gm : record) :
  rget ODM primary = Some (JStr label) ->
  match Dict.get key_eqb (JStr label) gm_map with
  | Some g => g
  | None => JObj []
  end = JObj gm ->
  merge_row gm_map (JObj primary)
  = Ok (fold_left (fun acc kv => rset (fst kv) (snd kv) acc)
          (combine GEMINI_FIELDS (map (fun f => rget_or_none f gm) SECONDARY_FIELDS))
          primary).
Proof.
  intros Hodm Hgm.
  assert (Hodm' : rget_or_none ODM primary = JStr label)
    by (unfold rget_or_none; rewrite Hodm; reflexivity).
  unfold merge_row. rewrite Hodm'. cbv zeta. cbn [hashable]. rewrite Hgm.
  reflexivity.
Qed.

(** X15: whatever keys the DeepSeek record holds, after the merge the six
    gemini_ fields hold the values of the last Gemini record for its label
    (null without one), also when the record already had a field of that
    name, and every other field of the record is unchanged. *)
Theorem reconcile_overwrites (primary : record) (label : pystr) (secondary : list json) :
  rget ODM primary = Some (JStr label) ->
  Forall secondary_record secondary ->
  exists merged,
    reconcile secondary (JObj primary) = Ok merged
    /\ Forall2 (fun g f => rget g merged = Some (secondary_value label secondary f))
               GEMINI_FIELDS SECONDARY_FIELDS
    /\ (forall k, ~ In k GEMINI_FIELDS -> rget k merged = rget k primary)
    /\ incl (Dict.keys primary) (Dict.keys merged).
Proof.
  intros Hodm Hrs.
  destruct (reconcile_lookup primary label secondary Hodm Hrs) as (m & _ & -> & Hget).
  assert (Hgm : exists gm,
            match Dict.get key_eqb (JStr label) m with
            | Some g => g
            | None => JObj []
            end = JObj gm
            /\ forall f, secondary_value label secondary f = rget_or_none f gm).
  { rewrite Hget. unfold secondary_value.
    destruct (last_secondary label secondary) as [r|] eqn:E.
    - unfold last_secondary in E. apply find_some in E. destruct E as [_ E].
      destruct (has_label_dict _ _ E) as [d ->]. exists d. split; reflexivity.
    - exists []. split; reflexivity. }
  destruct Hgm as (gm & Hgm & Hval).
  rewrite (merge_row_fold m primary label gm Hodm Hgm).
  eexists. split; [reflexivity|]. split; [|split].
  - assert (H : forall g f,
              In (g, rget_or_none f gm)
                 (combine GEMINI_FIELDS
                    (map (fun f => rget_or_none f gm) SECONDARY_FIELDS)) ->
              rget g (fold_left (fun acc kv => rset (fst kv) (snd kv) acc)
                        (combine GEMINI_FIELDS
                           (map (fun f => rget_or_none f gm) SECONDARY_FIELDS))
                        primary)
              = Some (secondary_value label secondary f)).
    { intros g f Hin. rewrite Hval. apply rget_fold_rset_in; [|exact Hin].
      exact GEMINI_FIELDS_NoDup. }
    repeat constructor; apply H; simpl; tauto.
  - intros k Hk. apply rget_fold_rset_other.
    rewrite combine_fst by reflexivity. exact Hk.
  - apply keys_fold_rset.
Qed.

Lemma reconcile_overwrites_witness :
  exists merged,
    reconcile SAMPLE_SECONDARY (JObj CROWDED_PRIMARY) = Ok merged
    /\ rget (str "gemini_ram") merged = Some JNull
    /\ rget (str "ram") merged = Some (JStr (str "8 GB")).
Proof.
  destruct (reconcile_overwrites CROWDED_PRIMARY (str "TAS-AN00") SAMPLE_SECONDARY)
    as (merged & Hm & Hg & Hk & _).
  - reflexivity.
  - repeat constructor; eexists; split; reflexivity.
  - exists merged. split; [exact Hm|]. split.
    + unfold GEMINI_FIELDS, SECONDARY_FIELDS in Hg.
      repeat match goal with
      | H : Forall2 _ (_ :: _) (_ :: _) |- _ => inversion H; clear H; subst
      end.
      assumption.
    + rewrite Hk; [reflexivity|]. cbv. intuition discriminate.
Defined.

(** ** The map of the Gemini results *)

Lemma build_gm_map_step (r : json) (rs : list json) (m : list (json * json)) :
  usable_secondary r = true ->
  exists m1, build_gm_map (r :: rs) m = build_gm_map rs m1.
Proof.
  intros Hr. cbn [build_gm_map].
  destruct r as [| | | |s|l|d]; try discriminate Hr; cbn [contains_odm rbind].
  - cbn [usable_secondary] in Hr. apply negb_true_iff in Hr. rewrite Hr. now exists m.
  - cbn [usable_secondary] in Hr. apply negb_true_iff in Hr. rewrite Hr. now exists m.
  - cbn [usable_secondary] in Hr. unfold rget_or_none in Hr.
    unfold Dict.mem, getitem_str. fold (rget ODM d).
    destruct (rget ODM d) as [x|]; cbn [rbind].
    + rewrite Hr. eauto.
    + now exists m.
Qed.

Lemma build_gm_map_unusable (r : json) (rs : list json) (m : list (json * json)) :
  usable_secondary r = false -> build_gm_map (r :: rs) m = Raise TypeError.
Proof.
  intros Hr. cbn [build_gm_map].
  destruct r as [| | | |s|l|d]; try reflexivity; cbn [contains_odm rbind].
  - cbn [usable_secondary] in Hr. apply negb_false_iff in Hr. rewrite Hr. reflexivity.
  - cbn [usable_secondary] in Hr. apply negb_false_iff in Hr. rewrite Hr. reflexivity.
  - cbn [usable_secondary] in Hr. unfold rget_or_none in Hr.
    unfold Dict.mem, getitem_str. fold (rget ODM d).
    destruct (rget ODM d) as [x|]; cbn [rbind].
    + rewrite Hr. reflexivity.
    + discriminate Hr.
Qed.

Lemma build_gm_map_usable (rs : list json) :
  forall m,
  if forallb usable_secondary rs
  then exists m', build_gm_map rs m = Ok m'
  else build_gm_map rs m = Raise TypeError.
Proof.
  induction rs as [|r rs IH]; intros m; [simpl; eauto|].
  cbn [forallb]. destruct (usable_secondary r) eqn:Hr; cbn [andb].
  - destruct (build_gm_map_step r rs m Hr) as [m1 ->]. apply IH.
  - apply build_gm_map_unusable. exact Hr.
Qed.

(** X16: building the map of the Gemini results either succeeds or
    raises a TypeError, which nothing catches; it succeeds exactly when
    every result is a dict whose label can be a key (a missing label is
    fine: the record is skipped), a list that does not hold the key name,
    or a string that does not contain it.  A number, null or boolean among
    the results makes the merge of the whole batch fail. *)
Theorem build_gm_map_outcomes (rs : list json) (m : list (json * json)) :
  ((exists m', build_gm_map rs m = Ok m') <-> forallb usable_secondary rs = true)
  /\ (build_gm_map rs m = Raise TypeError <-> forallb usable_secondary rs = false)
  /\ (forall row, forallb usable_secondary rs = false ->
        reconcile rs row = Raise TypeError).
Proof.
  pose proof (build_gm_map_usable rs m) as H.
  pose proof (build_gm_map_usable rs []) as H0.
  destruct (forallb usable_secondary rs).
  - destruct H as [m' Hm]. split; [|split].
    + split; [reflexivity|]. intros _. now exists m'.
    + rewrite Hm. split; discriminate.
    + discriminate.
  - split; [|split].
    + rewrite H. split; [intros [m' Hm]; discriminate Hm|discriminate].
    + split; [reflexivity|]. intros _. exact H.
    + intros row _. unfold reconcile. rewrite H0. reflexivity.
Qed.

(** ** The number of calls *)

Lemma labels_in_cons (p : provider) (c : dispatch) (cs : list dispatch) :
  labels_in p (c :: cs)
  = (if provider_eqb (fst c) p then snd c else []) ++ labels_in p cs.
Proof.
  unfold labels_in. cbn [filter]. destruct (provider_eqb (fst c) p); reflexivity.
Qed.

Lemma length_calls (cs : list dispatch) :
  Forall one_label cs ->
  length cs = (length (labels_in DeepSeek cs) + length (labels_in Gemini cs))%nat.
Proof.
  induction 1 as [|[p ls] cs Hc _ IH]; [reflexivity|].
  rewrite !labels_in_cons, !length_app. unfold one_label in Hc. cbn [fst snd] in *.
  cbn [length]. destruct p; cbn [provider_eqb length]; lia.
Qed.

(** X17: a run makes at most two calls per label read from the input,
    one to each provider, and exactly two per label when it completes. *)
Theorem calls_per_label (w : world) :
  (length (calls (fst (main w))) <= 2 * length (labels_of w))%nat
  /\ (snd (main w) = Ok tt ->
      length (calls (fst (main w))) = (2 * length (labels_of w))%nat).
Proof.
  destruct (main_calls w) as [Hone Hall].
  pose proof (length_calls _ Hone) as Hlen.
  fold (labels_sent DeepSeek (fst (main w))) in Hlen.
  fold (labels_sent Gemini (fst (main w))) in Hlen.
  split.
  - destruct (main_sent_prefix w DeepSeek) as [r1 H1].
    destruct (main_sent_prefix w Gemini) as [r2 H2].
    apply (f_equal (@length pystr)) in H1, H2. rewrite length_app in H1, H2. lia.
  - intros Hok. specialize (Hall Hok).
    assert (Hsent : forall p, labels_sent p (fst (main w)) = labels_of w).
    { intros p. unfold labels_sent, labels_in. rewrite Hall.
      etransitivity; [apply labels_of_batch_dispatches|apply batches_concat]. }
    rewrite Hlen, !Hsent. lia.
Qed.

Lemma calls_per_label_witness :
  length (calls (fst (main sample_world))) = 14%nat.
Proof.
  destruct (calls_per_label sample_world) as [_ H].
  rewrite H; [reflexivity|vm_compute; reflexivity].
Defined.
